(** * Coup turn state machine (pettingzoo_coup.env): shallow embedding

    The development follows the source modules leaf first:
    - [card.py]   : the [CARD] enum and [draw];
    - [player.py] : [Player] with [alive], [next_alive], [draw], [putback],
                    [lose] and [enum];
    - [action.py] : the action catalogue [ACTION];
    - [state.py]  : the turn phases with [action_mask] and [step];
    - [env.py]    : the end-of-turn handling of [raw_env.step].

    Python objects that are mutated in place (the shared deck, the players)
    live in one store, the [World]; a [Player] reference is a seat number.
    Code that can raise runs in a state-and-exception monad in which the
    store survives a raise, as it does in Python.

    The properties come after the definitions: the algebra of [Counter],
    the card operations (C4, C5, C10), the coin transfer of a Steal (C7,
    C1), the ring of seats and the rounds that walk it (C2, C3), the
    terminal phase (C8), the challenge of a held role (C6) and the flags of
    a Pass (C9); the runs of tests/test_game_mechanics.py close the file. *)

From Stdlib Require Import ZArith Lia String Bool Finite.
From stdpp Require Import base decidable option list numbers.

Local Open Scope Z_scope.

(** ** card.py *)

Inductive CARD : Type :=
| AMBASSADOR
| ASSASSIN
| CAPTAIN
| CONTESSA
| DUKE.

#[global] Instance CARD_eq_dec : EqDecision CARD.
Proof. solve_decision. Defined.

(** The members of the enum, in definition order ([for card in CARD]). *)
Definition CARDS : list CARD := [AMBASSADOR; ASSASSIN; CAPTAIN; CONTESSA; DUKE].

(** *** collections.Counter

    A [Counter] is a dict from cards to integers that remembers the order in
    which keys were inserted; [elements()] walks it in that order, so the
    order is part of the model.  A key is stored at most once
    ([wf_counter]). *)
Module Counter.

Definition t : Type := list (CARD * Z).

(** [c[k]]: the stored count, [0] for a missing key (reading never
    inserts). *)
Fixpoint get (c : t) (k : CARD) : Z :=
  match c with
  | [] => 0
  | (k', v) :: c' => if decide (k = k') then v else get c' k
  end.

(** [k in c]. *)
Fixpoint contains (c : t) (k : CARD) : bool :=
  match c with
  | [] => false
  | (k', _) :: c' => if decide (k = k') then true else contains c' k
  end.

(** [c[k] = v]: overwrite in place, or append a new key at the end. *)
Fixpoint set (c : t) (k : CARD) (v : Z) : t :=
  match c with
  | [] => [(k, v)]
  | (k', v') :: c' =>
      if decide (k = k') then (k, v) :: c' else (k', v') :: set c' k v
  end.

(** [del c[k]]. *)
Fixpoint del (c : t) (k : CARD) : t :=
  match c with
  | [] => []
  | (k', v') :: c' =>
      if decide (k = k') then del c' k else (k', v') :: del c' k
  end.

(** [c[k] += 1]. *)
Definition incr (c : t) (k : CARD) : t := set c k (get c k + 1).

(** [c[k] -= 1; if not c[k]: del c[k]]. *)
Definition decr_del (c : t) (k : CARD) : t :=
  let c1 := set c k (get c k - 1) in
  if decide (get c1 k = 0) then del c1 k else c1.

(** [c.elements()]: every key repeated count times, keys in insertion
    order; counts below one contribute nothing. *)
Definition elements (c : t) : list CARD :=
  flat_map (fun kv => repeat (fst kv) (Z.to_nat (snd kv))) c.

(** [c.total()]: the sum of the stored counts. *)
Definition total (c : t) : Z :=
  fold_right (fun kv acc => snd kv + acc) 0 c.

(** Representation invariant of a dict: keys are unique. *)
Definition wf_counter (c : t) : Prop := NoDup (map fst c).

(** Discipline kept by [draw], [putback] and [lose]: a stored count is at
    least one (a count that reaches zero is deleted). *)
Definition positive (c : t) : Prop := Forall (fun kv => 1 <= snd kv) c.

End Counter.

Abbreviation Counter := Counter.t.

(** ** Exceptions and the store *)

Inductive exn : Type :=
| AssertionError
| ValueError
| IndexError
| PlayerError
| InvalidState
| NotImplementedError
| RuntimeError
| KeyError.

Inductive outcome (A : Type) : Type :=
| Ok (a : A)
| Raise (e : exn).
Arguments Ok {A} a.
Arguments Raise {A} e.

(** player.py, [class Player].  [id] is the seat number that refers to the
    player, [_deck] is the deck of the store (env.reset hands the same
    Counter to every player) and [next] is the following seat of the ring
    (env.reset: [players[(i + 1) % len(players)]]). *)
Record Player : Type := mkPlayer {
  coins : Z;
  cards : Counter;
  block_passed : bool;
  challenge_passed : bool;
  block_challenge_passed : bool;
}.

Abbreviation pid := nat.

(** The mutable objects of one game.  [rng] is the stream of raw values of
    numpy's global generator and [rng_pos] the number of values consumed. *)
Record World : Type := mkWorld {
  deck : Counter;
  players : list Player;
  rng : nat -> Z;
  rng_pos : nat;
}.

Definition M (A : Type) : Type := World -> outcome A * World.

Definition ret {A} (a : A) : M A := fun w => (Ok a, w).

Definition raise {A} (e : exn) : M A := fun w => (Raise e, w).

Definition bind {A B} (m : M A) (k : A -> M B) : M B :=
  fun w =>
    match m w with
    | (Ok a, w') => k a w'
    | (Raise e, w') => (Raise e, w')
    end.

Notation "x <- m ;; k" := (bind m (fun x => k))
  (at level 100, m at next level, right associativity).
Notation "m ;;; k" := (bind m (fun _ => k))
  (at level 100, right associativity).

Definition read {A} (f : World -> A) : M A := fun w => (Ok (f w), w).

Definition modify (f : World -> World) : M unit := fun w => (Ok tt, f w).

(** [assert b]. *)
Definition assert (b : bool) : M unit :=
  if b then ret tt else raise AssertionError.

Definition no_player : Player := mkPlayer 0 [] false false false.

Definition player_at (w : World) (p : pid) : Player :=
  default no_player (players w !! p).

Definition set_deck (d : Counter) (w : World) : World :=
  mkWorld d (players w) (rng w) (rng_pos w).

Definition update_player (p : pid) (f : Player -> Player) (w : World) : World :=
  mkWorld (deck w) (<[p := f (player_at w p)]> (players w)) (rng w) (rng_pos w).

Definition set_coins (v : Z) (pl : Player) : Player :=
  mkPlayer v (cards pl) (block_passed pl) (challenge_passed pl)
           (block_challenge_passed pl).

Definition set_cards (c : Counter) (pl : Player) : Player :=
  mkPlayer (coins pl) c (block_passed pl) (challenge_passed pl)
           (block_challenge_passed pl).

Definition set_block_passed (b : bool) (pl : Player) : Player :=
  mkPlayer (coins pl) (cards pl) b (challenge_passed pl)
           (block_challenge_passed pl).

Definition set_challenge_passed (b : bool) (pl : Player) : Player :=
  mkPlayer (coins pl) (cards pl) (block_passed pl) b
           (block_challenge_passed pl).

Definition set_block_challenge_passed (b : bool) (pl : Player) : Player :=
  mkPlayer (coins pl) (cards pl) (block_passed pl) (challenge_passed pl) b.

(** [np.random.randint(low, high)]: an integer of [low, high), [high]
    excluded; ValueError when the range is empty.  The next raw value of the
    generator is folded into the range, so every member of the range is the
    outcome of some raw value and nothing else is. *)
Definition randint (low high : Z) : M Z :=
  fun w =>
    if decide (high <= low) then (Raise ValueError, w)
    else
      (Ok (low + (rng w (rng_pos w)) mod (high - low)),
       mkWorld (deck w) (players w) (rng w) (S (rng_pos w))).

(** [cards[idx]] on a Python list, for an index that is not negative. *)
Definition list_item {A} (l : list A) (idx : Z) : M A :=
  match l !! Z.to_nat idx with
  | Some a => ret a
  | None => raise IndexError
  end.

(** card.py, [draw(deck)], on the deck of the store. *)
Definition draw : M CARD :=
  cs <- read (fun w => Counter.elements (deck w)) ;;
  idx <- randint 0 (Z.of_nat (length cs) - 1) ;;
  card <- list_item cs idx ;;
  modify (fun w => set_deck (Counter.decr_del (deck w) card) w) ;;;
  ret card.

(** ** player.py *)

Module Player.

(** [Player.alive]. *)
Definition alive (w : World) (p : pid) : bool :=
  bool_decide (0 < Counter.total (cards (player_at w p))).

(** [Player.next]. *)
Definition next (w : World) (p : pid) : pid :=
  (S p mod length (players w))%nat.

(** The loop of [next_alive]; a ring of [n] seats is back at [self] after
    at most [n] steps, which bounds [fuel]. *)
Fixpoint next_alive_loop (fuel : nat) (w : World) (self player : pid)
  : outcome pid :=
  match fuel with
  | O => Raise PlayerError
  | S fuel' =>
      if decide (player = self) then Raise PlayerError
      else if alive w player then Ok player
      else next_alive_loop fuel' w self (next w player)
  end.

(** [Player.next_alive]. *)
Definition next_alive (p : pid) : M pid :=
  fun w => (next_alive_loop (length (players w)) w p (next w p), w).

(** [Player.draw]. *)
Definition draw (p : pid) : M unit :=
  card <- draw ;;
  modify
    (update_player p (fun pl => set_cards (Counter.incr (cards pl) card) pl)).

(** [Player.putback]. *)
Definition putback (p : pid) (card : CARD) : M unit :=
  held <- read (fun w => Counter.contains (cards (player_at w p)) card) ;;
  assert held ;;;
  modify
    (update_player p
       (fun pl => set_cards (Counter.decr_del (cards pl) card) pl)) ;;;
  modify (fun w => set_deck (Counter.incr (deck w) card) w).

(** [Player.lose]. *)
Definition lose (p : pid) (card : CARD) : M unit :=
  held <- read (fun w => Counter.contains (cards (player_at w p)) card) ;;
  assert held ;;;
  modify
    (update_player p
       (fun pl => set_cards (Counter.decr_del (cards pl) card) pl)).

(** The loop of [enum], started at [self.next] with [i = 1]. *)
Fixpoint enum_loop (fuel : nat) (w : World) (skip_dead : bool)
         (self : pid) (i : Z) (player : pid) : list (Z * pid) :=
  match fuel with
  | O => []
  | S fuel' =>
      if decide (player = self) then []
      else
        (if negb skip_dead || alive w player then [(i, player)] else [])
        ++ enum_loop fuel' w skip_dead self (i + 1) (next w player)
  end.

(** [Player.enum(skip_dead, skip_self)], as the list it yields. *)
Definition enum (w : World) (skip_dead skip_self : bool) (p : pid)
  : list (Z * pid) :=
  (if negb skip_self && (negb skip_dead || alive w p) then [(0, p)] else [])
  ++ enum_loop (length (players w)) w skip_dead p 1 (next w p).

End Player.

(** ** action.py *)

Inductive ACT : Type :=
| SELF
| TARGET
| BLOCK
| CHALLENGE
| LOSE.

#[global] Instance ACT_eq_dec : EqDecision ACT.
Proof. solve_decision. Defined.

(** The instances held by [ActionTypes]; two actions are equal when their
    fields are, and the names are pairwise different. *)
Inductive Action : Type :=
| LOSE_AMBASSADOR
| LOSE_ASSASSIN
| LOSE_CAPTAIN
| LOSE_CONTESSA
| LOSE_DUKE
| CHALLENGE_PASS
| CHALLENGE_CALL
| BLOCK_PASS
| BLOCK_ASSASSINATE
| BLOCK_FOREIGN_AID
| BLOCK_STEAL_AMB
| BLOCK_STEAL_CAP
| EXCHANGE
| FOREIGN_AID
| INCOME
| TAX
| ASSASSINATE
| COUP
| STEAL.

#[global] Instance Action_eq_dec : EqDecision Action.
Proof. solve_decision. Defined.

Definition action_type (a : Action) : ACT :=
  match a with
  | LOSE_AMBASSADOR | LOSE_ASSASSIN | LOSE_CAPTAIN | LOSE_CONTESSA
  | LOSE_DUKE => LOSE
  | CHALLENGE_PASS | CHALLENGE_CALL => CHALLENGE
  | BLOCK_PASS | BLOCK_ASSASSINATE | BLOCK_FOREIGN_AID | BLOCK_STEAL_AMB
  | BLOCK_STEAL_CAP => BLOCK
  | EXCHANGE | FOREIGN_AID | INCOME | TAX => SELF
  | ASSASSINATE | COUP | STEAL => TARGET
  end.

Definition action_name (a : Action) : string :=
  match a with
  | LOSE_AMBASSADOR => "LOSE_AMBASSADOR"
  | LOSE_ASSASSIN => "LOSE_ASSASSIN"
  | LOSE_CAPTAIN => "LOSE_CAPTAIN"
  | LOSE_CONTESSA => "LOSE_CONTESSA"
  | LOSE_DUKE => "LOSE_DUKE"
  | CHALLENGE_PASS => "CHALLENGE_PASS"
  | CHALLENGE_CALL => "CHALLENGE_CALL"
  | BLOCK_PASS => "BLOCK_PASS"
  | BLOCK_ASSASSINATE => "BLOCK_ASSASSINATE"
  | BLOCK_FOREIGN_AID => "BLOCK_FOREIGN_AID"
  | BLOCK_STEAL_AMB => "BLOCK_STEAL_AMB"
  | BLOCK_STEAL_CAP => "BLOCK_STEAL_CAP"
  | EXCHANGE => "EXCHANGE"
  | FOREIGN_AID => "FOREIGN_AID"
  | INCOME => "INCOME"
  | TAX => "TAX"
  | ASSASSINATE => "ASSASSINATE"
  | COUP => "COUP"
  | STEAL => "STEAL"
  end.

Definition action_card (a : Action) : option CARD :=
  match a with
  | LOSE_AMBASSADOR => Some AMBASSADOR
  | LOSE_ASSASSIN => Some ASSASSIN
  | LOSE_CAPTAIN => Some CAPTAIN
  | LOSE_CONTESSA => Some CONTESSA
  | LOSE_DUKE => Some DUKE
  | BLOCK_ASSASSINATE => Some CONTESSA
  | BLOCK_FOREIGN_AID => Some DUKE
  | BLOCK_STEAL_AMB => Some AMBASSADOR
  | BLOCK_STEAL_CAP => Some CAPTAIN
  | EXCHANGE => Some AMBASSADOR
  | TAX => Some DUKE
  | ASSASSINATE => Some ASSASSIN
  | STEAL => Some CAPTAIN
  | CHALLENGE_PASS | CHALLENGE_CALL | BLOCK_PASS | FOREIGN_AID | INCOME
  | COUP => None
  end.

Definition action_block (a : Action) : list string :=
  match a with
  | FOREIGN_AID => ["BLOCK_PASS"; "BLOCK_FOREIGN_AID"]
  | ASSASSINATE => ["BLOCK_PASS"; "BLOCK_ASSASSINATE"]
  | STEAL => ["BLOCK_PASS"; "BLOCK_STEAL_AMB"; "BLOCK_STEAL_CAP"]
  | _ => []
  end%string.

(** [ACTION], iterated in the order of the dataclass fields. *)
Definition ACTION : list Action :=
  [ LOSE_AMBASSADOR; LOSE_ASSASSIN; LOSE_CAPTAIN; LOSE_CONTESSA; LOSE_DUKE;
    CHALLENGE_PASS; CHALLENGE_CALL;
    BLOCK_PASS; BLOCK_ASSASSINATE; BLOCK_FOREIGN_AID; BLOCK_STEAL_AMB;
    BLOCK_STEAL_CAP;
    EXCHANGE; FOREIGN_AID; INCOME; TAX;
    ASSASSINATE; COUP; STEAL ].

Definition START_ACTION : list Action :=
  filter (fun a => action_type a = SELF \/ action_type a = TARGET) ACTION.

Definition BLOCK_ACTION : list Action :=
  filter (fun a => action_type a = BLOCK) ACTION.

(** [action_space(num_players)]. *)
Definition action_space (num_players : nat) : list (Action * Z) :=
  flat_map
    (fun a =>
       if decide (action_type a <> TARGET) then [(a, 0)]
       else map (fun t => (a, Z.of_nat t)) (seq 1 (num_players - 1)))
    ACTION.

(** ** state.py *)

(** [lose_card_mask(player)]. *)
Definition lose_card_mask (w : World) (player : pid) : list (Action * Z) :=
  flat_map
    (fun a =>
       if decide (action_type a = LOSE) then
         match action_card a with
         | Some c =>
             if decide (Counter.get (cards (player_at w player)) c <> 0)
             then [(a, 0)] else []
         | None => []
         end
       else [])
    ACTION.

(** [block_mask(act)]. *)
Definition block_mask (act : Action) : list (Action * Z) :=
  flat_map
    (fun a =>
       if existsb (String.eqb (action_name a)) (action_block act)
       then [(a, 0)] else [])
    ACTION.

(** [challenge_mask()]. *)
Definition challenge_mask : list (Action * Z) :=
  flat_map
    (fun a => if decide (action_type a = CHALLENGE) then [(a, 0)] else [])
    ACTION.

Record ActInfo : Type := mkActInfo {
  act_actor : pid;
  act_action : Action;
  act_target : pid;
}.

Inductive ChallengeType : Type :=
| on_action
| on_block.

Record ChallengeInfo : Type := mkChallengeInfo {
  chl_type : ChallengeType;
  chl_challenger : pid;
  chl_loser : pid;
}.

(** [ChallengeInfo.failed]. *)
Definition failed (chl : ChallengeInfo) : bool :=
  bool_decide (chl_loser chl = chl_challenger chl).

Record BlockInfo : Type := mkBlockInfo {
  blk_blocker : pid;
  blk_action : Action;
}.

#[global] Instance ActInfo_eq_dec : EqDecision ActInfo.
Proof. solve_decision. Defined.
#[global] Instance ChallengeType_eq_dec : EqDecision ChallengeType.
Proof. solve_decision. Defined.
#[global] Instance ChallengeInfo_eq_dec : EqDecision ChallengeInfo.
Proof. solve_decision. Defined.
#[global] Instance BlockInfo_eq_dec : EqDecision BlockInfo.
Proof. solve_decision. Defined.

(** [resolve_steal(act)].  Actor and target are references into the store:
    the second assignment reads the balance the first one left. *)
Definition resolve_steal (act : ActInfo) : M unit :=
  amount <- read (fun w => Z.min 2 (coins (player_at w (act_target act)))) ;;
  modify
    (update_player (act_actor act)
       (fun pl => set_coins (coins pl + amount) pl)) ;;;
  modify
    (update_player (act_target act)
       (fun pl => set_coins (coins pl - amount) pl)).

(** [observe_challenge(chl, player)], the booleans before their conversion
    to int8. *)
Definition observe_challenge (w : World) (chl : option ChallengeInfo)
           (player : pid) : list bool :=
  let seats := map snd (Player.enum w false false player) in
  match chl with
  | Some chl =>
      (match chl_type chl with
       | on_action => map (fun nxt => challenge_passed (player_at w nxt)) seats
       | on_block =>
           map (fun nxt => block_challenge_passed (player_at w nxt)) seats
       end)
      ++ map (fun nxt => bool_decide (chl_challenger chl = nxt)) seats
      ++ map (fun nxt => bool_decide (chl_loser chl = nxt)) seats
  | None =>
      map (fun _ => false) seats ++ map (fun _ => false) seats
      ++ map (fun _ => false) seats
  end.

(** The turn phases, [state.Any]. *)
Inductive State : Type :=
| Start (player : pid)
| Challenge (player : pid) (act : ActInfo)
| ChallengeResolve (player : pid) (act : ActInfo) (challenge : ChallengeInfo)
| ForeignAidBlock (player : pid) (act : ActInfo)
                  (challenge : option ChallengeInfo)
| TargetBlock (player : pid) (act : ActInfo)
              (challenge : option ChallengeInfo)
| BlockChallenge (player : pid) (block : BlockInfo) (act : ActInfo)
                 (challenge : option ChallengeInfo)
| BlockChallengeResolve (player : pid) (block : BlockInfo)
                        (block_challenge : ChallengeInfo) (act : ActInfo)
                        (challenge : option ChallengeInfo)
| ActionResolve (player : pid) (act : ActInfo)
                (challenge : option ChallengeInfo) (block : option BlockInfo)
                (block_challenge : option ChallengeInfo)
| ExchangeResolve (player : pid) (act : ActInfo)
                  (challenge : option ChallengeInfo)
| ExchangeTwoResolve (player : pid) (act : ActInfo)
                     (challenge : option ChallengeInfo)
| EndTurn (act : ActInfo) (challenge : option ChallengeInfo)
          (block : option BlockInfo) (block_challenge : option ChallengeInfo)
          (_player : option pid)
| GameOver.

#[global] Instance State_eq_dec : EqDecision State.
Proof. solve_decision. Defined.

Definition add_coins (p : pid) (d : Z) : M unit :=
  modify (update_player p (fun pl => set_coins (coins pl + d) pl)).

(** [assert card] followed by the use of [card]. *)
Definition assert_card (c : option CARD) : M CARD :=
  match c with
  | Some c => ret c
  | None => raise AssertionError
  end.

(** [if player.cards[card]:]. *)
Definition holds (w : World) (p : pid) (c : CARD) : bool :=
  bool_decide (Counter.get (cards (player_at w p)) c <> 0).

Module Start.

Definition action_mask (w : World) (player : pid) : list (Action * Z) :=
  let coup :=
    if decide (7 <= coins (player_at w player)) then
      map (fun io => (COUP, fst io)) (Player.enum w true true player)
    else [] in
  if bool_decide (7 <= coins (player_at w player))
     && bool_decide (10 <= coins (player_at w player))
  then coup (* must coup *)
  else
    coup
    ++ flat_map
         (fun io =>
            (if decide (3 <= coins (player_at w player))
             then [(ASSASSINATE, fst io)] else [])
            ++ (if decide (0 < coins (player_at w (snd io)))
                then [(STEAL, fst io)] else []))
         (Player.enum w true true player)
    ++ flat_map
         (fun a => if decide (action_type a = SELF) then [(a, 0)] else [])
         ACTION.

Definition step (player : pid) (action : Action) (target : pid) : M State :=
  let act := mkActInfo player action target in
  if decide (action = INCOME) then
    add_coins player 1 ;;;
    ret (EndTurn act None None None None)
  else if decide (action = FOREIGN_AID) then
    nxt <- Player.next_alive player ;;
    ret (ForeignAidBlock nxt act None)
  else if decide (action = COUP) then
    add_coins player (-7) ;;;
    ret (ActionResolve target act None None None)
  else
    (if decide (action = ASSASSINATE) then add_coins player (-3)
     else ret tt) ;;;
    match action_card action with
    | Some _ =>
        nxt <- Player.next_alive player ;;
        ret (Challenge nxt act)
    | None => raise InvalidState
    end.

End Start.

Module Challenge.

Definition action_mask : list (Action * Z) := challenge_mask.

Definition step (player : pid) (act : ActInfo) (action : Action) : M State :=
  let actor := act_actor act in
  if decide (action = CHALLENGE_PASS) then
    modify (update_player player (set_challenge_passed true)) ;;;
    nxt <- Player.next_alive player ;;
    if decide (nxt = actor) then
      if decide (act_action act = EXCHANGE) then
        Player.draw actor ;;;
        Player.draw actor ;;;
        ret (ExchangeResolve actor act None)
      else if decide (act_action act = TAX) then
        add_coins actor 3 ;;;
        ret (EndTurn act None None None None)
      else
        match action_block (act_action act) with
        | _ :: _ => ret (TargetBlock (act_target act) act None)
        | [] =>
            (* no return in this branch: the test for CHALLENGE_CALL
               below fails and the function raises *)
            raise InvalidState
        end
    else
      nxt <- Player.next_alive player ;;
      ret (Challenge nxt act)
  else if decide (action = CHALLENGE_CALL) then
    card <- assert_card (action_card (act_action act)) ;;
    has <- read (fun w => holds w actor card) ;;
    loser <-
      (if has : bool then
         Player.putback actor card ;;;
         Player.draw actor ;;;
         ret player
       else ret actor) ;;
    let chl := mkChallengeInfo on_action player loser in
    ret (ChallengeResolve loser act chl)
  else raise InvalidState.

End Challenge.

Module ChallengeResolve.

Definition action_mask (w : World) (player : pid) : list (Action * Z) :=
  lose_card_mask w player.

Definition step (player : pid) (act : ActInfo) (challenge : ChallengeInfo)
           (action : Action) : M State :=
  card <- assert_card (action_card action) ;;
  Player.lose player card ;;;
  if decide (chl_loser challenge = act_actor act) then
    ret (EndTurn act (Some challenge) None None None)
  else if decide (act_action act = TAX) then
    add_coins (act_actor act) 3 ;;;
    ret (EndTurn act (Some challenge) None None None)
  else if decide (act_action act = EXCHANGE) then
    Player.draw (act_actor act) ;;;
    Player.draw (act_actor act) ;;;
    ret (ExchangeResolve (act_actor act) act None)
  else
    target_alive <- read (fun w => Player.alive w (act_target act)) ;;
    if bool_decide (act_action act = STEAL) && negb target_alive then
      resolve_steal act ;;;
      ret (EndTurn act (Some challenge) None None None)
    else if bool_decide (act_action act = ASSASSINATE) && negb target_alive
    then ret (EndTurn act (Some challenge) None None None)
    else
      match action_block (act_action act) with
      | _ :: _ => ret (TargetBlock (act_target act) act None)
      | [] => raise InvalidState
      end.

End ChallengeResolve.

Module ForeignAidBlock.

Definition action_mask (act : ActInfo) : list (Action * Z) :=
  block_mask (act_action act).

Definition step (player : pid) (act : ActInfo)
           (challenge : option ChallengeInfo) (action : Action) : M State :=
  if decide (action = BLOCK_PASS) then
    modify (update_player player (set_block_passed true)) ;;;
    nxt <- Player.next_alive player ;;
    if decide (nxt = act_actor act) then
      add_coins (act_actor act) 2 ;;;
      ret (EndTurn act challenge None None None)
    else
      nxt <- Player.next_alive player ;;
      ret (ForeignAidBlock nxt act challenge)
  else if decide (action = BLOCK_FOREIGN_AID) then
    let block := mkBlockInfo player BLOCK_FOREIGN_AID in
    ret (BlockChallenge player block act challenge)
  else raise InvalidState.

End ForeignAidBlock.

Module TargetBlock.

Definition action_mask (act : ActInfo) : list (Action * Z) :=
  block_mask (act_action act).

Definition step (player : pid) (act : ActInfo)
           (challenge : option ChallengeInfo) (action : Action) : M State :=
  if decide (action = BLOCK_PASS) then
    modify (update_player player (set_block_passed true)) ;;;
    if decide (act_action act = STEAL) then
      resolve_steal act ;;;
      ret (EndTurn act challenge None None None)
    else if decide (act_action act = ASSASSINATE) then
      ret (ActionResolve (act_target act) act challenge None None)
    else raise InvalidState
  else
    let block := mkBlockInfo player action in
    ret (BlockChallenge player block act challenge).

End TargetBlock.

Module BlockChallenge.

Definition action_mask : list (Action * Z) := challenge_mask.

Definition step (player : pid) (block : BlockInfo) (act : ActInfo)
           (challenge : option ChallengeInfo) (action : Action) : M State :=
  if decide (action = CHALLENGE_PASS) then
    modify (update_player player (set_challenge_passed true)) ;;;
    nxt <- Player.next_alive player ;;
    if decide (nxt = act_actor act) then
      ret (EndTurn act challenge (Some block) None None)
    else
      nxt <- Player.next_alive player ;;
      ret (BlockChallenge nxt block act challenge)
  else if decide (action = CHALLENGE_CALL) then
    let blocker := blk_blocker block in
    card <- assert_card (action_card (blk_action block)) ;;
    has <- read (fun w => holds w blocker card) ;;
    loser <-
      (if has : bool then
         Player.putback blocker card ;;;
         Player.draw blocker ;;;
         ret player
       else ret blocker) ;;
    let chl := mkChallengeInfo on_block player loser in
    ret (BlockChallengeResolve loser block chl act challenge)
  else raise InvalidState.

End BlockChallenge.

Module BlockChallengeResolve.

Definition action_mask (w : World) (player : pid) : list (Action * Z) :=
  lose_card_mask w player.

Definition toEndTurn (block : BlockInfo) (block_challenge : ChallengeInfo)
           (act : ActInfo) (challenge : option ChallengeInfo) : State :=
  EndTurn act challenge (Some block) (Some block_challenge) None.

Definition step (player : pid) (block : BlockInfo)
           (block_challenge : ChallengeInfo) (act : ActInfo)
           (challenge : option ChallengeInfo) (action : Action) : M State :=
  card <- assert_card (action_card action) ;;
  Player.lose player card ;;;
  if decide (chl_loser block_challenge = chl_challenger block_challenge) then
    ret (toEndTurn block block_challenge act challenge)
  else if decide (act_action act = FOREIGN_AID) then
    add_coins (act_actor act) 2 ;;;
    ret (toEndTurn block block_challenge act challenge)
  else if decide (act_action act = STEAL) then
    resolve_steal act ;;;
    ret (toEndTurn block block_challenge act challenge)
  else if decide (act_action act = ASSASSINATE) then
    target_alive <- read (fun w => Player.alive w (act_target act)) ;;
    if negb target_alive then
      ret (toEndTurn block block_challenge act challenge)
    else
      ret (ActionResolve (act_target act) act challenge (Some block)
                         (Some block_challenge))
  else raise InvalidState.

End BlockChallengeResolve.

Module ActionResolve.

Definition action_mask (w : World) (player : pid) : list (Action * Z) :=
  lose_card_mask w player.

Definition step (player : pid) (act : ActInfo)
           (challenge : option ChallengeInfo) (block : option BlockInfo)
           (block_challenge : option ChallengeInfo) (action : Action)
  : M State :=
  card <- assert_card (action_card action) ;;
  Player.lose player card ;;;
  ret (EndTurn act challenge block block_challenge None).

End ActionResolve.

Module ExchangeResolve.

Definition action_mask (w : World) (player : pid) : list (Action * Z) :=
  lose_card_mask w player.

Definition step (player : pid) (act : ActInfo)
           (challenge : option ChallengeInfo) (action : Action) : M State :=
  card <- assert_card (action_card action) ;;
  Player.putback player card ;;;
  ret (ExchangeTwoResolve player act challenge).

End ExchangeResolve.

Module ExchangeTwoResolve.

Definition action_mask (w : World) (player : pid) : list (Action * Z) :=
  lose_card_mask w player.

Definition step (player : pid) (act : ActInfo)
           (challenge : option ChallengeInfo) (action : Action) : M State :=
  card <- assert_card (action_card action) ;;
  Player.putback player card ;;;
  ret (EndTurn act challenge None None None).

End ExchangeTwoResolve.

Module EndTurn.

(** The [player] property. *)
Definition player (_player : option pid) : M pid :=
  match _player with
  | Some p => ret p
  | None => raise InvalidState
  end.

Definition step : M State := raise NotImplementedError.

Definition action_mask : list (Action * Z) := [].

End EndTurn.

Module GameOver.

Definition player : M pid := raise NotImplementedError.

Definition step : M State := ret GameOver.

Definition action_mask : list (Action * Z) := [].

End GameOver.

(** [turn.step(action, target)], by the class of [turn]. *)
Definition step (turn : State) (action : Action) (target : pid) : M State :=
  match turn with
  | Start player => Start.step player action target
  | Challenge player act => Challenge.step player act action
  | ChallengeResolve player act challenge =>
      ChallengeResolve.step player act challenge action
  | ForeignAidBlock player act challenge =>
      ForeignAidBlock.step player act challenge action
  | TargetBlock player act challenge =>
      TargetBlock.step player act challenge action
  | BlockChallenge player block act challenge =>
      BlockChallenge.step player block act challenge action
  | BlockChallengeResolve player block block_challenge act challenge =>
      BlockChallengeResolve.step player block block_challenge act challenge
                                 action
  | ActionResolve player act challenge block block_challenge =>
      ActionResolve.step player act challenge block block_challenge action
  | ExchangeResolve player act challenge =>
      ExchangeResolve.step player act challenge action
  | ExchangeTwoResolve player act challenge =>
      ExchangeTwoResolve.step player act challenge action
  | EndTurn _ _ _ _ _ => EndTurn.step
  | GameOver => GameOver.step
  end.

(** [turn.action_mask()]. *)
Definition action_mask (w : World) (turn : State) : list (Action * Z) :=
  match turn with
  | Start player => Start.action_mask w player
  | Challenge _ _ => Challenge.action_mask
  | ChallengeResolve player _ _ => ChallengeResolve.action_mask w player
  | ForeignAidBlock _ act _ => ForeignAidBlock.action_mask act
  | TargetBlock _ act _ => TargetBlock.action_mask act
  | BlockChallenge _ _ _ _ => BlockChallenge.action_mask
  | BlockChallengeResolve player _ _ _ _ =>
      BlockChallengeResolve.action_mask w player
  | ActionResolve player _ _ _ _ => ActionResolve.action_mask w player
  | ExchangeResolve player _ _ => ExchangeResolve.action_mask w player
  | ExchangeTwoResolve player _ _ => ExchangeTwoResolve.action_mask w player
  | EndTurn _ _ _ _ _ => EndTurn.action_mask
  | GameOver => GameOver.action_mask
  end.

(** [turn.player]. *)
Definition turn_player (turn : State) : M pid :=
  match turn with
  | Start player | Challenge player _ | ChallengeResolve player _ _
  | ForeignAidBlock player _ _ | TargetBlock player _ _
  | BlockChallenge player _ _ _ | BlockChallengeResolve player _ _ _ _
  | ActionResolve player _ _ _ _ | ExchangeResolve player _ _
  | ExchangeTwoResolve player _ _ => ret player
  | EndTurn _ _ _ _ _player => EndTurn.player _player
  | GameOver => GameOver.player
  end.

(** ** env.py: the part of [raw_env] that drives the turn

    [Env] keeps the attributes that [raw_env.step] reads to choose the next
    phase: the store, [turn], [agents], [n_turn] and [terminations].  An
    agent [agent_n] is written as its seat [n].  The rewards, the infos with
    their observation history and the truncations are written by [step] but
    never read back by it, and are left out. *)
Record Env : Type := mkEnv {
  world : World;
  turn : State;
  agents : list pid;
  n_turn : Z;
  terminations : list (pid * bool);
}.

Definition set_world (w : World) (e : Env) : Env :=
  mkEnv w (turn e) (agents e) (n_turn e) (terminations e).

Definition set_turn (s : State) (e : Env) : Env :=
  mkEnv (world e) s (agents e) (n_turn e) (terminations e).

(** [self.acts], built by [__init__] for all the seats. *)
Definition acts (e : Env) : list (Action * Z) :=
  action_space (length (players (world e))).

(** [self.agents.remove(agent)]: drops the first occurrence. *)
Fixpoint list_remove (a : pid) (l : list pid) : option (list pid) :=
  match l with
  | [] => None
  | x :: l' =>
      if decide (x = a) then Some l'
      else option_map (cons x) (list_remove a l')
  end.

(** [del d[k]] and [d[k] = v] on the [terminations] dict. *)
Definition dict_del (k : pid) (d : list (pid * bool)) : list (pid * bool) :=
  filter (fun kv => fst kv <> k) d.

Fixpoint dict_set (k : pid) (v : bool) (d : list (pid * bool))
  : list (pid * bool) :=
  match d with
  | [] => [(k, v)]
  | (k', v') :: d' =>
      if decide (k = k') then (k, v) :: d' else (k', v') :: dict_set k v d'
  end.

Definition reset_flags (pl : Player) : Player :=
  set_block_challenge_passed false
    (set_block_passed false (set_challenge_passed false pl)).

(** The loop [for player in self.players] at the end of a turn: the flags
    are cleared seat by seat, and the loop stops at the first seat that is
    dead and still listed in [agents]. *)
Fixpoint end_turn_scan (seats : list pid) (ags : list pid) (w : World)
  : option pid * World :=
  match seats with
  | [] => (None, w)
  | p :: rest =>
      let w1 := update_player p reset_flags w in
      if negb (Player.alive w1 p) && bool_decide (p ∈ ags)
      then (Some p, w1)
      else end_turn_scan rest ags w1
  end.

(** The block [if type(self.turn) is state.EndTurn:] of [raw_env.step]. *)
Definition end_of_turn (e : Env) : outcome unit * Env :=
  match turn e with
  | EndTurn act chl blk bchl _player =>
      let n := length (players (world e)) in
      let '(dead, w1) := end_turn_scan (seq 0 n) (agents e) (world e) in
      match dead with
      | Some p =>
          (Ok tt,
           mkEnv w1 (EndTurn act chl blk bchl (Some p)) (agents e) (n_turn e)
                 (dict_set p true (terminations e)))
      | None =>
          match agents e with
          | [winner] =>
              if decide (winner < n)%nat then
                (Ok tt,
                 mkEnv w1 (EndTurn act chl blk bchl (Some winner)) (agents e)
                       (n_turn e) (dict_set winner true (terminations e)))
              else (Raise ValueError, set_world w1 e)
          | [] => (Ok tt, set_world w1 e)
          | _ =>
              match Player.next_alive (act_actor act) w1 with
              | (Ok nxt, w2) =>
                  (Ok tt,
                   mkEnv w2 (Start nxt) (agents e) (n_turn e + 1)
                         (terminations e))
              | (Raise x, w2) => (Raise x, set_world w2 e)
              end
          end
      end
  | _ => (Ok tt, e)
  end.

(** [raw_env.step(action)]; [None] is the removal of a terminated agent. *)
Definition env_step (action : option nat) (e : Env) : outcome unit * Env :=
  match action with
  | None =>
      match turn e with
      | EndTurn _ _ _ _ _player =>
          match _player with
          | None => (Raise InvalidState, e)
          | Some agent =>
              match list_remove agent (agents e) with
              | None => (Raise ValueError, e)
              | Some ags =>
                  let e1 :=
                    mkEnv (world e) (turn e) ags (n_turn e) (terminations e)
                  in
                  if existsb (fun kv => bool_decide (fst kv = agent))
                             (terminations e)
                  then
                    end_of_turn
                      (mkEnv (world e) (turn e) ags (n_turn e)
                             (dict_del agent (terminations e)))
                  else (Raise KeyError, e1)
              end
          end
      | _ => (Raise AssertionError, e)
      end
  | Some action =>
      match turn_player (turn e) (world e) with
      | (Raise x, _) => (Raise x, e)
      | (Ok player, _) =>
          match acts e !! action with
          | None => (Raise IndexError, e)
          | Some (action_obj, tgt) =>
              if bool_decide
                   ((action_obj, tgt) ∈ action_mask (world e) (turn e))
              then
                let target :=
                  Nat.iter (Z.to_nat tgt) (Player.next (world e)) player in
                if negb (Player.alive (world e) target)
                then (Raise RuntimeError, e)
                else
                  match step (turn e) action_obj target (world e) with
                  | (Ok s, w1) =>
                      end_of_turn
                        (mkEnv w1 s (agents e) (n_turn e) (terminations e))
                  | (Raise x, w1) => (Raise x, set_world w1 e)
                  end
              else (Raise ValueError, e)
          end
      end
  end.

(** [self.act_to_idx[(act, tgt)]]: the position of the pair in [acts]. *)
Fixpoint index_of (m : Action * Z) (l : list (Action * Z)) : option nat :=
  match l with
  | [] => None
  | x :: l' => if decide (x = m) then Some O else option_map S (index_of m l')
  end.

Definition act_to_idx (e : Env) (m : Action * Z) : option nat :=
  index_of m (acts e).

(** A driver in the manner of the tests: every move is looked up in
    [act_to_idx] and handed to [step]; [None] stands for [step(None)].  The
    run stops at the first call that raises. *)
Fixpoint env_play (moves : list (option (Action * Z))) (e : Env)
  : outcome unit * Env :=
  match moves with
  | [] => (Ok tt, e)
  | move :: rest =>
      let action :=
        match move with
        | None => Some None
        | Some m => option_map Some (act_to_idx e m)
        end in
      match action with
      | None => (Raise KeyError, e)
      | Some a =>
          match env_step a e with
          | (Ok _, e') => env_play rest e'
          | (Raise x, e') => (Raise x, e')
          end
      end
  end.

(** ** Vocabulary of the properties *)

(** One copy of [k], seen from role [k']. *)
Definition unit_at (k k' : CARD) : Z := if decide (k = k') then 1 else 0.

(** Copies of [role] held over all the seats. *)
Definition hands_count (w : World) (role : CARD) : Z :=
  fold_right (fun pl acc => Counter.get (cards pl) role + acc) 0 (players w).

(** The card operations of a player, as calls. *)
Inductive PlayerOp : Type :=
| OpDraw (p : pid)
| OpPutback (p : pid) (card : CARD)
| OpLose (p : pid) (card : CARD).

Definition op_seat (op : PlayerOp) : pid :=
  match op with
  | OpDraw p | OpPutback p _ | OpLose p _ => p
  end.

Definition run_op (op : PlayerOp) : M unit :=
  match op with
  | OpDraw p => Player.draw p
  | OpPutback p card => Player.putback p card
  | OpLose p card => Player.lose p card
  end.

(** Copies of [role] that the call removed from the game: one for a [lose]
    of that role that went through. *)
Definition lost_by (op : PlayerOp) (r : outcome unit) (role : CARD) : Z :=
  match op, r with
  | OpLose _ card, Ok _ => unit_at card role
  | _, _ => 0
  end.

(** A history of calls, each made on the store the previous one left
    (a call that raises leaves the store as it is at the raise); the
    second component accumulates the copies of [role] lost on the way. *)
Fixpoint run_ops (ops : list PlayerOp) (role : CARD) (w : World) (lost : Z)
  : World * Z :=
  match ops with
  | [] => (w, lost)
  | op :: rest =>
      let '(r, w') := run_op op w in
      run_ops rest role w' (lost + lost_by op r role)
  end.

(** The seat [k] places after [p] on the ring. *)
Definition seat_after (w : World) (p : pid) (k : nat) : pid :=
  ((p + k) mod length (players w))%nat.

(** What [enum] yields, with [skip_self], for the seat [j] places after
    [p]. *)
Definition enum_entry (w : World) (skip_dead : bool) (p : pid) (j : nat)
  : list (Z * pid) :=
  if negb skip_dead || Player.alive w (seat_after w p j)
  then [(Z.of_nat j, seat_after w p j)] else [].

(** The living seats among those [from], [from + 1], ... places after [p],
    [count] places in all, in seating order. *)
Definition living_between (w : World) (p : pid) (from count : nat)
  : list pid :=
  flat_map
    (fun j =>
       if Player.alive w (seat_after w p j) then [seat_after w p j] else [])
    (seq from count).

(** A seat in range, other than [p], that is alive. *)
Definition living_other (w : World) (p q : pid) : Prop :=
  (q < length (players w))%nat /\ q <> p /\ Player.alive w q = true.

(** Phases linked by [step], for any move and target. *)
Inductive reaches : State * World -> State * World -> Prop :=
| reaches_refl sw : reaches sw sw
| reaches_step s w action target s' w' sw'' :
    step s action target w = (Ok s', w') ->
    reaches (s', w') sw'' ->
    reaches (s, w) sw''.

(** A round against a block in which every player asked passes: the seats
    asked, in the order they are asked, and the outcome of the last Pass. *)
Fixpoint block_round (fuel : nat) (turn : State) (w : World)
  : list pid * outcome State :=
  match fuel, turn with
  | S fuel', BlockChallenge player _ _ _ =>
      match step turn CHALLENGE_PASS player w with
      | (Ok turn', w') =>
          let '(asked, r) := block_round fuel' turn' w' in
          (player :: asked, r)
      | (Raise x, _) => ([player], Raise x)
      end
  | _, _ => ([], Ok turn)
  end.

(** Number of seats that are alive. *)
Definition alive_count (w : World) : nat :=
  length (filter (fun p => Player.alive w p = true)
                 (seq 0 (length (players w)))).

(** A Counter as the card operations keep it: a dict, with no stored count
    below one; a store whose deck and hands are all such Counters. *)
Definition counter_ok (c : Counter) : Prop :=
  Counter.wf_counter c /\ Counter.positive c.

Definition world_ok (w : World) : Prop :=
  counter_ok (deck w) /\ Forall (fun pl => counter_ok (cards pl)) (players w).

(** The index that [randint] hands to [draw]. *)
Definition draw_index (w : World) : Z :=
  rng w (rng_pos w) mod (Z.of_nat (length (Counter.elements (deck w))) - 1).

(** The conserved quantity of [role]: copies in the deck, in the hands and
    lost so far. *)
Definition role_total (w : World) (lost : Z) (role : CARD) : Z :=
  Counter.get (deck w) role + hands_count w role + lost.

(** Worlds used to run the code on concrete inputs: three seats, the two
    coins of a fresh player unless stated, a generator that returns [0]. *)
Definition fresh (c : Z) (hand : Counter) : Player :=
  mkPlayer c hand false false false.

Definition table3 (d : Counter) (p0 p1 p2 : Player) : World :=
  mkWorld d [p0; p1; p2] (fun _ => 0) 0.

(** Seat 0 holds two Dukes, the deck three Contessas. *)
Definition table_dukes : World :=
  table3 [(CONTESSA, 3)] (fresh 2 [(DUKE, 2)]) (fresh 2 [(CAPTAIN, 1)])
         (fresh 2 [(ASSASSIN, 1)]).

(** A Steal of seat 0 on seat 1, challenged by seat 1, who has one card
    left and five coins; seat 0 does hold the Captain. *)
Definition steal_act : ActInfo := mkActInfo 0%nat STEAL 1%nat.

Definition steal_chl : ChallengeInfo := mkChallengeInfo on_action 1%nat 1%nat.

Definition table_steal : World :=
  table3 [(CONTESSA, 3)] (fresh 2 [(CAPTAIN, 1); (DUKE, 1)])
         (fresh 5 [(DUKE, 1)]) (fresh 2 [(ASSASSIN, 2)]).

(** Seat 2 holds ten coins and seat 1 is out of the game. *)
Definition table_rich : World :=
  table3 [(CONTESSA, 3)] (fresh 2 [(DUKE, 1)]) (fresh 2 [])
         (fresh 10 [(CAPTAIN, 1)]).

(** Foreign Aid of seat 0, blocked by seat 1. *)
Definition aid_act : ActInfo := mkActInfo 0%nat FOREIGN_AID 0%nat.

Definition aid_block : BlockInfo := mkBlockInfo 1%nat BLOCK_FOREIGN_AID.

(** Tax of seat 0, challenged by seat 1. *)
Definition tax_act : ActInfo := mkActInfo 0%nat TAX 0%nat.

(** Two seats with one card each; seat 0 has paid for a Coup on seat 1. *)
Definition coup_act : ActInfo := mkActInfo 0%nat COUP 1%nat.

Definition table_duel : World :=
  mkWorld [(CONTESSA, 3)] [fresh 0 [(DUKE, 1)]; fresh 2 [(AMBASSADOR, 1)]]
          (fun _ => 0) 0.

Definition duel_env : Env :=
  mkEnv table_duel (ActionResolve 1%nat coup_act None None None)
        [0%nat; 1%nat] 1 [(0%nat, false); (1%nat, false)].

(** The game that [raw_env(deck={"Duke": 6}, num_players=2,
    num_players_alive=2)] deals: two Dukes in each hand, two in the deck. *)
Definition dukes_env : Env :=
  mkEnv (mkWorld [(DUKE, 2)] [fresh 2 [(DUKE, 2)]; fresh 2 [(DUKE, 2)]]
                 (fun _ => 0) 0)
        (Start 0%nat) [0%nat; 1%nat] 1 [(0%nat, false); (1%nat, false)].

(** The table of the test scenarios: three seats and the nine cards that
    are left of the default deck once six are dealt. *)
Definition deck9 : Counter :=
  [(AMBASSADOR, 2); (ASSASSIN, 2); (CAPTAIN, 1); (CONTESSA, 2); (DUKE, 2)].

Definition table9 (p0 p1 p2 : Player) : World := table3 deck9 p0 p1 p2.

(** A fresh game of three agents around [w], seat 0 to move. *)
Definition game3 (w : World) : Env :=
  mkEnv w (Start 0%nat) [0%nat; 1%nat; 2%nat] 1
        [(0%nat, false); (1%nat, false); (2%nat, false)].

(** What the tests look at after a run: the class of the turn and its
    player, then coins and number of cards seat by seat. *)
Inductive phase : Type :=
| PStart | PChallenge | PChallengeResolve | PForeignAidBlock | PTargetBlock
| PBlockChallenge | PBlockChallengeResolve | PActionResolve
| PExchangeResolve | PExchangeTwoResolve | PEndTurn | PGameOver.

Definition phase_of (s : State) : phase :=
  match s with
  | Start _ => PStart
  | Challenge _ _ => PChallenge
  | ChallengeResolve _ _ _ => PChallengeResolve
  | ForeignAidBlock _ _ _ => PForeignAidBlock
  | TargetBlock _ _ _ => PTargetBlock
  | BlockChallenge _ _ _ _ => PBlockChallenge
  | BlockChallengeResolve _ _ _ _ _ => PBlockChallengeResolve
  | ActionResolve _ _ _ _ _ => PActionResolve
  | ExchangeResolve _ _ _ => PExchangeResolve
  | ExchangeTwoResolve _ _ _ => PExchangeTwoResolve
  | EndTurn _ _ _ _ _ => PEndTurn
  | GameOver => PGameOver
  end.

Definition seen (r : outcome unit * Env)
  : outcome unit * phase * outcome pid * list (Z * Z) :=
  (fst r, phase_of (turn (snd r)),
   fst (turn_player (turn (snd r)) (world (snd r))),
   map (fun pl => (coins pl, Counter.total (cards pl)))
       (players (world (snd r)))).

(** Case analysis of a run of a step function that returned. *)
Ltac crack_step H :=
  unfold bind, ret, raise, read, modify, assert_card, add_coins in H;
  repeat
    (cbv beta iota in H;
     match type of H with
     | (Raise _, _) = (Ok _, _) => discriminate H
     | context [match ?x with _ => _ end] => destruct x eqn:?
     | context [if ?x then _ else _] => destruct x eqn:?
     end).

(** ** Vocabulary of the further properties *)

(** A computation keeps a relation between the store it starts from and
    the store it leaves, whether it returns or raises. *)
Definition keeps (R : World -> World -> Prop) {A} (m : M A) : Prop :=
  forall w, R w (snd (m w)).

(** Copies of [role] in the deck and in the hands. *)
Definition in_play (w : World) (role : CARD) : Z :=
  Counter.get (deck w) role + hands_count w role.

(** The seats stay, and no role has more copies in play than before. *)
Definition no_new_card (w w' : World) : Prop :=
  length (players w') = length (players w)
  /\ forall role, in_play w' role <= in_play w role.

(** No balance is negative. *)
Definition coins_ok (w : World) : Prop :=
  Forall (fun pl => 0 <= coins pl) (players w).

(** [raw_env.get_action_mask()], the booleans before their conversion to
    int8: a vector of [False] as long as [acts], with [True] written at
    [act_to_idx] of every move of the turn's mask; a move that is no key of
    [act_to_idx] raises KeyError. *)
Definition mark_move (e : Env) (r : outcome (list bool)) (m : Action * Z)
  : outcome (list bool) :=
  match r with
  | Ok v =>
      match act_to_idx e m with
      | Some idx => Ok (<[idx := true]> v)
      | None => Raise KeyError
      end
  | Raise x => Raise x
  end.

Definition get_action_mask (e : Env) : outcome (list bool) :=
  fold_left (mark_move e) (action_mask (world e) (turn e))
            (Ok (replicate (length (acts e)) false)).

(** A computation returns only values that satisfy [P]. *)
Definition yields {A} (P : A -> Prop) (m : M A) : Prop :=
  forall w a w', m w = (Ok a, w') -> P a.

(** [getattr(turn, "act", None)] and the like, as [raw_env.observe] reads
    the fields of a turn. *)
Definition turn_act (s : State) : option ActInfo :=
  match s with
  | Start _ | GameOver => None
  | Challenge _ act | ChallengeResolve _ act _ | ForeignAidBlock _ act _
  | TargetBlock _ act _ | BlockChallenge _ _ act _
  | BlockChallengeResolve _ _ _ act _ | ActionResolve _ act _ _ _
  | ExchangeResolve _ act _ | ExchangeTwoResolve _ act _
  | EndTurn act _ _ _ _ => Some act
  end.

Definition turn_challenge (s : State) : option ChallengeInfo :=
  match s with
  | Start _ | Challenge _ _ | GameOver => None
  | ChallengeResolve _ _ challenge => Some challenge
  | ForeignAidBlock _ _ challenge | TargetBlock _ _ challenge
  | BlockChallenge _ _ _ challenge | BlockChallengeResolve _ _ _ _ challenge
  | ActionResolve _ _ challenge _ _ | ExchangeResolve _ _ challenge
  | ExchangeTwoResolve _ _ challenge | EndTurn _ challenge _ _ _ => challenge
  end.

Definition turn_block (s : State) : option BlockInfo :=
  match s with
  | BlockChallenge _ block _ _ | BlockChallengeResolve _ block _ _ _ =>
      Some block
  | ActionResolve _ _ _ block _ | EndTurn _ _ block _ _ => block
  | _ => None
  end.

Definition turn_block_challenge (s : State) : option ChallengeInfo :=
  match s with
  | BlockChallengeResolve _ _ block_challenge _ _ => Some block_challenge
  | ActionResolve _ _ _ _ block_challenge
  | EndTurn _ _ _ block_challenge _ => block_challenge
  | _ => None
  end.

(** The phases that the [step] of a phase names in its [return]
    statements. *)
Definition successors (ph : phase) : list phase :=
  match ph with
  | PStart => [PEndTurn; PForeignAidBlock; PActionResolve; PChallenge]
  | PChallenge =>
      [PExchangeResolve; PEndTurn; PTargetBlock; PChallenge;
       PChallengeResolve]
  | PChallengeResolve => [PEndTurn; PExchangeResolve; PTargetBlock]
  | PForeignAidBlock => [PEndTurn; PForeignAidBlock; PBlockChallenge]
  | PTargetBlock => [PEndTurn; PActionResolve; PBlockChallenge]
  | PBlockChallenge => [PEndTurn; PBlockChallenge; PBlockChallengeResolve]
  | PBlockChallengeResolve => [PEndTurn; PActionResolve]
  | PActionResolve => [PEndTurn]
  | PExchangeResolve => [PExchangeTwoResolve]
  | PExchangeTwoResolve => [PEndTurn]
  | PEndTurn => []
  | PGameOver => [PGameOver]
  end.

(** What a step hands on to the phase it returns: the successor is one
    named by the class; the act is the one chosen at Start and then fixed;
    a block and a challenge to a block stay once recorded; the challenge
    to the action stays too, except that ChallengeResolve drops it when
    the action goes on to ExchangeResolve or TargetBlock. *)
Definition handed_on (s : State) (action : Action) (target : pid)
           (s' : State) : Prop :=
  In (phase_of s') (successors (phase_of s))
  /\ match s with
     | Start player => turn_act s' = Some (mkActInfo player action target)
     | GameOver => s' = GameOver
     | _ => turn_act s' = turn_act s
     end
  /\ (forall b, turn_block s = Some b -> turn_block s' = Some b)
  /\ (forall c, turn_block_challenge s = Some c ->
                turn_block_challenge s' = Some c)
  /\ (forall c, turn_challenge s = Some c ->
                (phase_of s = PChallengeResolve /\ phase_of s' <> PEndTurn
                 /\ turn_challenge s' = None)
                \/ ((phase_of s <> PChallengeResolve
                     \/ phase_of s' = PEndTurn)
                    /\ turn_challenge s' = Some c)).

(** For each phase and each successor named for it, a turn, a move and a
    target that take [table_steal] from the one to the other. *)
Definition edge_run (ph ph' : phase) : State * Action * pid :=
  let exchange := mkActInfo 0%nat EXCHANGE 0%nat in
  let kill := mkActInfo 0%nat ASSASSINATE 2%nat in
  let seat1 := mkChallengeInfo on_action 1%nat 1%nat in
  let seat2 := mkChallengeInfo on_action 2%nat 2%nat in
  let aid1 := mkBlockInfo 1%nat BLOCK_FOREIGN_AID in
  let aid2 := mkBlockInfo 2%nat BLOCK_FOREIGN_AID in
  let contessa := mkBlockInfo 2%nat BLOCK_ASSASSINATE in
  match ph, ph' with
  | PStart, PForeignAidBlock => (Start 0%nat, FOREIGN_AID, 0%nat)
  | PStart, PActionResolve => (Start 0%nat, COUP, 1%nat)
  | PStart, PChallenge => (Start 0%nat, TAX, 0%nat)
  | PStart, _ => (Start 0%nat, INCOME, 0%nat)
  | PChallenge, PExchangeResolve =>
      (Challenge 2%nat exchange, CHALLENGE_PASS, 2%nat)
  | PChallenge, PEndTurn => (Challenge 2%nat tax_act, CHALLENGE_PASS, 2%nat)
  | PChallenge, PTargetBlock =>
      (Challenge 2%nat steal_act, CHALLENGE_PASS, 2%nat)
  | PChallenge, PChallenge => (Challenge 1%nat tax_act, CHALLENGE_PASS, 1%nat)
  | PChallenge, _ => (Challenge 1%nat tax_act, CHALLENGE_CALL, 1%nat)
  | PChallengeResolve, PExchangeResolve =>
      (ChallengeResolve 1%nat exchange seat1, LOSE_DUKE, 1%nat)
  | PChallengeResolve, PTargetBlock =>
      (ChallengeResolve 2%nat steal_act seat2, LOSE_ASSASSIN, 2%nat)
  | PChallengeResolve, _ =>
      (ChallengeResolve 0%nat tax_act
         (mkChallengeInfo on_action 1%nat 0%nat),
       LOSE_DUKE, 0%nat)
  | PForeignAidBlock, PForeignAidBlock =>
      (ForeignAidBlock 1%nat aid_act None, BLOCK_PASS, 1%nat)
  | PForeignAidBlock, PBlockChallenge =>
      (ForeignAidBlock 1%nat aid_act None, BLOCK_FOREIGN_AID, 1%nat)
  | PForeignAidBlock, _ =>
      (ForeignAidBlock 2%nat aid_act None, BLOCK_PASS, 2%nat)
  | PTargetBlock, PActionResolve =>
      (TargetBlock 2%nat kill None, BLOCK_PASS, 2%nat)
  | PTargetBlock, PBlockChallenge =>
      (TargetBlock 1%nat steal_act None, BLOCK_STEAL_CAP, 1%nat)
  | PTargetBlock, _ => (TargetBlock 1%nat steal_act None, BLOCK_PASS, 1%nat)
  | PBlockChallenge, PBlockChallenge =>
      (BlockChallenge 1%nat aid1 aid_act None, CHALLENGE_PASS, 1%nat)
  | PBlockChallenge, PBlockChallengeResolve =>
      (BlockChallenge 2%nat aid1 aid_act None, CHALLENGE_CALL, 2%nat)
  | PBlockChallenge, _ =>
      (BlockChallenge 2%nat aid2 aid_act None, CHALLENGE_PASS, 2%nat)
  | PBlockChallengeResolve, PActionResolve =>
      (BlockChallengeResolve 2%nat contessa
         (mkChallengeInfo on_block 0%nat 2%nat) kill None,
       LOSE_ASSASSIN, 2%nat)
  | PBlockChallengeResolve, _ =>
      (BlockChallengeResolve 0%nat aid1
         (mkChallengeInfo on_block 0%nat 0%nat) aid_act None,
       LOSE_DUKE, 0%nat)
  | PActionResolve, _ =>
      (ActionResolve 1%nat coup_act None None None, LOSE_DUKE, 1%nat)
  | PExchangeResolve, _ =>
      (ExchangeResolve 0%nat exchange None, LOSE_DUKE, 0%nat)
  | PExchangeTwoResolve, _ =>
      (ExchangeTwoResolve 0%nat exchange None, LOSE_DUKE, 0%nat)
  | PEndTurn, _ => (EndTurn tax_act None None None None, INCOME, 0%nat)
  | PGameOver, _ => (GameOver, INCOME, 0%nat)
  end.

(** A round of Challenge or of ForeignAidBlock in which every player asked
    passes: the seats asked, in the order they are asked, then the outcome
    of the last Pass and the store it leaves. *)
Fixpoint pass_round (fuel : nat) (turn : State) (w : World)
  : list pid * (outcome State * World) :=
  match fuel with
  | O => ([], (Ok turn, w))
  | S fuel' =>
      let ask player pass :=
        match step turn pass player w with
        | (Ok turn', w') =>
            let '(asked, r) := pass_round fuel' turn' w' in
            (player :: asked, r)
        | (Raise x, w') => ([player], (Raise x, w'))
        end in
      match turn with
      | Challenge player _ => ask player CHALLENGE_PASS
      | ForeignAidBlock player _ _ => ask player BLOCK_PASS
      | _ => ([], (Ok turn, w))
      end
  end.

(** An action chosen at Start and met with passes only. *)
Definition uncontested (w : World) (player : pid) (action : Action)
           (target : pid) : list pid * (outcome State * World) :=
  match Start.step player action target w with
  | (Ok turn, w1) => pass_round (length (players w1)) turn w1
  | (Raise x, w1) => ([], (Raise x, w1))
  end.

(** The store once [flag] is applied to the seats of a list, in order. *)
Definition raise_flags (flag : Player -> Player) (seats : list pid)
           (w : World) : World :=
  fold_left (fun w q => update_player q flag w) seats w.

(** The three pass flags of a seat are down. *)
Definition flags_clear (w : World) (q : pid) : Prop :=
  block_passed (player_at w q) = false
  /\ challenge_passed (player_at w q) = false
  /\ block_challenge_passed (player_at w q) = false.

(** ** Observations (state.py and env.py) *)

(** [observe_act(act, player)], the booleans before their conversion to
    int8. *)
Definition observe_act (w : World) (act : option ActInfo) (player : pid)
  : list bool :=
  let seats := map snd (Player.enum w false false player) in
  match act with
  | Some act =>
      map (fun action => bool_decide (act_action act = action)) START_ACTION
      ++ map (fun nxt => bool_decide (act_actor act = nxt)) seats
      ++ map (fun nxt => bool_decide (act_target act = nxt)) seats
  | None =>
      map (fun _ => false) START_ACTION
      ++ map (fun _ => false) seats ++ map (fun _ => false) seats
  end.

(** [observe_block(blk, player)]. *)
Definition observe_block (w : World) (blk : option BlockInfo) (player : pid)
  : list bool :=
  let seats := map snd (Player.enum w false false player) in
  match blk with
  | Some blk =>
      map (fun action => bool_decide (blk_action blk = action)) BLOCK_ACTION
      ++ map (fun nxt => block_passed (player_at w nxt)) seats
      ++ map (fun nxt => bool_decide (blk_blocker blk = nxt)) seats
  | None =>
      replicate (length BLOCK_ACTION) false
      ++ map (fun _ => false) seats ++ map (fun _ => false) seats
  end.

(** A record of [observation_space]: its type, [max], [size] and scope;
    the two descriptions are left out. *)
Inductive ObsType : Type :=
| Counts
| OneHot
| Indicator.

Inductive ObsScope : Type :=
| Public
| Private.

Record ObsPart : Type := mkObsPart {
  obs_type : ObsType;
  obs_max : Z;
  obs_size : nat;
  obs_scope : ObsScope;
}.

(** [observation_space(num_players, max_card_count)]. *)
Definition observation_space (num_players : nat) (max_card_count : Z)
  : list ObsPart :=
  [ mkObsPart Counts 12 num_players Public;
    mkObsPart Counts max_card_count (length CARDS) Private;
    mkObsPart Counts max_card_count (length CARDS) Private;
    mkObsPart Counts 4 num_players Public;
    mkObsPart OneHot 1 (length START_ACTION) Public;
    mkObsPart OneHot 1 num_players Public;
    mkObsPart OneHot 1 num_players Public;
    mkObsPart Indicator 1 num_players Public;
    mkObsPart OneHot 1 num_players Public;
    mkObsPart OneHot 1 num_players Public;
    mkObsPart OneHot 1 (length BLOCK_ACTION) Public;
    mkObsPart Indicator 1 num_players Public;
    mkObsPart OneHot 1 num_players Public;
    mkObsPart Indicator 1 num_players Public;
    mkObsPart OneHot 1 num_players Public;
    mkObsPart OneHot 1 num_players Public ].

(** The [shape] that [raw_env.__init__] adds up for the Box. *)
Definition obs_shape (parts : list ObsPart) : nat :=
  fold_left (fun shape record => (shape + obs_size record)%nat) parts 0%nat.

(** [unseen] in [raw_env.observe]: a copy of the deck to which the cards of
    every other seat are added one by one. *)
Definition unseen (w : World) (player : pid) : Counter :=
  fold_left
    (fun u nxt =>
       fold_left Counter.incr (Counter.elements (cards (player_at w nxt))) u)
    (map snd (Player.enum w false true player))
    (deck w).

(** A Python bool among ints. *)
Definition int_of_bool (b : bool) : Z := if b then 1 else 0.

(** [raw_env.observe(agent)]: the list [obs] handed to [np.array], with
    True as 1.  [find_player] raises ValueError for an agent that has no
    seat. *)
Definition observe (e : Env) (agent : pid) : outcome (list Z) :=
  let w := world e in
  if decide (agent < length (players w))%nat then
    let player := agent in
    let seats := map snd (Player.enum w false false player) in
    Ok (map (fun nxt => coins (player_at w nxt)) seats
        ++ map (fun card => Counter.get (unseen w player) card) CARDS
        ++ map (fun card => Counter.get (cards (player_at w player)) card)
               CARDS
        ++ map (fun nxt => Counter.total (cards (player_at w nxt))) seats
        ++ map int_of_bool (observe_act w (turn_act (turn e)) player)
        ++ map int_of_bool
             (observe_challenge w (turn_challenge (turn e)) player)
        ++ map int_of_bool (observe_block w (turn_block (turn e)) player)
        ++ map int_of_bool
             (observe_challenge w (turn_block_challenge (turn e)) player))
  else Raise ValueError.

(** ** Running a computation from a given store *)

(** [wp m Post Exc w]: run from [w], [m] returns a value and a store that
    satisfy [Post], or raises an exception that satisfies [Exc]. *)
Definition wp {A} (m : M A) (Post : A -> World -> Prop) (Exc : exn -> Prop)
           (w : World) : Prop :=
  match m w with
  | (Ok a, w') => Post a w'
  | (Raise x, _) => Exc x
  end.





(** The store has [n] seats and [v] copies of [role] in play. *)
Definition cards_at (n : nat) (role : CARD) (v : Z) (w : World) : Prop :=
  length (players w) = n /\ in_play w role = v.

(** Copies of [role] that a step of [s] on the move [a] takes out of the
    game when it returns: the card named by the move, in the three phases
    that call [lose]. *)
Definition lost_in (s : State) (a : Action) (role : CARD) : Z :=
  match s with
  | ChallengeResolve _ _ _ | BlockChallengeResolve _ _ _ _ _
  | ActionResolve _ _ _ _ _ =>
      match action_card a with
      | Some c => unit_at c role
      | None => 0
      end
  | _ => 0
  end.

(** * Properties *)

(** ** Counter algebra *)

Section CounterFacts.

Import Counter.

Implicit Types (c : Counter) (k : CARD) (v : Z).

Lemma get_set_eq c k v : get (set c k v) k = v.
Proof.
  induction c as [|[k' v'] c IH]; simpl.
  - destruct (decide (k = k)); congruence.
  - destruct (decide (k = k')) as [->|Hne]; simpl.
    + destruct (decide (k' = k')); congruence.
    + destruct (decide (k = k')); congruence.
Qed.

Lemma get_set_ne c k k' v : k <> k' -> get (set c k v) k' = get c k'.
Proof.
  intros Hne. induction c as [|[k0 v0] c IH]; simpl.
  - destruct (decide (k' = k)); congruence.
  - destruct (decide (k = k0)) as [->|Hne0]; simpl.
    + destruct (decide (k' = k0)); congruence.
    + destruct (decide (k' = k0)); congruence.
Qed.

Lemma get_del_eq c k : get (del c k) k = 0.
Proof.
  induction c as [|[k' v'] c IH]; simpl; [reflexivity|].
  destruct (decide (k = k')) as [->|Hne]; simpl; [exact IH|].
  destruct (decide (k = k')); congruence.
Qed.

Lemma get_del_ne c k k' : k <> k' -> get (del c k) k' = get c k'.
Proof.
  intros Hne. induction c as [|[k0 v0] c IH]; simpl; [reflexivity|].
  destruct (decide (k = k0)) as [->|Hne0]; simpl.
  - destruct (decide (k' = k0)); congruence.
  - destruct (decide (k' = k0)); congruence.
Qed.

Lemma get_incr c k k' : get (incr c k) k' = get c k' + unit_at k k'.
Proof.
  unfold incr, unit_at. destruct (decide (k = k')) as [->|Hne].
  - apply get_set_eq.
  - rewrite get_set_ne by assumption. lia.
Qed.

Lemma get_decr_del c k k' : get (decr_del c k) k' = get c k' - unit_at k k'.
Proof.
  unfold decr_del, unit_at.
  destruct (decide (get (set c k (get c k - 1)) k = 0)) as [Hz|Hnz];
    destruct (decide (k = k')) as [<-|Hne].
  - rewrite get_del_eq. rewrite get_set_eq in Hz. lia.
  - rewrite get_del_ne, get_set_ne by assumption. lia.
  - apply get_set_eq.
  - rewrite get_set_ne by assumption. lia.
Qed.

Lemma contains_keys c k : contains c k = true <-> k ∈ map fst c.
Proof.
  induction c as [|[k' v'] c IH]; simpl.
  - rewrite elem_of_nil. split; [discriminate | tauto].
  - rewrite elem_of_cons. destruct (decide (k = k')) as [->|Hne].
    + split; auto.
    + rewrite IH. split; [auto | intros [Heq|Hin]; congruence].
Qed.

Lemma contains_false_get c k : contains c k = false -> get c k = 0.
Proof.
  induction c as [|[k' v'] c IH]; simpl; [reflexivity|].
  destruct (decide (k = k')); [discriminate | exact IH].
Qed.

Lemma positive_contains_get c k :
  positive c -> (contains c k = true <-> 1 <= get c k).
Proof.
  unfold positive. induction 1 as [|[k' v'] c Hv Hc IH]; simpl.
  - split; [discriminate | lia].
  - destruct (decide (k = k')); [|exact IH].
    simpl in Hv. split; auto.
Qed.

Lemma total_set c k v : total (set c k v) = total c - get c k + v.
Proof.
  unfold total. induction c as [|[k' v'] c IH]; simpl; [lia|].
  destruct (decide (k = k')); simpl; lia.
Qed.

Lemma contains_set c k k' v :
  contains (set c k v) k' = contains c k' || bool_decide (k = k').
Proof.
  induction c as [|[k0 v0] c IH]; simpl.
  - case_bool_decide; destruct (decide (k' = k)); congruence.
  - destruct (decide (k = k0)) as [->|Hne]; simpl.
    + case_bool_decide; destruct (decide (k' = k0)); simpl;
        rewrite ?orb_false_r; congruence.
    + destruct (decide (k' = k0)); [reflexivity | exact IH].
Qed.

Lemma contains_del c k k' :
  contains (del c k) k' = contains c k' && negb (bool_decide (k = k')).
Proof.
  induction c as [|[k0 v0] c IH]; simpl; [reflexivity|].
  destruct (decide (k = k0)) as [->|Hne]; simpl.
  - rewrite IH. case_bool_decide; destruct (decide (k' = k0)); simpl;
      rewrite ?andb_false_r; congruence.
  - rewrite IH. case_bool_decide; destruct (decide (k' = k0)); simpl;
      rewrite ?andb_true_r; congruence.
Qed.

Lemma wf_cons k v c :
  wf_counter ((k, v) :: c) <-> contains c k = false /\ wf_counter c.
Proof.
  unfold wf_counter. simpl. split.
  - intros [Hn Hc]%list.NoDup_cons. split; [|exact Hc].
    destruct (contains c k) eqn:E; [|reflexivity].
    apply contains_keys in E. contradiction.
  - intros [Hk Hc]. apply list.NoDup_cons. split; [|exact Hc].
    intros Hin%contains_keys. congruence.
Qed.

Lemma wf_set c k v : wf_counter c -> wf_counter (set c k v).
Proof.
  induction c as [|[k0 v0] c IH]; simpl; intros Hwf.
  - apply wf_cons. split; [reflexivity | exact Hwf].
  - apply wf_cons in Hwf as [Hk Hc].
    destruct (decide (k = k0)) as [->|Hne]; apply wf_cons.
    + split; assumption.
    + split; [|auto]. rewrite contains_set, Hk.
      apply bool_decide_eq_false_2. exact Hne.
Qed.

Lemma wf_del c k : wf_counter c -> wf_counter (del c k).
Proof.
  induction c as [|[k0 v0] c IH]; simpl; intros Hwf; [exact Hwf|].
  apply wf_cons in Hwf as [Hk Hc].
  destruct (decide (k = k0)); [auto|].
  apply wf_cons. split; [|auto]. rewrite contains_del, Hk. reflexivity.
Qed.

Lemma wf_incr c k : wf_counter c -> wf_counter (incr c k).
Proof. apply wf_set. Qed.

Lemma wf_decr_del c k : wf_counter c -> wf_counter (decr_del c k).
Proof.
  intros Hwf. unfold decr_del.
  destruct (decide _); [apply wf_del|]; apply wf_set, Hwf.
Qed.

Lemma total_del c k : wf_counter c -> total (del c k) = total c - get c k.
Proof.
  unfold total.
  induction c as [|[k0 v0] c IH]; simpl; intros Hwf; [reflexivity|].
  apply wf_cons in Hwf as [Hk Hc].
  destruct (decide (k = k0)) as [->|Hne]; simpl.
  - rewrite IH by assumption. rewrite (contains_false_get _ _ Hk). lia.
  - rewrite IH by assumption. lia.
Qed.

Lemma total_incr c k : total (incr c k) = total c + 1.
Proof. unfold incr. rewrite total_set. lia. Qed.

Lemma total_decr_del c k :
  wf_counter c -> total (decr_del c k) = total c - 1.
Proof.
  intros Hwf. unfold decr_del.
  destruct (decide _) as [Hz|Hnz].
  - rewrite total_del by (apply wf_set, Hwf).
    rewrite Hz, total_set. lia.
  - rewrite total_set. lia.
Qed.

Lemma positive_set c k v : positive c -> 1 <= v -> positive (set c k v).
Proof.
  unfold positive. intros Hc Hv.
  induction Hc as [|[k0 v0] c H0 Hc IH]; simpl.
  - constructor; [exact Hv | constructor].
  - destruct (decide (k = k0)); constructor; assumption.
Qed.

Lemma positive_incr c k : positive c -> positive (incr c k).
Proof.
  intros Hc. apply positive_set; [exact Hc|].
  destruct (contains c k) eqn:E.
  - apply (positive_contains_get _ k Hc) in E. lia.
  - rewrite (contains_false_get _ _ E). lia.
Qed.

Lemma positive_del_set c k v :
  positive c -> positive (del (set c k v) k).
Proof.
  unfold positive. intros Hc.
  induction Hc as [|[k0 v0] c H0 Hc IH]; simpl.
  - destruct (decide (k = k)); [constructor | congruence].
  - destruct (decide (k = k0)) as [->|Hne]; simpl.
    + destruct (decide (k0 = k0)); [|congruence].
      clear -Hc. induction Hc as [|[k1 v1] c H1 Hc IH]; simpl.
      * constructor.
      * destruct (decide (k0 = k1)); [assumption | constructor; assumption].
    + destruct (decide (k = k0)); [congruence|]. constructor; assumption.
Qed.

Lemma positive_decr_del c k :
  positive c -> contains c k = true -> positive (decr_del c k).
Proof.
  intros Hc Hk. unfold decr_del.
  destruct (decide _) as [Hz|Hnz].
  - apply positive_del_set, Hc.
  - rewrite get_set_eq in Hnz. apply positive_set; [exact Hc|].
    apply (positive_contains_get _ k Hc) in Hk. lia.
Qed.

End CounterFacts.

(** ** The store *)

Section StoreFacts.

Implicit Types (w : World) (p q : pid) (f : Player -> Player).

Lemma player_at_update_eq w p f :
  (p < length (players w))%nat ->
  player_at (update_player p f w) p = f (player_at w p).
Proof.
  intros Hp. unfold player_at at 1, update_player. simpl.
  rewrite list_lookup_insert_eq by exact Hp. reflexivity.
Qed.

Lemma player_at_update_ne w p q f :
  p <> q -> player_at (update_player p f w) q = player_at w q.
Proof.
  intros Hne. unfold player_at, update_player. simpl.
  rewrite list_lookup_insert_ne by exact Hne. reflexivity.
Qed.

Lemma player_at_update_out w p f :
  (length (players w) <= p)%nat -> update_player p f w = w.
Proof.
  intros Hp. unfold update_player.
  rewrite list_insert_ge by exact Hp. destruct w; reflexivity.
Qed.

Lemma length_players_update w p f :
  length (players (update_player p f w)) = length (players w).
Proof. unfold update_player. simpl. apply length_insert. Qed.

Lemma player_at_set_deck w d p : player_at (set_deck d w) p = player_at w p.
Proof. reflexivity. Qed.

Lemma hands_count_insert (l : list Player) p pl role :
  (p < length l)%nat ->
  fold_right (fun x acc => Counter.get (cards x) role + acc) 0 (<[p := pl]> l)
  = fold_right (fun x acc => Counter.get (cards x) role + acc) 0 l
    - Counter.get (cards (default no_player (l !! p))) role
    + Counter.get (cards pl) role.
Proof.
  revert p. induction l as [|x l IH]; intros p Hp; simpl in *; [lia|].
  destruct p as [|p]; simpl.
  - lia.
  - rewrite IH by lia. lia.
Qed.

Lemma hands_count_update w p f role :
  (p < length (players w))%nat ->
  hands_count (update_player p f w) role
  = hands_count w role
    - Counter.get (cards (player_at w p)) role
    + Counter.get (cards (f (player_at w p))) role.
Proof.
  intros Hp. unfold hands_count, update_player. simpl.
  rewrite hands_count_insert by exact Hp. reflexivity.
Qed.

End StoreFacts.

(** ** card.py and player.py: what a call returns *)

Section CardOps.

Implicit Types (w : World) (p : pid) (card : CARD).

Lemma draw_index_range w :
  (2 <= length (Counter.elements (deck w)))%nat ->
  0 <= draw_index w < Z.of_nat (length (Counter.elements (deck w))) - 1.
Proof. intros H. unfold draw_index. apply Z.mod_pos_bound. lia. Qed.

Lemma draw_raise w :
  (length (Counter.elements (deck w)) <= 1)%nat ->
  draw w = (Raise ValueError, w).
Proof.
  intros H. unfold draw, bind, read, randint.
  destruct (decide _) as [_|Hn]; [reflexivity | lia].
Qed.

Lemma draw_ok w :
  (2 <= length (Counter.elements (deck w)))%nat ->
  exists card,
    Counter.elements (deck w) !! Z.to_nat (draw_index w) = Some card
    /\ draw w
       = (Ok card,
          mkWorld (Counter.decr_del (deck w) card) (players w) (rng w)
                  (S (rng_pos w))).
Proof.
  intros H. pose proof (draw_index_range w H) as Hr.
  destruct (Counter.elements (deck w) !! Z.to_nat (draw_index w))
    as [card|] eqn:E.
  - exists card. split; [reflexivity|].
    unfold draw, bind, read, randint.
    destruct (decide _) as [Hn|_]; [lia|].
    rewrite Z.add_0_l, Z.sub_0_r. fold (draw_index w).
    unfold list_item. rewrite E. reflexivity.
  - apply lookup_ge_None in E. lia.
Qed.

Lemma player_draw_raise w p :
  (length (Counter.elements (deck w)) <= 1)%nat ->
  Player.draw p w = (Raise ValueError, w).
Proof.
  intros H. unfold Player.draw, bind. rewrite draw_raise by exact H.
  reflexivity.
Qed.

Lemma player_draw_ok w p :
  (2 <= length (Counter.elements (deck w)))%nat ->
  exists card,
    Counter.elements (deck w) !! Z.to_nat (draw_index w) = Some card
    /\ Player.draw p w
       = (Ok tt,
          update_player p
            (fun pl => set_cards (Counter.incr (cards pl) card) pl)
            (mkWorld (Counter.decr_del (deck w) card) (players w) (rng w)
                     (S (rng_pos w)))).
Proof.
  intros H. destruct (draw_ok w H) as (card & Hc & Hd).
  exists card. split; [exact Hc|].
  unfold Player.draw, bind. rewrite Hd. reflexivity.
Qed.

Lemma putback_raise w p card :
  Counter.contains (cards (player_at w p)) card = false ->
  Player.putback p card w = (Raise AssertionError, w).
Proof.
  intros H. unfold Player.putback, bind, read. rewrite H. reflexivity.
Qed.

Lemma putback_ok w p card :
  Counter.contains (cards (player_at w p)) card = true ->
  Player.putback p card w
  = (Ok tt,
     set_deck (Counter.incr (deck w) card)
       (update_player p
          (fun pl => set_cards (Counter.decr_del (cards pl) card) pl) w)).
Proof.
  intros H. unfold Player.putback, bind, read. rewrite H. reflexivity.
Qed.

Lemma lose_raise w p card :
  Counter.contains (cards (player_at w p)) card = false ->
  Player.lose p card w = (Raise AssertionError, w).
Proof.
  intros H. unfold Player.lose, bind, read. rewrite H. reflexivity.
Qed.

Lemma lose_ok w p card :
  Counter.contains (cards (player_at w p)) card = true ->
  Player.lose p card w
  = (Ok tt,
     update_player p
       (fun pl => set_cards (Counter.decr_del (cards pl) card) pl) w).
Proof.
  intros H. unfold Player.lose, bind, read. rewrite H. reflexivity.
Qed.

End CardOps.

(** ** Player.putback and Player.lose (C10) *)

Section PutbackLose.

Variables (w : World) (p : pid) (card : CARD).
Hypothesis Hseat : (p < length (players w))%nat.

Lemma removed_hand role :
  Counter.get
    (cards
       (player_at
          (update_player p
             (fun pl => set_cards (Counter.decr_del (cards pl) card) pl) w)
          p))
    role
  = Counter.get (cards (player_at w p)) role - unit_at card role.
Proof.
  rewrite player_at_update_eq by exact Hseat.
  simpl. apply get_decr_del.
Qed.

Lemma removed_others q :
  q <> p ->
  player_at
    (update_player p
       (fun pl => set_cards (Counter.decr_del (cards pl) card) pl) w)
    q
  = player_at w q.
Proof. intros Hq. apply player_at_update_ne. congruence. Qed.

End PutbackLose.

(** C10: putback(card) and lose(card) need a held copy of the card.  Without
    one, each raises at its assertion and the store (hand and deck) is left
    as it was; with one, each takes exactly one copy of the card out of the
    hand, and putback adds exactly one copy of it to the deck while lose
    leaves the deck alone. *)
Theorem putback_lose_need_held_card (w : World) (p : pid) (card : CARD) :
  (p < length (players w))%nat ->
  Counter.positive (cards (player_at w p)) ->
  let hand := cards (player_at w p) in
  (Counter.get hand card < 1 ->
     Player.putback p card w = (Raise AssertionError, w)
     /\ Player.lose p card w = (Raise AssertionError, w))
  /\ (1 <= Counter.get hand card ->
      (exists w',
          Player.putback p card w = (Ok tt, w')
          /\ (forall role,
                 Counter.get (cards (player_at w' p)) role
                 = Counter.get hand role - unit_at card role)
          /\ (forall role,
                 Counter.get (deck w') role
                 = Counter.get (deck w) role + unit_at card role)
          /\ (forall q, q <> p -> player_at w' q = player_at w q))
      /\ (exists w',
             Player.lose p card w = (Ok tt, w')
             /\ (forall role,
                    Counter.get (cards (player_at w' p)) role
                    = Counter.get hand role - unit_at card role)
             /\ deck w' = deck w
             /\ (forall q, q <> p -> player_at w' q = player_at w q))).
Proof.
  intros Hseat Hpos hand. subst hand. split.
  - intros Hnone.
    assert (Counter.contains (cards (player_at w p)) card = false) as Hc.
    { destruct (Counter.contains (cards (player_at w p)) card) eqn:E;
        [|reflexivity].
      apply (positive_contains_get _ card Hpos) in E. lia. }
    split; [apply putback_raise | apply lose_raise]; exact Hc.
  - intros Hheld.
    assert (Counter.contains (cards (player_at w p)) card = true) as Hc
        by (apply (positive_contains_get _ card Hpos); exact Hheld).
    split.
    + eexists. split; [apply putback_ok; exact Hc|].
      split; [|split].
      * intros role. rewrite player_at_set_deck.
        apply removed_hand. exact Hseat.
      * intros role. simpl. apply get_incr.
      * intros q Hq. rewrite player_at_set_deck. apply removed_others, Hq.
    + eexists. split; [apply lose_ok; exact Hc|].
      split; [|split].
      * intros role. apply removed_hand. exact Hseat.
      * reflexivity.
      * intros q Hq. apply removed_others, Hq.
Qed.

Lemma putback_lose_need_held_card_witness :
  (0 < length (players table_dukes))%nat
  /\ Counter.positive (cards (player_at table_dukes 0%nat))
  /\ Player.lose 0%nat AMBASSADOR table_dukes
     = (Raise AssertionError, table_dukes)
  /\ exists w', Player.putback 0%nat DUKE table_dukes = (Ok tt, w').
Proof.
  assert (0 < length (players table_dukes))%nat as Hseat by (simpl; lia).
  assert (Counter.positive (cards (player_at table_dukes 0%nat))) as Hpos
      by (repeat constructor; simpl; lia).
  split; [exact Hseat | split; [exact Hpos|]].
  split.
  - destruct (putback_lose_need_held_card table_dukes 0%nat AMBASSADOR
                                          Hseat Hpos)
      as [Hraise _].
    apply Hraise. simpl. lia.
  - destruct (putback_lose_need_held_card table_dukes 0%nat DUKE Hseat Hpos)
      as [_ Hok].
    destruct Hok as [(w' & Hrun & _) _]; [simpl; lia|].
    exists w'. exact Hrun.
Defined.

(** ** draw (C4) *)

Lemma elements_single card : Counter.elements [(card, 1)] = [card].
Proof. reflexivity. Qed.

(** C4, as the code has it: [randint]'s upper bound is excluded, so [draw]
    picks among all the cards of the deck but the last one of
    [deck.elements()].  A deck of exactly one card makes every draw raise
    ValueError with deck and hand untouched, and from a deck holding one
    Ambassador and one Duke the Duke is never drawn, whatever the
    generator returns. *)
Theorem draw_excludes_last_card (ps : list Player) (g : nat -> Z) (n : nat)
        (p : pid) :
  (forall card,
      Player.draw p (mkWorld [(card, 1)] ps g n)
      = (Raise ValueError, mkWorld [(card, 1)] ps g n))
  /\ fst (draw (mkWorld [(AMBASSADOR, 1); (DUKE, 1)] ps g n)) = Ok AMBASSADOR.
Proof.
  split.
  - intros card. apply player_draw_raise. simpl. lia.
  - unfold draw, bind, read, randint. simpl.
    rewrite Z.mod_1_r. reflexivity.
Qed.

(** [draw] returns a card exactly when the deck spreads to two cards or
    more, and the card it returns sits before the last position. *)
Lemma draw_succeeds_iff w :
  (exists card w', draw w = (Ok card, w'))
  <-> (2 <= length (Counter.elements (deck w)))%nat.
Proof.
  split.
  - intros (card & w' & Hd).
    destruct (Nat.le_gt_cases 2 (length (Counter.elements (deck w))))
      as [H|H]; [exact H|].
    rewrite draw_raise in Hd by lia. discriminate.
  - intros H. destruct (draw_ok w H) as (card & _ & Hd). eauto.
Qed.

Lemma draw_never_last w card w' :
  draw w = (Ok card, w') ->
  exists i,
    (S i < length (Counter.elements (deck w)))%nat
    /\ Counter.elements (deck w) !! i = Some card.
Proof.
  intros Hd.
  assert (2 <= length (Counter.elements (deck w)))%nat as H
      by (apply draw_succeeds_iff; eauto).
  destruct (draw_ok w H) as (card' & Hc & Hd').
  rewrite Hd' in Hd. injection Hd as -> _.
  exists (Z.to_nat (draw_index w)). split; [|exact Hc].
  pose proof (draw_index_range w H). lia.
Qed.

(** In a game of two players on a deck of six cards, two cards are left in
    the deck; an Exchange that nobody challenges draws one of them and then
    raises on the deck of one card. *)
Example exchange_on_two_card_deck_raises :
  seen (env_play [Some (EXCHANGE, 0); Some (CHALLENGE_PASS, 0)] dukes_env)
  = (Raise ValueError, PChallenge, Ok 1%nat, [(2, 3); (2, 2)]).
Proof. reflexivity. Qed.

(** ** Conservation of the cards (C5) *)

Section Conservation.

Implicit Types (w : World) (p : pid) (card role : CARD).

(** The store after [Player.draw] when [card] comes out of the deck. *)
Lemma drawn_hand w d g n p card role :
  (p < length (players w))%nat ->
  Counter.get
    (cards
       (player_at
          (update_player p
             (fun pl => set_cards (Counter.incr (cards pl) card) pl)
             (mkWorld d (players w) g n))
          p))
    role
  = Counter.get (cards (player_at w p)) role + unit_at card role.
Proof.
  intros Hp. rewrite player_at_update_eq by exact Hp.
  simpl. apply get_incr.
Qed.

Lemma run_op_length op w :
  length (players (snd (run_op op w))) = length (players w).
Proof.
  destruct op as [p|p card|p card]; simpl.
  - destruct (Nat.le_gt_cases 2 (length (Counter.elements (deck w))))
      as [H|H].
    + destruct (player_draw_ok w p H) as (card & _ & ->). simpl.
      apply length_insert.
    + rewrite player_draw_raise by lia. reflexivity.
  - destruct (Counter.contains (cards (player_at w p)) card) eqn:E.
    + rewrite putback_ok by exact E. simpl. apply length_insert.
    + rewrite putback_raise by exact E. reflexivity.
  - destruct (Counter.contains (cards (player_at w p)) card) eqn:E.
    + rewrite lose_ok by exact E. simpl. apply length_insert.
    + rewrite lose_raise by exact E. reflexivity.
Qed.

Lemma run_op_conserves op w role lost :
  (op_seat op < length (players w))%nat ->
  role_total (snd (run_op op w))
             (lost + lost_by op (fst (run_op op w)) role) role
  = role_total w lost role.
Proof.
  intros Hp. unfold role_total.
  destruct op as [p|p card|p card]; simpl in *.
  - destruct (Nat.le_gt_cases 2 (length (Counter.elements (deck w))))
      as [H|H].
    + destruct (player_draw_ok w p H) as (card & _ & ->). simpl.
      rewrite hands_count_update by exact Hp. simpl.
      rewrite get_incr, get_decr_del.
      change (player_at (mkWorld _ (players w) _ _) p) with (player_at w p).
      change (hands_count (mkWorld _ (players w) _ _) role)
        with (hands_count w role).
      lia.
    + rewrite player_draw_raise by lia. simpl. lia.
  - destruct (Counter.contains (cards (player_at w p)) card) eqn:E.
    + rewrite putback_ok by exact E. simpl.
      change (hands_count (set_deck ?d ?x) role) with (hands_count x role).
      rewrite hands_count_update by exact Hp. simpl.
      rewrite get_incr, get_decr_del. lia.
    + rewrite putback_raise by exact E. simpl. lia.
  - destruct (Counter.contains (cards (player_at w p)) card) eqn:E.
    + rewrite lose_ok by exact E. simpl.
      rewrite hands_count_update by exact Hp. simpl.
      rewrite get_decr_del. lia.
    + rewrite lose_raise by exact E. simpl. lia.
Qed.

Lemma run_ops_conserves ops : forall w role lost,
  Forall (fun o => (op_seat o < length (players w))%nat) ops ->
  role_total (fst (run_ops ops role w lost)) (snd (run_ops ops role w lost))
             role
  = role_total w lost role.
Proof.
  induction ops as [|op ops IH]; intros w role lost Hall; [reflexivity|].
  inversion Hall as [|? ? Hop Hall']; subst. simpl.
  pose proof (run_op_conserves op w role lost Hop) as Hone.
  pose proof (run_op_length op w) as Hlen.
  destruct (run_op op w) as [r w'] eqn:E. simpl in *.
  rewrite IH; [exact Hone|].
  rewrite Hlen. exact Hall'.
Qed.

End Conservation.

(** C5: for every role, deck copies + copies held over all the seats +
    copies lost so far is the same before and after every call of
    draw, putback and lose.  A draw that goes through takes exactly one
    card from the deck into the caller's hand, a putback exactly one card
    from the hand into the deck, a lose exactly one card out of the hand
    with the deck untouched; a call that raises changes nothing and no call
    touches another seat.  Hence along any history of such calls the total
    stays at the value it started with. *)
Theorem cards_conserved (w : World) (op : PlayerOp) (history : list PlayerOp) :
  (op_seat op < length (players w))%nat ->
  Forall (fun o => (op_seat o < length (players w))%nat) history ->
  let r := fst (run_op op w) in
  let w' := snd (run_op op w) in
  let p := op_seat op in
  (forall role lost,
      role_total w' (lost + lost_by op r role) role = role_total w lost role)
  /\ match op, r with
     | OpDraw _, Ok _ =>
         exists card, forall role,
           Counter.get (deck w') role
           = Counter.get (deck w) role - unit_at card role
           /\ Counter.get (cards (player_at w' p)) role
              = Counter.get (cards (player_at w p)) role + unit_at card role
     | OpPutback _ card, Ok _ =>
         forall role,
           Counter.get (deck w') role
           = Counter.get (deck w) role + unit_at card role
           /\ Counter.get (cards (player_at w' p)) role
              = Counter.get (cards (player_at w p)) role - unit_at card role
     | OpLose _ card, Ok _ =>
         deck w' = deck w
         /\ forall role,
             Counter.get (cards (player_at w' p)) role
             = Counter.get (cards (player_at w p)) role - unit_at card role
     | _, Raise _ => w' = w
     end
  /\ (forall q, q <> p -> player_at w' q = player_at w q)
  /\ (forall role lost,
         role_total (fst (run_ops history role w lost))
                    (snd (run_ops history role w lost)) role
         = role_total w lost role).
Proof.
  intros Hp Hall r w' p. subst r w' p.
  split; [intros role lost; apply run_op_conserves, Hp|].
  split; [|split; [|intros role lost; apply run_ops_conserves, Hall]].
  - destruct op as [p|p card|p card]; simpl in *.
    + destruct (Nat.le_gt_cases 2 (length (Counter.elements (deck w))))
        as [H|H].
      * destruct (player_draw_ok w p H) as (card & _ & ->). simpl.
        exists card. intros role. split; [apply get_decr_del|].
        apply drawn_hand, Hp.
      * rewrite player_draw_raise by lia. reflexivity.
    + destruct (Counter.contains (cards (player_at w p)) card) eqn:E.
      * rewrite putback_ok by exact E. simpl.
        intros role. split; [apply get_incr|].
        rewrite player_at_set_deck. apply removed_hand, Hp.
      * rewrite putback_raise by exact E. reflexivity.
    + destruct (Counter.contains (cards (player_at w p)) card) eqn:E.
      * rewrite lose_ok by exact E. simpl.
        split; [reflexivity|]. intros role. apply removed_hand, Hp.
      * rewrite lose_raise by exact E. reflexivity.
  - intros q Hq. destruct op as [p|p card|p card]; simpl in *.
    + destruct (Nat.le_gt_cases 2 (length (Counter.elements (deck w))))
        as [H|H].
      * destruct (player_draw_ok w p H) as (card & _ & ->). simpl.
        rewrite player_at_update_ne by congruence. reflexivity.
      * rewrite player_draw_raise by lia. reflexivity.
    + destruct (Counter.contains (cards (player_at w p)) card) eqn:E.
      * rewrite putback_ok by exact E. simpl.
        rewrite player_at_set_deck. apply removed_others, Hq.
      * rewrite putback_raise by exact E. reflexivity.
    + destruct (Counter.contains (cards (player_at w p)) card) eqn:E.
      * rewrite lose_ok by exact E. simpl. apply removed_others, Hq.
      * rewrite lose_raise by exact E. reflexivity.
Qed.

Lemma cards_conserved_witness :
  (op_seat (OpLose 0%nat DUKE) < length (players table_dukes))%nat
  /\ Forall (fun o => (op_seat o < length (players table_dukes))%nat)
            [OpLose 0%nat DUKE; OpDraw 1%nat; OpPutback 2%nat ASSASSIN]
  /\ role_total
       (fst (run_ops [OpLose 0%nat DUKE; OpDraw 1%nat; OpPutback 2%nat ASSASSIN]
                     DUKE table_dukes 0))
       (snd (run_ops [OpLose 0%nat DUKE; OpDraw 1%nat; OpPutback 2%nat ASSASSIN]
                     DUKE table_dukes 0))
       DUKE
     = role_total table_dukes 0 DUKE.
Proof.
  assert (op_seat (OpLose 0%nat DUKE) < length (players table_dukes))%nat
    as Hp by (simpl; lia).
  assert (Forall (fun o => (op_seat o < length (players table_dukes))%nat)
                 [OpLose 0%nat DUKE; OpDraw 1%nat; OpPutback 2%nat ASSASSIN])
    as Hall by (repeat constructor; simpl; lia).
  split; [exact Hp | split; [exact Hall|]].
  apply (cards_conserved table_dukes (OpLose 0%nat DUKE) _ Hp Hall).
Defined.

(** ** The Counters stay well formed *)

Section WorldOk.

Import Counter.

Lemma elements_contains c k : In k (elements c) -> contains c k = true.
Proof.
  unfold elements. induction c as [|[k0 v0] c IH]; simpl; [tauto|].
  rewrite in_app_iff. intros [Hin|Hin].
  - apply repeat_spec in Hin. subst k0.
    destruct (decide (k = k)); congruence.
  - destruct (decide (k = k0)); [reflexivity | apply IH, Hin].
Qed.

Lemma counter_ok_incr c k : counter_ok c -> counter_ok (incr c k).
Proof.
  intros [Hwf Hpos]. split; [apply wf_incr | apply positive_incr]; assumption.
Qed.

Lemma counter_ok_decr_del c k :
  counter_ok c -> contains c k = true -> counter_ok (decr_del c k).
Proof.
  intros [Hwf Hpos] Hk.
  split; [apply wf_decr_del | apply positive_decr_del]; assumption.
Qed.

Lemma counter_ok_empty : counter_ok [].
Proof. split; [apply NoDup_nil_2 | constructor]. Qed.

Lemma player_at_ok w p :
  world_ok w -> counter_ok (cards (player_at w p)).
Proof.
  intros [_ Hall]. unfold player_at.
  destruct (players w !! p) as [pl|] eqn:E; simpl.
  - apply (Forall_lookup_1 _ _ _ _ Hall E).
  - apply counter_ok_empty.
Qed.

Lemma world_ok_update w p f d :
  world_ok w -> counter_ok d -> counter_ok (cards (f (player_at w p))) ->
  world_ok (set_deck d (update_player p f w)).
Proof.
  intros [_ Hall] Hd Hf. split; [exact Hd|].
  simpl. apply Forall_insert; assumption.
Qed.

(** Every call of draw, putback and lose leaves a store of well-formed
    Counters well formed. *)
Lemma run_op_keeps_world_ok op w : world_ok w -> world_ok (snd (run_op op w)).
Proof.
  intros Hok. assert (Hparts := Hok). destruct Hparts as [Hdeck Hall].
  destruct op as [p|p card|p card]; simpl.
  - destruct (Nat.le_gt_cases 2 (length (elements (deck w)))) as [H|H].
    + destruct (player_draw_ok w p H) as (card & Hc & ->). simpl.
      split; simpl.
      * apply counter_ok_decr_del; [exact Hdeck|].
        apply elements_contains.
        apply list_elem_of_In, (list_elem_of_lookup_2 _ _ _ Hc).
      * apply Forall_insert; [exact Hall|].
        simpl. apply counter_ok_incr.
        apply (player_at_ok w p Hok).
    + rewrite player_draw_raise by lia. exact Hok.
  - destruct (contains (cards (player_at w p)) card) eqn:E.
    + rewrite putback_ok by exact E. simpl.
      apply world_ok_update; [exact Hok | apply counter_ok_incr, Hdeck|].
      simpl. apply counter_ok_decr_del; [apply player_at_ok, Hok | exact E].
    + rewrite putback_raise by exact E. exact Hok.
  - destruct (contains (cards (player_at w p)) card) eqn:E.
    + rewrite lose_ok by exact E. simpl.
      split; [exact Hdeck|]. simpl. apply Forall_insert; [exact Hall|].
      simpl. apply counter_ok_decr_del; [apply player_at_ok, Hok | exact E].
    + rewrite lose_raise by exact E. exact Hok.
Qed.

End WorldOk.

(** ** resolve_steal (C7) *)

Section Steal.

Implicit Types (w : World) (p q : pid) (act : ActInfo).

(** An update that keeps a field of the player keeps it at every seat. *)
Lemma player_at_update_field {A} (proj : Player -> A) w p q f :
  (forall pl, proj (f pl) = proj pl) ->
  proj (player_at (update_player p f w) q) = proj (player_at w q).
Proof.
  intros Hf. destruct (decide (p = q)) as [->|Hne].
  - destruct (Nat.lt_ge_cases q (length (players w))) as [H|H].
    + rewrite player_at_update_eq by exact H. apply Hf.
    + rewrite player_at_update_out by exact H. reflexivity.
  - rewrite player_at_update_ne by exact Hne. reflexivity.
Qed.

Lemma resolve_steal_run act w :
  resolve_steal act w
  = (Ok tt,
     update_player (act_target act)
       (fun pl =>
          set_coins (coins pl - Z.min 2 (coins (player_at w (act_target act))))
                    pl)
       (update_player (act_actor act)
          (fun pl =>
             set_coins
               (coins pl + Z.min 2 (coins (player_at w (act_target act))))
               pl)
          w)).
Proof. reflexivity. Qed.

(** A player that would steal from itself ends with the balance it had:
    the two assignments cancel on the one object. *)
Lemma resolve_steal_self w p a :
  coins (player_at (snd (resolve_steal (mkActInfo p a p) w)) p)
  = coins (player_at w p).
Proof.
  rewrite resolve_steal_run. simpl.
  destruct (Nat.lt_ge_cases p (length (players w))) as [H|H].
  - rewrite !player_at_update_eq;
      rewrite ?length_players_update; try exact H.
    simpl. lia.
  - rewrite !player_at_update_out;
      rewrite ?player_at_update_out; try exact H; reflexivity.
Qed.

(** The two balances after a steal between two different seats. *)
Lemma resolve_steal_coins w act :
  (act_actor act < length (players w))%nat ->
  (act_target act < length (players w))%nat ->
  act_actor act <> act_target act ->
  coins (player_at (snd (resolve_steal act w)) (act_actor act))
  = coins (player_at w (act_actor act))
    + Z.min 2 (coins (player_at w (act_target act)))
  /\ coins (player_at (snd (resolve_steal act w)) (act_target act))
     = coins (player_at w (act_target act))
       - Z.min 2 (coins (player_at w (act_target act))).
Proof.
  intros Ha Ht Hne. rewrite resolve_steal_run. cbn [snd]. split.
  - rewrite player_at_update_ne by congruence.
    rewrite player_at_update_eq by exact Ha. reflexivity.
  - rewrite player_at_update_eq by (rewrite length_players_update; exact Ht).
    cbn [coins set_coins]. rewrite player_at_update_ne by exact Hne.
    reflexivity.
Qed.

End Steal.

(** C7: when the target holds c coins, c >= 0, resolve_steal moves exactly
    min(2, c) coins: the actor's balance grows by min(2, c), the target's
    shrinks by min(2, c) and is not negative afterwards, and neither a hand
    nor the deck nor any other seat changes.  Actor and target are two
    players, as they are for every Steal the legal moves offer. *)
Theorem resolve_steal_moves_min_2 (w : World) (act : ActInfo) (c : Z) :
  (act_actor act < length (players w))%nat ->
  (act_target act < length (players w))%nat ->
  act_actor act <> act_target act ->
  coins (player_at w (act_target act)) = c ->
  0 <= c ->
  let w' := snd (resolve_steal act w) in
  fst (resolve_steal act w) = Ok tt
  /\ coins (player_at w' (act_actor act))
     = coins (player_at w (act_actor act)) + Z.min 2 c
  /\ coins (player_at w' (act_target act)) = c - Z.min 2 c
  /\ 0 <= coins (player_at w' (act_target act))
  /\ deck w' = deck w
  /\ (forall q, cards (player_at w' q) = cards (player_at w q))
  /\ (forall q, q <> act_actor act -> q <> act_target act ->
                player_at w' q = player_at w q).
Proof.
  intros Ha Ht Hne Hc Hpos w'. subst w'.
  destruct (resolve_steal_coins w act Ha Ht Hne) as [Hactor Htarget].
  rewrite Hc in Hactor, Htarget.
  split; [reflexivity|].
  split; [exact Hactor|].
  split; [exact Htarget|].
  split; [rewrite Htarget; lia|].
  rewrite resolve_steal_run. cbn [snd].
  split; [reflexivity|].
  split.
  - intros q.
    rewrite (player_at_update_field cards) by reflexivity.
    rewrite (player_at_update_field cards) by reflexivity.
    reflexivity.
  - intros q Hqa Hqt.
    rewrite !player_at_update_ne by congruence. reflexivity.
Qed.

Lemma resolve_steal_moves_min_2_witness :
  (act_actor steal_act < length (players table_steal))%nat
  /\ (act_target steal_act < length (players table_steal))%nat
  /\ act_actor steal_act <> act_target steal_act
  /\ coins (player_at table_steal (act_target steal_act)) = 5
  /\ 0 <= 5
  /\ coins (player_at (snd (resolve_steal steal_act table_steal)) 0%nat) = 4
  /\ coins (player_at (snd (resolve_steal steal_act table_steal)) 1%nat) = 3.
Proof.
  assert (act_actor steal_act < length (players table_steal))%nat as Ha
      by (simpl; lia).
  assert (act_target steal_act < length (players table_steal))%nat as Ht
      by (simpl; lia).
  assert (act_actor steal_act <> act_target steal_act) as Hne
      by (simpl; lia).
  assert (coins (player_at table_steal (act_target steal_act)) = 5) as Hc
      by reflexivity.
  assert (0 <= 5) as Hpos by lia.
  destruct (resolve_steal_moves_min_2 table_steal steal_act 5 Ha Ht Hne Hc Hpos)
    as (_ & Hactor & Htarget & _).
  repeat split; try assumption.
Defined.

(** ** A Steal whose target has died (C1) *)

Section DeadTarget.

Variables (w : World) (player : pid) (act : ActInfo) (action : Action)
          (card : CARD).
Hypothesis Hsteal : act_action act = STEAL.
Hypothesis Hcard : action_card action = Some card.
Hypothesis Hheld : Counter.contains (cards (player_at w player)) card = true.

Lemma challenge_resolve_steal_dead chl :
  chl_loser chl <> act_actor act ->
  Player.alive (snd (Player.lose player card w)) (act_target act)
  = false ->
  ChallengeResolve.step player act chl action w
  = (Ok (EndTurn act (Some chl) None None None),
     snd (resolve_steal act (snd (Player.lose player card w)))).
Proof.
  intros Hloser. rewrite lose_ok by exact Hheld. simpl. intros Hdead.
  unfold ChallengeResolve.step, bind. rewrite Hcard. simpl.
  rewrite lose_ok by exact Hheld.
  destruct (decide (chl_loser chl = act_actor act)); [contradiction|].
  rewrite Hsteal.
  destruct (decide (STEAL = TAX)); [discriminate|].
  destruct (decide (STEAL = EXCHANGE)); [discriminate|].
  unfold read. rewrite Hdead. reflexivity.
Qed.

Lemma block_challenge_resolve_steal block bchl chl :
  chl_loser bchl <> chl_challenger bchl ->
  BlockChallengeResolve.step player block bchl act chl action w
  = (Ok (EndTurn act chl (Some block) (Some bchl) None),
     snd (resolve_steal act (snd (Player.lose player card w)))).
Proof.
  intros Hloser. rewrite lose_ok by exact Hheld. simpl.
  unfold BlockChallengeResolve.step, bind. rewrite Hcard. simpl.
  rewrite lose_ok by exact Hheld.
  destruct (decide (chl_loser bchl = chl_challenger bchl)); [contradiction|].
  rewrite Hsteal.
  destruct (decide (STEAL = FOREIGN_AID)); [discriminate|].
  destruct (decide (STEAL = STEAL)); [|congruence].
  reflexivity.
Qed.

Lemma lose_keeps_coins q :
  coins (player_at (snd (Player.lose player card w)) q)
  = coins (player_at w q).
Proof.
  rewrite lose_ok by exact Hheld. simpl.
  apply (player_at_update_field coins). reflexivity.
Qed.

Lemma lose_keeps_length :
  length (players (snd (Player.lose player card w)))
  = length (players w).
Proof. rewrite lose_ok by exact Hheld. simpl. apply length_insert. Qed.

End DeadTarget.

(** C1 fails as stated: seat 1 challenges the Steal of seat 0 against it,
    loses the challenge and gives up its last card.  The target is dead when
    the Steal resolves and the turn ends, yet two of its five coins have
    moved to the actor. *)
Lemma steal_on_dead_target_counterexample :
  fst (step (ChallengeResolve 1%nat steal_act steal_chl) LOSE_DUKE 1%nat
            table_steal)
  = Ok (EndTurn steal_act (Some steal_chl) None None None)
  /\ Player.alive
       (snd (step (ChallengeResolve 1%nat steal_act steal_chl) LOSE_DUKE 1%nat
                  table_steal))
       (act_target steal_act)
     = false
  /\ ~ (coins
          (player_at
             (snd (step (ChallengeResolve 1%nat steal_act steal_chl) LOSE_DUKE
                        1%nat table_steal))
             (act_actor steal_act))
        = coins (player_at table_steal (act_actor steal_act))
        /\ coins
             (player_at
                (snd (step (ChallengeResolve 1%nat steal_act steal_chl)
                           LOSE_DUKE 1%nat table_steal))
                (act_target steal_act))
           = coins (player_at table_steal (act_target steal_act))).
Proof.
  split; [reflexivity|]. split; [reflexivity|].
  vm_compute. intros [H _]. discriminate H.
Qed.

(** C1, amended: a Steal whose target is no longer alive when it resolves
    is still carried out.  After the loser of the challenge has given up its
    card, both ChallengeResolve (loser other than the actor) and
    BlockChallengeResolve (block defeated) run resolve_steal and end the
    turn: min(2, target coins) coins move from the dead target to the
    actor and no block is offered. *)
Theorem steal_on_dead_target_is_resolved
        (w : World) (player : pid) (act : ActInfo) (action : Action)
        (card : CARD) (target : pid) :
  act_action act = STEAL ->
  action_card action = Some card ->
  Counter.contains (cards (player_at w player)) card = true ->
  (act_actor act < length (players w))%nat ->
  (act_target act < length (players w))%nat ->
  act_actor act <> act_target act ->
  Player.alive (snd (Player.lose player card w)) (act_target act)
  = false ->
  let w' := snd (resolve_steal act (snd (Player.lose player card w))) in
  (forall chl,
      chl_loser chl <> act_actor act ->
      step (ChallengeResolve player act chl) action target w
      = (Ok (EndTurn act (Some chl) None None None), w'))
  /\ (forall block bchl chl,
         chl_loser bchl <> chl_challenger bchl ->
         step (BlockChallengeResolve player block bchl act chl) action target w
         = (Ok (EndTurn act chl (Some block) (Some bchl) None), w'))
  /\ coins (player_at w' (act_actor act))
     = coins (player_at w (act_actor act))
       + Z.min 2 (coins (player_at w (act_target act)))
  /\ coins (player_at w' (act_target act))
     = coins (player_at w (act_target act))
       - Z.min 2 (coins (player_at w (act_target act))).
Proof.
  intros Hsteal Hcard Hheld Ha Ht Hne Hdead w'. subst w'.
  split; [|split].
  - intros chl Hloser. simpl.
    apply challenge_resolve_steal_dead; assumption.
  - intros block bchl chl Hloser. simpl.
    apply block_challenge_resolve_steal; assumption.
  - pose proof (lose_keeps_length w player card Hheld) as Hlen.
    destruct (resolve_steal_coins (snd (Player.lose player card w)) act)
      as [Hactor Htarget].
    + rewrite Hlen. exact Ha.
    + rewrite Hlen. exact Ht.
    + exact Hne.
    + rewrite Hactor, Htarget.
      rewrite !lose_keeps_coins by exact Hheld. split; reflexivity.
Qed.

Lemma steal_on_dead_target_is_resolved_witness :
  act_action steal_act = STEAL
  /\ action_card LOSE_DUKE = Some DUKE
  /\ Counter.contains (cards (player_at table_steal 1%nat)) DUKE = true
  /\ (act_actor steal_act < length (players table_steal))%nat
  /\ (act_target steal_act < length (players table_steal))%nat
  /\ act_actor steal_act <> act_target steal_act
  /\ Player.alive (snd (Player.lose 1%nat DUKE table_steal))
                  (act_target steal_act)
     = false
  /\ coins
       (player_at
          (snd (resolve_steal steal_act
                              (snd (Player.lose 1%nat DUKE table_steal))))
          (act_actor steal_act))
     = 2 + Z.min 2 5.
Proof.
  assert (act_action steal_act = STEAL) as H1 by reflexivity.
  assert (action_card LOSE_DUKE = Some DUKE) as H2 by reflexivity.
  assert (Counter.contains (cards (player_at table_steal 1%nat)) DUKE = true)
    as H3 by reflexivity.
  assert (act_actor steal_act < length (players table_steal))%nat as H4
      by (simpl; lia).
  assert (act_target steal_act < length (players table_steal))%nat as H5
      by (simpl; lia).
  assert (act_actor steal_act <> act_target steal_act) as H6 by (simpl; lia).
  assert (Player.alive (snd (Player.lose 1%nat DUKE table_steal))
                       (act_target steal_act) = false) as H8
      by reflexivity.
  destruct (steal_on_dead_target_is_resolved
              table_steal 1%nat steal_act LOSE_DUKE DUKE 1%nat
              H1 H2 H3 H4 H5 H6 H8)
    as (_ & _ & Hactor & _).
  repeat split; try assumption.
Defined.

(** The sibling case: an Assassinate whose target has died is dropped, the
    turn ends with nothing but the loser's card gone. *)
Lemma assassinate_on_dead_target_is_dropped
      (w : World) (player : pid) (act : ActInfo) (action : Action)
      (card : CARD) (target : pid) :
  act_action act = ASSASSINATE ->
  action_card action = Some card ->
  Counter.contains (cards (player_at w player)) card = true ->
  Player.alive (snd (Player.lose player card w)) (act_target act) = false ->
  (forall chl,
      chl_loser chl <> act_actor act ->
      step (ChallengeResolve player act chl) action target w
      = (Ok (EndTurn act (Some chl) None None None),
         snd (Player.lose player card w)))
  /\ (forall block bchl chl,
         chl_loser bchl <> chl_challenger bchl ->
         step (BlockChallengeResolve player block bchl act chl) action target w
         = (Ok (EndTurn act chl (Some block) (Some bchl) None),
            snd (Player.lose player card w))).
Proof.
  intros Hact Hcard Hheld. rewrite lose_ok by exact Hheld. simpl.
  intros Hdead. split.
  - intros chl Hloser.
    unfold ChallengeResolve.step, bind. rewrite Hcard. simpl.
    rewrite lose_ok by exact Hheld.
    destruct (decide (chl_loser chl = act_actor act)); [contradiction|].
    rewrite Hact.
    destruct (decide (ASSASSINATE = TAX)); [discriminate|].
    destruct (decide (ASSASSINATE = EXCHANGE)); [discriminate|].
    unfold read. rewrite Hdead. reflexivity.
  - intros block bchl chl Hloser.
    unfold BlockChallengeResolve.step, bind. rewrite Hcard. simpl.
    rewrite lose_ok by exact Hheld.
    destruct (decide (chl_loser bchl = chl_challenger bchl)); [contradiction|].
    rewrite Hact.
    destruct (decide (ASSASSINATE = FOREIGN_AID)); [discriminate|].
    destruct (decide (ASSASSINATE = STEAL)); [discriminate|].
    destruct (decide (ASSASSINATE = ASSASSINATE)); [|congruence].
    unfold read. rewrite Hdead. reflexivity.
Qed.

(** ** The ring of seats: enum and next_alive *)

Section Ring.

Variable w : World.

Lemma seat_after_lt p k :
  (0 < length (players w))%nat ->
  (seat_after w p k < length (players w))%nat.
Proof. intros Hn. unfold seat_after. apply Nat.mod_upper_bound. lia. Qed.

Lemma seat_after_wrap p k :
  (p < length (players w))%nat ->
  (k <= length (players w))%nat ->
  seat_after w p k
  = if decide (p + k < length (players w))%nat then (p + k)%nat
    else (p + k - length (players w))%nat.
Proof.
  intros Hp Hk. unfold seat_after. destruct (decide _) as [Hlt|Hge].
  - apply Nat.mod_small. exact Hlt.
  - replace (p + k)%nat
      with ((p + k - length (players w)) + 1 * length (players w))%nat
      at 1 by lia.
    rewrite Nat.Div0.mod_add. apply Nat.mod_small. lia.
Qed.

Lemma seat_after_0 p :
  (p < length (players w))%nat -> seat_after w p 0 = p.
Proof.
  intros Hp. rewrite seat_after_wrap by lia.
  destruct (decide _); lia.
Qed.

Lemma seat_after_n p :
  (p < length (players w))%nat ->
  seat_after w p (length (players w)) = p.
Proof.
  intros Hp. rewrite seat_after_wrap by lia.
  destruct (decide _); lia.
Qed.

Lemma seat_after_other p k :
  (p < length (players w))%nat ->
  (1 <= k < length (players w))%nat ->
  seat_after w p k <> p.
Proof.
  intros Hp Hk. rewrite seat_after_wrap by lia.
  destruct (decide _); lia.
Qed.

Lemma seat_after_inj p k k' :
  (p < length (players w))%nat ->
  (k < length (players w))%nat ->
  (k' < length (players w))%nat ->
  seat_after w p k = seat_after w p k' ->
  k = k'.
Proof.
  intros Hp Hk Hk'. rewrite !seat_after_wrap by lia.
  repeat destruct (decide _); lia.
Qed.

Lemma seat_after_reach p q :
  (p < length (players w))%nat ->
  (q < length (players w))%nat ->
  q <> p ->
  exists k, (1 <= k < length (players w))%nat /\ seat_after w p k = q.
Proof.
  intros Hp Hq Hne.
  destruct (decide (p < q)%nat) as [Hlt|Hge].
  - exists (q - p)%nat. split; [lia|].
    rewrite seat_after_wrap by lia. destruct (decide _); lia.
  - exists (q + length (players w) - p)%nat. split; [lia|].
    rewrite seat_after_wrap by lia. destruct (decide _); lia.
Qed.

Lemma next_seat_after p k :
  Player.next w (seat_after w p k) = seat_after w p (S k).
Proof.
  unfold Player.next, seat_after.
  replace (S ((p + k) mod length (players w)))%nat
    with ((p + k) mod length (players w) + 1)%nat by lia.
  rewrite Nat.Div0.add_mod_idemp_l. f_equal. lia.
Qed.

Lemma next_is_seat_after p : Player.next w p = seat_after w p 1.
Proof. unfold Player.next, seat_after. f_equal. lia. Qed.

(** The loop of [enum], entered at the seat [k] places after [p] with [m]
    seats left before the ring closes, yields the entries of those seats. *)
Lemma enum_loop_spec skip_dead p m : forall k fuel,
  (p < length (players w))%nat ->
  (1 <= k)%nat ->
  (k + m = length (players w))%nat ->
  (m <= fuel)%nat ->
  Player.enum_loop fuel w skip_dead p (Z.of_nat k) (seat_after w p k)
  = flat_map (enum_entry w skip_dead p) (seq k m).
Proof.
  induction m as [|m IH]; intros k fuel Hp Hk Hkm Hfuel.
  - replace k with (length (players w)) by lia.
    rewrite seat_after_n by exact Hp.
    destruct fuel; simpl; [reflexivity|].
    destruct (decide (p = p)); congruence.
  - destruct fuel as [|fuel]; [lia|]. simpl.
    destruct (decide (seat_after w p k = p)) as [Heq|_].
    { exfalso. revert Heq. apply seat_after_other; lia. }
    rewrite next_seat_after.
    replace (Z.of_nat k + 1) with (Z.of_nat (S k)) by lia.
    rewrite IH by lia. reflexivity.
Qed.

Lemma enum_others skip_dead p :
  (p < length (players w))%nat ->
  Player.enum w skip_dead true p
  = flat_map (enum_entry w skip_dead p) (seq 1 (length (players w) - 1)).
Proof.
  intros Hp. unfold Player.enum. simpl.
  rewrite next_is_seat_after.
  apply (enum_loop_spec skip_dead p (length (players w) - 1) 1%nat); lia.
Qed.

End Ring.

(** ** Start.action_mask with ten coins or more (C2) *)

Section MustCoup.

Variables (w : World) (p : pid).
Hypothesis Hseat : (p < length (players w))%nat.

Lemma in_enum_living i q :
  In (i, q) (Player.enum w true true p)
  <-> exists k, (1 <= k < length (players w))%nat
                /\ i = Z.of_nat k
                /\ q = seat_after w p k
                /\ Player.alive w q = true.
Proof.
  rewrite enum_others by exact Hseat. rewrite in_flat_map. split.
  - intros (k & Hk & Hin). apply in_seq in Hk.
    unfold enum_entry in Hin. simpl in Hin.
    destruct (Player.alive w (seat_after w p k)) eqn:E;
      simpl in Hin; [|tauto].
    destruct Hin as [Heq|[]]. injection Heq as <- <-.
    exists k. repeat split; try lia. exact E.
  - intros (k & Hk & -> & -> & Halive).
    exists k. split; [apply in_seq; lia|].
    unfold enum_entry. simpl. rewrite Halive. left. reflexivity.
Qed.

Lemma enum_offsets_above skip_dead m : forall k i q,
  In (i, q) (flat_map (enum_entry w skip_dead p) (seq k m)) ->
  Z.of_nat k <= i.
Proof.
  induction m as [|m IH]; intros k i q; simpl; [tauto|].
  rewrite in_app_iff. intros [Hin|Hin].
  - unfold enum_entry in Hin. destruct (_ || _); simpl in Hin; [|tauto].
    destruct Hin as [Heq|[]]. injection Heq as <- _. lia.
  - apply IH in Hin. lia.
Qed.

Lemma enum_offsets_nodup skip_dead m : forall k,
  List.NoDup (map fst (flat_map (enum_entry w skip_dead p) (seq k m))).
Proof.
  induction m as [|m IH]; intros k; simpl; [constructor|].
  rewrite map_app. unfold enum_entry at 1.
  destruct (_ || _); simpl; [|apply IH].
  constructor; [|apply IH].
  intros Hin. apply in_map_iff in Hin as ([i q] & Hi & Hin).
  apply enum_offsets_above in Hin. simpl in Hi. lia.
Qed.

Lemma must_coup_mask :
  10 <= coins (player_at w p) ->
  Start.action_mask w p
  = map (fun io => (COUP, fst io)) (Player.enum w true true p).
Proof.
  intros Hc. unfold Start.action_mask.
  destruct (decide (7 <= coins (player_at w p))); [|lia].
  rewrite !bool_decide_eq_true_2 by lia. reflexivity.
Qed.

End MustCoup.

(** C2: in a Start state whose player holds ten coins or more, with a
    living player besides, the legal moves are Coup moves only, one for
    each living other player and no move twice; the offset of a move is the
    number of seats from the player to its target. *)
Theorem must_coup (w : World) (p : pid) :
  (p < length (players w))%nat ->
  10 <= coins (player_at w p) ->
  (exists q, living_other w p q) ->
  action_mask w (Start p) <> []
  /\ List.NoDup (action_mask w (Start p))
  /\ (forall a i,
         In (a, i) (action_mask w (Start p)) ->
         a = COUP
         /\ exists k, (1 <= k < length (players w))%nat
                      /\ i = Z.of_nat k
                      /\ living_other w p (seat_after w p k))
  /\ (forall q,
         living_other w p q ->
         exists k, (1 <= k < length (players w))%nat
                   /\ seat_after w p k = q
                   /\ In (COUP, Z.of_nat k) (action_mask w (Start p))
                   /\ forall k',
                       In (COUP, Z.of_nat k') (action_mask w (Start p)) ->
                       seat_after w p k' = q ->
                       k' = k).
Proof.
  intros Hseat Hcoins [q0 Hq0]. simpl.
  rewrite must_coup_mask by assumption.
  assert (forall q, living_other w p q ->
            exists k, (1 <= k < length (players w))%nat
                      /\ seat_after w p k = q
                      /\ In (Z.of_nat k, q) (Player.enum w true true p))
    as Hliving.
  { intros q (Hq & Hne & Halive).
    destruct (seat_after_reach w p q Hseat Hq Hne) as (k & Hk & Hkq).
    exists k. split; [exact Hk|]. split; [exact Hkq|].
    apply in_enum_living; [exact Hseat|].
    exists k. repeat split; try lia; congruence. }
  split; [|split; [|split]].
  - destruct (Hliving q0 Hq0) as (k & _ & _ & Hin).
    intros Hnil. apply (in_map (fun io => (COUP, fst io))) in Hin.
    rewrite Hnil in Hin. exact Hin.
  - rewrite <- (map_map fst (fun i => (COUP, i))).
    apply Finite.Injective_map_NoDup.
    + intros i j Heq. congruence.
    + rewrite enum_others by exact Hseat.
      apply enum_offsets_nodup; exact Hseat.
  - intros a i Hin. apply in_map_iff in Hin as ([i' q] & Heq & Hin).
    injection Heq as <- <-. split; [reflexivity|].
    apply in_enum_living in Hin as (k & Hk & -> & -> & Halive);
      [|exact Hseat].
    exists k. split; [exact Hk|]. split; [reflexivity|].
    split; [apply seat_after_lt; lia|].
    split; [apply seat_after_other; assumption | exact Halive].
  - intros q Hq. destruct (Hliving q Hq) as (k & Hk & Hkq & Hin).
    exists k. split; [exact Hk|]. split; [exact Hkq|]. split.
    + apply (in_map (fun io => (COUP, fst io))) in Hin. exact Hin.
    + intros k' Hin' Hk'q.
      apply in_map_iff in Hin' as ([i' q'] & Heq & Hin').
      injection Heq as Heq. simpl in Heq. subst i'.
      apply in_enum_living in Hin' as (k'' & Hk'' & Hi & _); [|exact Hseat].
      assert (k'' = k') by lia. subst k''.
      apply (seat_after_inj w p); try lia; congruence.
Qed.

Example must_coup_table_rich :
  action_mask table_rich (Start 2%nat) = [(COUP, 1)].
Proof. reflexivity. Qed.

Lemma must_coup_witness :
  (2 < length (players table_rich))%nat
  /\ 10 <= coins (player_at table_rich 2%nat)
  /\ (exists q, living_other table_rich 2%nat q)
  /\ action_mask table_rich (Start 2%nat) <> [].
Proof.
  assert (2 < length (players table_rich))%nat as Hseat by (simpl; lia).
  assert (10 <= coins (player_at table_rich 2%nat)) as Hcoins
      by (simpl; lia).
  assert (exists q, living_other table_rich 2%nat q) as Hother.
  { exists 0%nat. split; [simpl; lia|]. split; [lia | reflexivity]. }
  split; [exact Hseat|]. split; [exact Hcoins|]. split; [exact Hother|].
  apply (must_coup table_rich 2%nat Hseat Hcoins Hother).
Defined.

Lemma iter_next w p k :
  (p < length (players w))%nat ->
  Nat.iter k (Player.next w) p = seat_after w p k.
Proof.
  intros Hp. induction k as [|k IH]; simpl.
  - symmetry. apply seat_after_0, Hp.
  - rewrite IH. apply next_seat_after.
Qed.

(** A Steal among the legal moves of Start is aimed at another seat: the
    target the driver reaches by walking the offset along the ring is in
    range, is not the player, is alive and has coins. *)
Lemma offered_steal_target w p i :
  (p < length (players w))%nat ->
  In (STEAL, i) (action_mask w (Start p)) ->
  Nat.iter (Z.to_nat i) (Player.next w) p <> p
  /\ (Nat.iter (Z.to_nat i) (Player.next w) p < length (players w))%nat
  /\ Player.alive w (Nat.iter (Z.to_nat i) (Player.next w) p) = true
  /\ 0 < coins (player_at w (Nat.iter (Z.to_nat i) (Player.next w) p)).
Proof.
  intros Hp. simpl. unfold Start.action_mask.
  assert (forall l : list (Z * pid),
             ~ In (STEAL, i)
                  (if decide (7 <= coins (player_at w p))
                   then map (fun io => (COUP, fst io)) l else [])) as Hcoup.
  { intros l Hin. destruct (decide _); [|exact Hin].
    apply in_map_iff in Hin as (io & Heq & _). discriminate Heq. }
  destruct (_ && _); [intros Hin; exfalso; exact (Hcoup _ Hin)|].
  rewrite !in_app_iff. intros [Hin|[Hin|Hin]].
  - exfalso. exact (Hcoup _ Hin).
  - apply in_flat_map in Hin as ([i' q] & Henum & Hin). simpl in Hin.
    apply in_enum_living in Henum as (k & Hk & -> & -> & Halive);
      [|exact Hp].
    apply in_app_iff in Hin as [Hin|Hin].
    { destruct (decide (3 <= coins (player_at w p))); [|destruct Hin].
      destruct Hin as [Heq|[]]. discriminate Heq. }
    destruct (decide (0 < coins (player_at w (seat_after w p k))))
      as [Hcoins|]; [|destruct Hin].
    destruct Hin as [Heq|[]]. injection Heq as <-.
    rewrite Nat2Z.id, iter_next by exact Hp.
    split; [apply seat_after_other; assumption|].
    split; [apply seat_after_lt; lia|].
    split; assumption.
  - exfalso. simpl in Hin.
    repeat (destruct Hin as [Heq|Hin]; [discriminate Heq|]). exact Hin.
Qed.

(** ** The round against a block (C3) *)

Section NextAlive.

Variable w : World.

Lemma alive_update p f q :
  (forall pl, cards (f pl) = cards pl) ->
  Player.alive (update_player p f w) q = Player.alive w q.
Proof.
  intros Hf. unfold Player.alive.
  rewrite (player_at_update_field cards) by exact Hf. reflexivity.
Qed.

Lemma next_update p f q :
  Player.next (update_player p f w) q = Player.next w q.
Proof. unfold Player.next. rewrite length_players_update. reflexivity. Qed.

Lemma next_alive_loop_update p f fuel : forall self player,
  (forall pl, cards (f pl) = cards pl) ->
  Player.next_alive_loop fuel (update_player p f w) self player
  = Player.next_alive_loop fuel w self player.
Proof.
  induction fuel as [|fuel IH]; intros self player Hf; [reflexivity|].
  simpl. rewrite alive_update by exact Hf.
  rewrite next_update, IH by exact Hf. reflexivity.
Qed.

Lemma next_alive_update p f self :
  (forall pl, cards (f pl) = cards pl) ->
  fst (Player.next_alive self (update_player p f w))
  = fst (Player.next_alive self w).
Proof.
  intros Hf. unfold Player.next_alive. cbn [fst].
  rewrite length_players_update, next_update.
  apply next_alive_loop_update, Hf.
Qed.

Lemma next_alive_same_world self : snd (Player.next_alive self w) = w.
Proof. reflexivity. Qed.

(** The loop stops at the first living seat it meets. *)
Lemma next_alive_loop_first self d : forall k fuel,
  (self < length (players w))%nat ->
  (1 <= k)%nat -> (k + d < length (players w))%nat -> (d < fuel)%nat ->
  (forall j, (k <= j < k + d)%nat ->
             Player.alive w (seat_after w self j) = false) ->
  Player.alive w (seat_after w self (k + d)) = true ->
  Player.next_alive_loop fuel w self (seat_after w self k)
  = Ok (seat_after w self (k + d)).
Proof.
  induction d as [|d IH]; intros k fuel Hs Hk Hkd Hfuel Hdead Halive;
    (destruct fuel as [|fuel]; [lia|]); simpl;
    (destruct (decide (seat_after w self k = self)) as [Heq|_];
     [exfalso; revert Heq; apply seat_after_other; lia|]).
  - rewrite Nat.add_0_r in Halive. rewrite Halive.
    rewrite Nat.add_0_r. reflexivity.
  - rewrite Hdead by lia. rewrite next_seat_after.
    replace (k + S d)%nat with (S k + d)%nat in * by lia.
    apply IH; try lia; [|exact Halive].
    intros j Hj. apply Hdead. lia.
Qed.

Lemma next_alive_first self k :
  (self < length (players w))%nat ->
  (1 <= k < length (players w))%nat ->
  (forall j, (1 <= j < k)%nat ->
             Player.alive w (seat_after w self j) = false) ->
  Player.alive w (seat_after w self k) = true ->
  Player.next_alive self w = (Ok (seat_after w self k), w).
Proof.
  intros Hs Hk Hdead Halive. unfold Player.next_alive.
  rewrite next_is_seat_after. f_equal.
  replace k with (1 + (k - 1))%nat at 1 by lia.
  apply next_alive_loop_first; try lia.
  - intros j Hj. apply Hdead. lia.
  - replace (1 + (k - 1))%nat with k by lia. exact Halive.
Qed.

End NextAlive.

Lemma next_alive_after_flag w player f k :
  (forall pl, cards (f pl) = cards pl) ->
  (player < length (players w))%nat ->
  (1 <= k < length (players w))%nat ->
  (forall j, (1 <= j < k)%nat ->
             Player.alive w (seat_after w player j) = false) ->
  Player.alive w (seat_after w player k) = true ->
  Player.next_alive player (update_player player f w)
  = (Ok (seat_after w player k), update_player player f w).
Proof.
  intros Hf Hp Hk Hdead Halive.
  pose proof (next_alive_first w player k Hp Hk Hdead Halive) as Hfirst.
  unfold Player.next_alive in *. injection Hfirst as Hfirst.
  rewrite length_players_update, next_update.
  rewrite next_alive_loop_update by exact Hf.
  rewrite Hfirst. reflexivity.
Qed.

(** C3 fails as stated: seat 1 blocks the Foreign Aid of seat 0, and the
    round against the block opens with seat 1, the blocker, as the player
    to respond; Call is among its legal moves. *)
Lemma blocker_responds_first_counterexample :
  fst (step (ForeignAidBlock 1%nat aid_act None) BLOCK_FOREIGN_AID 1%nat
            table_dukes)
  = Ok (BlockChallenge 1%nat aid_block aid_act None)
  /\ In (CHALLENGE_CALL, 0)
        (action_mask table_dukes (BlockChallenge 1%nat aid_block aid_act None))
  /\ ~ (fst (turn_player (BlockChallenge 1%nat aid_block aid_act None)
                         table_dukes)
        <> Ok (blk_blocker aid_block)).
Proof.
  split; [reflexivity|]. split; [simpl; tauto|].
  intros H. apply H. reflexivity.
Qed.

(** The round stops when the next living seat is the actor: with seat 2 as
    the blocker of the same Foreign Aid, its own Pass ends the turn and
    seat 1 is never asked. *)
Example block_round_skips_seats_before_blocker :
  fst (step (BlockChallenge 2%nat (mkBlockInfo 2%nat BLOCK_FOREIGN_AID)
                            aid_act None)
            CHALLENGE_PASS 2%nat table_dukes)
  = Ok (EndTurn aid_act None (Some (mkBlockInfo 2%nat BLOCK_FOREIGN_AID))
                None None).
Proof. reflexivity. Qed.

Section BlockRound.

Lemma seat_after_add w b j k :
  seat_after w (seat_after w b j) k = seat_after w b (j + k).
Proof.
  unfold seat_after. rewrite Nat.Div0.add_mod_idemp_l. f_equal. lia.
Qed.

Lemma seat_after_update w p f b j :
  seat_after (update_player p f w) b j = seat_after w b j.
Proof. unfold seat_after. rewrite length_players_update. reflexivity. Qed.

Lemma living_between_update w p f b from count :
  (forall pl, cards (f pl) = cards pl) ->
  living_between (update_player p f w) b from count
  = living_between w b from count.
Proof.
  intros Hf. unfold living_between. apply flat_map_ext. intros j.
  rewrite seat_after_update, alive_update by exact Hf. reflexivity.
Qed.

Lemma living_between_dead w b from count :
  (forall i, (from <= i < from + count)%nat ->
             Player.alive w (seat_after w b i) = false) ->
  living_between w b from count = [].
Proof.
  revert from. induction count as [|count IH]; intros from Hdead;
    [reflexivity|].
  unfold living_between. simpl. rewrite Hdead by lia. simpl.
  apply IH. intros i Hi. apply Hdead. lia.
Qed.

Lemma living_between_alive w b j :
  Player.alive w (seat_after w b j) = true ->
  living_between w b j 1 = [seat_after w b j].
Proof.
  intros H. unfold living_between. cbn [seq flat_map]. rewrite H.
  reflexivity.
Qed.

Lemma living_between_app w b from c1 c2 :
  living_between w b from (c1 + c2)
  = living_between w b from c1 ++ living_between w b (from + c1) c2.
Proof.
  unfold living_between. rewrite seq_app, flat_map_app. reflexivity.
Qed.

(** From a seat, the first living seat before or at a living one. *)
Lemma first_living w b m : forall j,
  (1 <= m)%nat ->
  Player.alive w (seat_after w b (j + m)) = true ->
  exists k,
    (1 <= k <= m)%nat
    /\ Player.alive w (seat_after w b (j + k)) = true
    /\ forall i, (1 <= i < k)%nat ->
                 Player.alive w (seat_after w b (j + i)) = false.
Proof.
  induction m as [|m IH]; intros j Hm Halive; [lia|].
  destruct (Player.alive w (seat_after w b (j + 1))) eqn:E.
  - exists 1%nat. split; [lia|]. split; [exact E|]. intros i Hi. lia.
  - destruct m as [|m].
    { rewrite E in Halive. discriminate. }
    destruct (IH (S j)) as (k & Hk & Hk1 & Hk2); [lia| |].
    { replace (S j + S m)%nat with (j + S (S m))%nat by lia. exact Halive. }
    exists (S k). split; [lia|]. split.
    + replace (j + S k)%nat with (S j + k)%nat by lia. exact Hk1.
    + intros i Hi. destruct (decide (i = 1%nat)) as [->|Hne]; [exact E|].
      replace (j + i)%nat with (S j + (i - 1))%nat by lia.
      apply Hk2. lia.
Qed.

End BlockRound.

(** A Pass in the round against a block, when the next living seat after
    the responder is [k] places further. *)
Lemma block_challenge_pass_next w player block act challenge k :
  (player < length (players w))%nat ->
  (1 <= k < length (players w))%nat ->
  (forall j, (1 <= j < k)%nat ->
             Player.alive w (seat_after w player j) = false) ->
  Player.alive w (seat_after w player k) = true ->
  BlockChallenge.step player block act challenge CHALLENGE_PASS w
  = (Ok (if decide (seat_after w player k = act_actor act)
         then EndTurn act challenge (Some block) None None
         else BlockChallenge (seat_after w player k) block act challenge),
     update_player player (set_challenge_passed true) w).
Proof.
  intros Hp Hk Hdead Halive.
  unfold BlockChallenge.step, bind, modify.
  destruct (decide (CHALLENGE_PASS = CHALLENGE_PASS)); [|congruence].
  rewrite (next_alive_after_flag w player _ k) by (assumption || reflexivity).
  destruct (decide (seat_after w player k = act_actor act)); [reflexivity|].
  rewrite (next_alive_after_flag w player _ k) by (assumption || reflexivity).
  reflexivity.
Qed.

(** The seats asked in an all-pass round that is [j] places past the
    blocker [b], when the actor sits [m] places further and is alive. *)
Lemma block_round_from b block act challenge m :
  forall j fuel w,
    (b < length (players w))%nat ->
    (1 <= m)%nat ->
    (j + m < length (players w))%nat ->
    (m <= fuel)%nat ->
    act_actor act = seat_after w b (j + m) ->
    Player.alive w (seat_after w b (j + m)) = true ->
    block_round fuel
      (BlockChallenge (seat_after w b j) block act challenge) w
    = (seat_after w b j :: living_between w b (S j) (m - 1),
       Ok (EndTurn act challenge (Some block) None None)).
Proof.
  induction m as [m IH] using lt_wf_ind.
  intros j fuel w Hb Hm Hjm Hfuel Hactor Halive.
  destruct fuel as [|fuel]; [lia|].
  destruct (first_living w b m j Hm Halive) as (k & Hk & Hk1 & Hk2).
  cbn [block_round step].
  rewrite (block_challenge_pass_next w _ block act challenge k).
  - rewrite seat_after_add.
    destruct (decide (seat_after w b (j + k) = act_actor act)) as [Heq|Hne].
    + assert (k = m) as ->.
      { rewrite Hactor in Heq. apply seat_after_inj in Heq; lia. }
      destruct fuel; cbn [block_round];
        (rewrite living_between_dead;
         [reflexivity|];
         intros i Hi; replace i with (j + (i - j))%nat by lia;
         apply Hk2; lia).
    + assert (k < m)%nat as Hlt.
      { destruct (decide (k = m)) as [->|]; [|lia].
        rewrite Hactor in Hne. contradiction. }
      rewrite <- (seat_after_update w (seat_after w b j)
                                    (set_challenge_passed true) b (j + k)).
      rewrite (IH (m - k)%nat) ; try lia.
      * rewrite seat_after_update.
        rewrite living_between_update by reflexivity.
        replace (m - 1)%nat with ((k - 1) + (1 + (m - k - 1)))%nat by lia.
        rewrite living_between_app.
        rewrite (living_between_dead w b (S j) (k - 1)).
        2:{ intros i Hi. replace i with (j + (i - j))%nat by lia.
            apply Hk2. lia. }
        rewrite living_between_app.
        replace (S j + (k - 1))%nat with (j + k)%nat by lia.
        rewrite (living_between_alive w b (j + k) Hk1).
        replace (j + k + 1)%nat with (S (j + k)) by lia.
        reflexivity.
      * rewrite length_players_update. exact Hb.
      * rewrite length_players_update. lia.
      * rewrite seat_after_update.
        replace (j + k + (m - k))%nat with (j + m)%nat by lia. exact Hactor.
      * rewrite seat_after_update, alive_update by reflexivity.
        replace (j + k + (m - k))%nat with (j + m)%nat by lia. exact Halive.
  - apply seat_after_lt. lia.
  - lia.
  - intros i Hi. rewrite seat_after_add. apply Hk2. exact Hi.
  - rewrite seat_after_add. exact Hk1.
Qed.

(** C3, amended: a block declared in ForeignAidBlock or TargetBlock opens a
    BlockChallenge round whose first responder is the blocker itself.  A
    Pass hands the round to the next living seat after the responder and
    ends the turn, the block standing, when that seat is the actor.  So a
    round in which all pass asks the blocker and then every living seat
    after the blocker in seating order up to the actor, who is not asked. *)
Theorem block_challenge_round
        (w : World) (player : pid) (act : ActInfo)
        (challenge : option ChallengeInfo) (action : Action) (target : pid)
        (d : nat) :
  action <> BLOCK_PASS ->
  (player < length (players w))%nat ->
  (1 <= d < length (players w))%nat ->
  act_actor act = seat_after w player d ->
  Player.alive w (act_actor act) = true ->
  step (ForeignAidBlock player act challenge) BLOCK_FOREIGN_AID target w
  = (Ok (BlockChallenge player (mkBlockInfo player BLOCK_FOREIGN_AID) act
                        challenge), w)
  /\ step (TargetBlock player act challenge) action target w
     = (Ok (BlockChallenge player (mkBlockInfo player action) act challenge),
        w)
  /\ (forall block k,
         (1 <= k < length (players w))%nat ->
         (forall j, (1 <= j < k)%nat ->
                    Player.alive w (seat_after w player j) = false) ->
         Player.alive w (seat_after w player k) = true ->
         step (BlockChallenge player block act challenge) CHALLENGE_PASS
              target w
         = (Ok (if decide (seat_after w player k = act_actor act)
                then EndTurn act challenge (Some block) None None
                else BlockChallenge (seat_after w player k) block act
                                    challenge),
            update_player player (set_challenge_passed true) w))
  /\ (forall block,
         block_round (length (players w))
                     (BlockChallenge player block act challenge) w
         = (player :: living_between w player 1 (d - 1),
            Ok (EndTurn act challenge (Some block) None None))).
Proof.
  intros Hblock Hp Hd Hactor Halive.
  split; [reflexivity|]. split; [|split].
  - simpl. unfold TargetBlock.step.
    destruct (decide (action = BLOCK_PASS)); [contradiction | reflexivity].
  - intros block k Hk Hdead Hk1. simpl.
    apply block_challenge_pass_next; assumption.
  - intros block.
    pose proof (block_round_from player block act challenge d 0%nat
                                 (length (players w)) w) as Hround.
    rewrite seat_after_0 in Hround by exact Hp.
    cbn [Nat.add] in Hround.
    apply Hround; try lia.
    rewrite <- Hactor. exact Halive.
Qed.

Lemma block_challenge_round_witness :
  BLOCK_FOREIGN_AID <> BLOCK_PASS
  /\ (1 < length (players table_dukes))%nat
  /\ (1 <= 2 < length (players table_dukes))%nat
  /\ act_actor aid_act = seat_after table_dukes 1%nat 2%nat
  /\ Player.alive table_dukes (act_actor aid_act) = true
  /\ block_round (length (players table_dukes))
                 (BlockChallenge 1%nat aid_block aid_act None) table_dukes
     = ([1%nat; 2%nat],
        Ok (EndTurn aid_act None (Some aid_block) None None)).
Proof.
  assert (BLOCK_FOREIGN_AID <> BLOCK_PASS) as H1 by discriminate.
  assert (1 < length (players table_dukes))%nat as H2 by (simpl; lia).
  assert (1 <= 2 < length (players table_dukes))%nat as H3 by (simpl; lia).
  assert (act_actor aid_act = seat_after table_dukes 1%nat 2%nat) as H4
      by reflexivity.
  assert (Player.alive table_dukes (act_actor aid_act) = true) as H5
      by reflexivity.
  repeat (split; [assumption|]).
  destruct (block_challenge_round table_dukes 1%nat aid_act None
                                  BLOCK_FOREIGN_AID 1%nat 2%nat H1 H2 H3 H4 H5)
    as (_ & _ & _ & Hround).
  rewrite Hround. reflexivity.
Defined.

(** ** No phase steps to GameOver (C8) *)

Lemma step_not_game_over s action target w s' w' :
  s <> GameOver ->
  step s action target w = (Ok s', w') ->
  s' <> GameOver.
Proof.
  intros Hs Hstep.
  destruct s; simpl in Hstep; try congruence.
  - unfold Start.step in Hstep. crack_step Hstep; congruence.
  - unfold Challenge.step in Hstep. crack_step Hstep; congruence.
  - unfold ChallengeResolve.step in Hstep. crack_step Hstep; congruence.
  - unfold ForeignAidBlock.step in Hstep. crack_step Hstep; congruence.
  - unfold TargetBlock.step in Hstep. crack_step Hstep; congruence.
  - unfold BlockChallenge.step in Hstep. crack_step Hstep; congruence.
  - unfold BlockChallengeResolve.step, BlockChallengeResolve.toEndTurn
      in Hstep.
    crack_step Hstep; congruence.
  - unfold ActionResolve.step in Hstep. crack_step Hstep; congruence.
  - unfold ExchangeResolve.step in Hstep. crack_step Hstep; congruence.
  - unfold ExchangeTwoResolve.step in Hstep. crack_step Hstep; congruence.
  - discriminate Hstep.
Qed.

Lemma game_over_self_loop action target w :
  step GameOver action target w = (Ok GameOver, w).
Proof. reflexivity. Qed.

Lemma reaches_game_over_inv sw sw' :
  reaches sw sw' -> fst sw' = GameOver -> fst sw = GameOver.
Proof.
  induction 1 as [sw|s w action target s' w' sw'' Hstep _ IH];
    intros Hend; [exact Hend|].
  simpl. destruct (decide (s = GameOver)) as [Heq|Hne]; [exact Heq|].
  exfalso. apply (step_not_game_over s action target w s' w' Hne Hstep).
  apply IH. exact Hend.
Qed.

Lemma end_of_turn_not_game_over e :
  turn e <> GameOver -> turn (snd (end_of_turn e)) <> GameOver.
Proof.
  intros He. unfold end_of_turn.
  destruct (turn e) eqn:Et; simpl; try (rewrite Et; exact He).
  destruct (end_turn_scan _ _ _) as [[dead|] w1]; simpl; [discriminate|].
  destruct (agents e) as [|winner [|other rest]]; simpl.
  - rewrite Et. discriminate.
  - destruct (decide _); simpl; [discriminate | rewrite Et; discriminate].
  - destruct (Player.next_alive_loop _ _ _ _); simpl;
      [discriminate | rewrite Et; discriminate].
Qed.

Lemma env_step_not_game_over action e :
  turn e <> GameOver -> turn (snd (env_step action e)) <> GameOver.
Proof.
  intros He. unfold env_step. destruct action as [action|].
  - destruct (turn_player (turn e) (world e)) as [[player|x] w0];
      [|exact He].
    destruct (acts e !! action) as [[action_obj tgt]|]; [|exact He].
    destruct (bool_decide _); [|exact He].
    destruct (negb _); [exact He|].
    destruct (step (turn e) action_obj _ (world e)) as [[s|x] w1] eqn:Hstep;
      [|exact He].
    apply end_of_turn_not_game_over. simpl.
    apply (step_not_game_over _ _ _ _ _ _ He Hstep).
  - destruct (turn e) eqn:Et; try (simpl; rewrite Et; discriminate).
    + destruct _player as [agent|]; [|simpl; rewrite Et; discriminate].
      destruct (list_remove agent (agents e)) as [ags|];
        [|simpl; rewrite Et; discriminate].
      destruct (existsb _ _); [|simpl; discriminate].
      apply end_of_turn_not_game_over. simpl. discriminate.
    + contradiction.
Qed.

(** C8 fails as stated: seat 1 loses its last card to a Coup, one player
    remains alive, and the phase the step returns is EndTurn.  No sequence
    of steps leads from there to GameOver, and the driver, once the dead
    agent is removed, keeps an EndTurn whose player is the survivor. *)
Lemma game_over_not_reached_counterexample :
  step (ActionResolve 1%nat coup_act None None None) LOSE_AMBASSADOR 1%nat
       table_duel
  = (Ok (EndTurn coup_act None None None None),
     snd (Player.lose 1%nat AMBASSADOR table_duel))
  /\ alive_count (snd (Player.lose 1%nat AMBASSADOR table_duel)) = 1%nat
  /\ ~ (exists w',
           reaches (ActionResolve 1%nat coup_act None None None, table_duel)
                   (GameOver, w'))
  /\ turn (snd (env_step None (snd (env_step (Some 0%nat) duel_env))))
     = EndTurn coup_act None None None (Some 0%nat).
Proof.
  split; [reflexivity|]. split; [reflexivity|]. split; [|reflexivity].
  intros [w' Hreach].
  apply reaches_game_over_inv in Hreach; [|reflexivity].
  discriminate Hreach.
Qed.

(** C8, amended: GameOver loops on itself under step, and that is the only
    way to be in it.  From any other phase no sequence of steps reaches
    GameOver: a turn ends in EndTurn, whose own step raises
    NotImplementedError, and the driver never replaces the turn by
    GameOver either, however many players remain alive. *)
Theorem game_over_is_isolated (s : State) (w : World) (e : Env) :
  s <> GameOver ->
  turn e <> GameOver ->
  (forall action target w0, step GameOver action target w0 = (Ok GameOver, w0))
  /\ (forall action target s' w',
         step s action target w = (Ok s', w') -> s' <> GameOver)
  /\ (forall w', ~ reaches (s, w) (GameOver, w'))
  /\ (forall act chl blk bchl pl action target,
         step (EndTurn act chl blk bchl pl) action target w
         = (Raise NotImplementedError, w))
  /\ (forall action, turn (snd (env_step action e)) <> GameOver).
Proof.
  intros Hs He.
  split; [intros; reflexivity|].
  split; [intros action target s' w'; apply step_not_game_over, Hs|].
  split.
  - intros w' Hreach. apply Hs.
    apply (reaches_game_over_inv _ _ Hreach). reflexivity.
  - split; [intros; reflexivity|].
    intros action. apply env_step_not_game_over, He.
Qed.

Lemma game_over_is_isolated_witness :
  ActionResolve 1%nat coup_act None None None <> GameOver
  /\ turn duel_env <> GameOver
  /\ (forall w',
         ~ reaches (ActionResolve 1%nat coup_act None None None, table_duel)
                   (GameOver, w')).
Proof.
  assert (ActionResolve 1%nat coup_act None None None <> GameOver) as Hs
      by discriminate.
  assert (turn duel_env <> GameOver) as He by discriminate.
  split; [exact Hs|]. split; [exact He|].
  apply (game_over_is_isolated _ table_duel duel_env Hs He).
Defined.

(** ** A challenge against a role the actor holds (C6) *)

Section Redraw.

Import Counter.

Lemma elements_cons k v c :
  length (elements ((k, v) :: c))
  = (Z.to_nat v + length (elements c))%nat.
Proof.
  unfold elements. simpl. rewrite length_app, repeat_length. reflexivity.
Qed.

Lemma elements_set_length c k v :
  (length (elements (set c k v)) + Z.to_nat (get c k))%nat
  = (length (elements c) + Z.to_nat v)%nat.
Proof.
  induction c as [|[k0 v0] c IH]; cbn [set get].
  - rewrite elements_cons. simpl. lia.
  - destruct (decide (k = k0)) as [->|Hne].
    + rewrite !elements_cons. lia.
    + rewrite !elements_cons. lia.
Qed.

Lemma elements_incr_length c k :
  0 <= get c k ->
  length (elements (incr c k)) = S (length (elements c)).
Proof.
  intros Hk. unfold incr.
  pose proof (elements_set_length c k (get c k + 1)) as H.
  replace (Z.to_nat (get c k + 1)) with (S (Z.to_nat (get c k))) in H by lia.
  lia.
Qed.

Lemma holds_contains w p card :
  holds w p card = true -> contains (cards (player_at w p)) card = true.
Proof.
  unfold holds. intros H. apply bool_decide_eq_true_1 in H.
  destruct (contains (cards (player_at w p)) card) eqn:E; [reflexivity|].
  apply contains_false_get in E. contradiction.
Qed.

End Redraw.

(** C6 fails as stated: seat 0 holds two Dukes and its Tax is called by
    seat 1.  The challenger is the loser, but the Duke put back is replaced
    by the Contessa drawn from the deck, so the actor's count of Dukes goes
    from two to one. *)
Lemma challenged_hand_changes_counterexample :
  holds table_dukes (act_actor tax_act) DUKE = true
  /\ fst (step (Challenge 1%nat tax_act) CHALLENGE_CALL 1%nat table_dukes)
     = Ok (ChallengeResolve 1%nat tax_act
                            (mkChallengeInfo on_action 1%nat 1%nat))
  /\ ~ (forall role,
           Counter.get
             (cards
                (player_at
                   (snd (step (Challenge 1%nat tax_act) CHALLENGE_CALL 1%nat
                              table_dukes))
                   (act_actor tax_act)))
             role
           = Counter.get (cards (player_at table_dukes (act_actor tax_act)))
                         role).
Proof.
  split; [reflexivity|]. split; [reflexivity|].
  intros H. specialize (H DUKE). vm_compute in H. discriminate H.
Qed.

(** C6, amended: when a responder plays Call and the actor holds the role
    its action claims, the challenger is the computed loser (the next phase
    is ChallengeResolve with the challenger as responder), and, the deck
    not being empty, the actor's hand keeps its total size: it is the old
    hand less one copy of the claimed role plus the one card drawn.  The
    count of each role is as before only when the card drawn is of the
    claimed role. *)
Theorem challenged_holder_keeps_hand_size
        (w : World) (player : pid) (act : ActInfo) (card : CARD)
        (target : pid) :
  action_card (act_action act) = Some card ->
  holds w (act_actor act) card = true ->
  (act_actor act < length (players w))%nat ->
  Counter.wf_counter (cards (player_at w (act_actor act))) ->
  0 <= Counter.get (deck w) card ->
  (1 <= length (Counter.elements (deck w)))%nat ->
  exists drawn w',
    step (Challenge player act) CHALLENGE_CALL target w
    = (Ok (ChallengeResolve player act
                            (mkChallengeInfo on_action player player)), w')
    /\ Counter.total (cards (player_at w' (act_actor act)))
       = Counter.total (cards (player_at w (act_actor act)))
    /\ (forall role,
           Counter.get (cards (player_at w' (act_actor act))) role
           = Counter.get (cards (player_at w (act_actor act))) role
             - unit_at card role + unit_at drawn role)
    /\ ((forall role,
            Counter.get (cards (player_at w' (act_actor act))) role
            = Counter.get (cards (player_at w (act_actor act))) role)
        <-> drawn = card)
    /\ (forall q, q <> act_actor act -> player_at w' q = player_at w q).
Proof.
  intros Hcard Hholds Hseat Hwf Hdeck Hnonempty.
  pose proof (holds_contains _ _ _ Hholds) as Hheld.
  pose proof (putback_ok w (act_actor act) card Hheld) as Hput.
  set (w2 := set_deck (Counter.incr (deck w) card)
               (update_player (act_actor act)
                  (fun pl => set_cards (Counter.decr_del (cards pl) card) pl)
                  w)) in *.
  assert (length (players w2) = length (players w)) as Hlen
      by apply length_insert.
  assert (cards (player_at w2 (act_actor act))
          = Counter.decr_del (cards (player_at w (act_actor act))) card)
    as Hhand2.
  { unfold w2. rewrite player_at_set_deck.
    rewrite player_at_update_eq by exact Hseat. reflexivity. }
  destruct (player_draw_ok w2 (act_actor act)) as (drawn & _ & Hdraw).
  { unfold w2. simpl. rewrite elements_incr_length by exact Hdeck. lia. }
  set (w3 := update_player (act_actor act)
               (fun pl => set_cards (Counter.incr (cards pl) drawn) pl)
               (mkWorld (Counter.decr_del (deck w2) drawn) (players w2)
                        (rng w2) (S (rng_pos w2)))) in *.
  assert (cards (player_at w3 (act_actor act))
          = Counter.incr
              (Counter.decr_del (cards (player_at w (act_actor act))) card)
              drawn) as Hhand3.
  { unfold w3.
    rewrite player_at_update_eq by (cbn [players]; rewrite Hlen; exact Hseat).
    change (player_at (mkWorld _ (players w2) _ _) (act_actor act))
      with (player_at w2 (act_actor act)).
    simpl. rewrite Hhand2. reflexivity. }
  assert (forall role,
             Counter.get (cards (player_at w3 (act_actor act))) role
             = Counter.get (cards (player_at w (act_actor act))) role
               - unit_at card role + unit_at drawn role) as Hroles.
  { intros role. rewrite Hhand3, get_incr, get_decr_del. reflexivity. }
  exists drawn, w3. split; [|split; [|split; [exact Hroles|split]]].
  - simpl. unfold Challenge.step, bind, read. rewrite Hcard. simpl.
    rewrite Hholds, Hput, Hdraw. reflexivity.
  - rewrite Hhand3, total_incr, total_decr_del by exact Hwf. lia.
  - split.
    + intros Hsame. specialize (Hsame card).
      rewrite Hroles in Hsame. unfold unit_at in Hsame.
      destruct (decide (card = card)); [|congruence].
      destruct (decide (drawn = card)); [assumption|lia].
    + intros -> role. rewrite Hroles. lia.
  - intros q Hq. unfold w3. rewrite player_at_update_ne by congruence.
    change (player_at (mkWorld _ (players w2) _ _) q) with (player_at w2 q).
    unfold w2. rewrite player_at_set_deck. apply removed_others. exact Hq.
Qed.

Lemma challenged_holder_keeps_hand_size_witness :
  action_card (act_action tax_act) = Some DUKE
  /\ holds table_dukes (act_actor tax_act) DUKE = true
  /\ (act_actor tax_act < length (players table_dukes))%nat
  /\ Counter.wf_counter (cards (player_at table_dukes (act_actor tax_act)))
  /\ 0 <= Counter.get (deck table_dukes) DUKE
  /\ (1 <= length (Counter.elements (deck table_dukes)))%nat
  /\ exists w',
      step (Challenge 1%nat tax_act) CHALLENGE_CALL 1%nat table_dukes
      = (Ok (ChallengeResolve 1%nat tax_act
                              (mkChallengeInfo on_action 1%nat 1%nat)), w')
      /\ Counter.total (cards (player_at w' (act_actor tax_act))) = 2.
Proof.
  assert (action_card (act_action tax_act) = Some DUKE) as H1
      by reflexivity.
  assert (holds table_dukes (act_actor tax_act) DUKE = true) as H2
      by reflexivity.
  assert (act_actor tax_act < length (players table_dukes))%nat as H3
      by (simpl; lia).
  assert (Counter.wf_counter
            (cards (player_at table_dukes (act_actor tax_act)))) as H4
      by apply list.NoDup_singleton.
  assert (0 <= Counter.get (deck table_dukes) DUKE) as H5 by (simpl; lia).
  assert (1 <= length (Counter.elements (deck table_dukes)))%nat as H6
      by (simpl; lia).
  repeat (split; [assumption|]).
  destruct (challenged_holder_keeps_hand_size
              table_dukes 1%nat tax_act DUKE 1%nat H1 H2 H3 H4 H5 H6)
    as (drawn & w' & Hstep & Htotal & _).
  exists w'. split; [exact Hstep | exact Htotal].
Defined.

(** ** The flag set by a Pass (C9) *)

Section PassFlags.

Variables (w : World) (player : pid).

Lemma enum_loop_update f skip_dead self fuel : forall i q,
  (forall pl, cards (f pl) = cards pl) ->
  Player.enum_loop fuel (update_player player f w) skip_dead self i q
  = Player.enum_loop fuel w skip_dead self i q.
Proof.
  induction fuel as [|fuel IH]; intros i q Hf; [reflexivity|].
  simpl. rewrite alive_update by exact Hf.
  rewrite next_update, IH by exact Hf. reflexivity.
Qed.

Lemma enum_update f skip_dead skip_self self :
  (forall pl, cards (f pl) = cards pl) ->
  Player.enum (update_player player f w) skip_dead skip_self self
  = Player.enum w skip_dead skip_self self.
Proof.
  intros Hf. unfold Player.enum.
  rewrite alive_update, length_players_update, next_update by exact Hf.
  rewrite enum_loop_update by exact Hf. reflexivity.
Qed.

Lemma block_challenge_pass_world block act challenge :
  snd (BlockChallenge.step player block act challenge CHALLENGE_PASS w)
  = update_player player (set_challenge_passed true) w.
Proof.
  unfold BlockChallenge.step, bind, modify, Player.next_alive.
  destruct (decide (CHALLENGE_PASS = CHALLENGE_PASS)); [|congruence].
  destruct (Player.next_alive_loop _ _ _ _) as [nxt|x];
    [|reflexivity].
  destruct (decide (nxt = act_actor act)); [reflexivity|].
  destruct (Player.next_alive_loop _ _ _ _); reflexivity.
Qed.

End PassFlags.

(** C9, as the code has it: a Pass in the round against a block sets the
    responder's challenge-passed flag, the one of the action-challenge
    round.  The block-challenge-passed flag of every seat stays as it was,
    and so does the observation vector of a block challenge, which reads
    that flag. *)
Theorem block_challenge_pass_sets_challenge_passed
        (w : World) (player : pid) (block : BlockInfo) (act : ActInfo)
        (challenge : option ChallengeInfo) (target : pid) :
  snd (step (BlockChallenge player block act challenge) CHALLENGE_PASS target w)
  = update_player player (set_challenge_passed true) w
  /\ (forall q,
         block_challenge_passed
           (player_at
              (snd (step (BlockChallenge player block act challenge)
                         CHALLENGE_PASS target w))
              q)
         = block_challenge_passed (player_at w q))
  /\ (forall challenger loser observer,
         observe_challenge
           (snd (step (BlockChallenge player block act challenge)
                      CHALLENGE_PASS target w))
           (Some (mkChallengeInfo on_block challenger loser)) observer
         = observe_challenge
             w (Some (mkChallengeInfo on_block challenger loser)) observer).
Proof.
  cbn [step]. rewrite block_challenge_pass_world.
  split; [reflexivity|]. split.
  - intros q. apply (player_at_update_field block_challenge_passed).
    reflexivity.
  - intros challenger loser observer. unfold observe_challenge.
    rewrite enum_update by reflexivity. cbn [chl_type].
    f_equal. apply map_ext. intros q.
    apply (player_at_update_field block_challenge_passed). reflexivity.
Qed.

(** On the table of the blocked Foreign Aid: seat 1 passes on its own
    block; its challenge-passed flag is raised and its
    block-challenge-passed flag is not. *)
Example block_challenge_pass_on_table :
  challenge_passed
    (player_at
       (snd (step (BlockChallenge 1%nat aid_block aid_act None) CHALLENGE_PASS
                  1%nat table_dukes))
       1%nat)
  = true
  /\ block_challenge_passed
       (player_at
          (snd (step (BlockChallenge 1%nat aid_block aid_act None)
                     CHALLENGE_PASS 1%nat table_dukes))
          1%nat)
     = false.
Proof. split; reflexivity. Qed.

(** The sibling rounds set the flag of their own round: a Pass on an action
    challenge raises challenge-passed, a Pass on a block raises
    block-passed. *)
Example sibling_rounds_set_their_flag :
  challenge_passed
    (player_at
       (snd (step (Challenge 1%nat tax_act) CHALLENGE_PASS 1%nat table_dukes))
       1%nat)
  = true
  /\ block_passed
       (player_at
          (snd (step (ForeignAidBlock 1%nat aid_act None) BLOCK_PASS 1%nat
                     table_dukes))
          1%nat)
     = true
  /\ block_passed
       (player_at
          (snd (step (TargetBlock 1%nat steal_act None) BLOCK_PASS 1%nat
                     table_steal))
          1%nat)
     = true.
Proof. repeat split; reflexivity. Qed.

(** ** Scenarios of tests/test_game_mechanics.py

    The runs of the test suite, replayed on the embedding with seat 0 as the
    agent to move; each line gives the outcome of the last call, the class
    of the turn, its player, and coins and hand size seat by seat. *)

Example test_income_action :
  seen (env_play [Some (INCOME, 0)]
          (game3 (table9 (fresh 2 [(DUKE, 1); (CAPTAIN, 1)])
                         (fresh 2 [(DUKE, 2)]) (fresh 2 [(CONTESSA, 2)]))))
  = (Ok tt, PStart, Ok 1%nat, [(3, 2); (2, 2); (2, 2)]).
Proof. reflexivity. Qed.

Example test_steal_from_target_with_one_coin :
  seen (env_play [Some (STEAL, 1); Some (CHALLENGE_PASS, 0);
                  Some (CHALLENGE_PASS, 0); Some (BLOCK_PASS, 0)]
          (game3 (table9 (fresh 2 [(CAPTAIN, 2)]) (fresh 1 [(DUKE, 2)])
                         (fresh 2 [(CONTESSA, 2)]))))
  = (Ok tt, PStart, Ok 1%nat, [(3, 2); (0, 2); (2, 2)]).
Proof. reflexivity. Qed.

Example test_failed_challenge :
  seen (env_play [Some (TAX, 0); Some (CHALLENGE_CALL, 0)]
          (game3 (table9 (fresh 2 [(DUKE, 2)]) (fresh 2 [(AMBASSADOR, 2)])
                         (fresh 2 [(CONTESSA, 2)]))))
  = (Ok tt, PChallengeResolve, Ok 1%nat, [(2, 2); (2, 2); (2, 2)])
  /\ seen (env_play [Some (TAX, 0); Some (CHALLENGE_CALL, 0);
                     Some (LOSE_AMBASSADOR, 0)]
             (game3 (table9 (fresh 2 [(DUKE, 2)]) (fresh 2 [(AMBASSADOR, 2)])
                            (fresh 2 [(CONTESSA, 2)]))))
     = (Ok tt, PStart, Ok 1%nat, [(5, 2); (2, 1); (2, 2)]).
Proof. split; reflexivity. Qed.

Example test_foreign_aid_with_block :
  seen (env_play [Some (FOREIGN_AID, 0); Some (BLOCK_FOREIGN_AID, 0)]
          (game3 (table9 (fresh 2 [(AMBASSADOR, 2)]) (fresh 2 [(DUKE, 2)])
                         (fresh 2 [(CONTESSA, 2)]))))
  = (Ok tt, PBlockChallenge, Ok 1%nat, [(2, 2); (2, 2); (2, 2)])
  /\ seen (env_play [Some (FOREIGN_AID, 0); Some (BLOCK_FOREIGN_AID, 0);
                     Some (CHALLENGE_PASS, 0); Some (CHALLENGE_PASS, 0)]
             (game3 (table9 (fresh 2 [(AMBASSADOR, 2)]) (fresh 2 [(DUKE, 2)])
                            (fresh 2 [(CONTESSA, 2)]))))
     = (Ok tt, PStart, Ok 1%nat, [(2, 2); (2, 2); (2, 2)]).
Proof. split; reflexivity. Qed.

(** The test asserts that the player to respond in BlockChallenge is the
    target, that is the blocker, who passes before seat 2 calls. *)
Example test_successful_block_challenge :
  seen (env_play [Some (ASSASSINATE, 1); Some (CHALLENGE_PASS, 0);
                  Some (CHALLENGE_PASS, 0); Some (BLOCK_ASSASSINATE, 0)]
          (game3 (table9 (fresh 3 [(ASSASSIN, 2)]) (fresh 2 [(DUKE, 2)])
                         (fresh 2 [(CONTESSA, 2)]))))
  = (Ok tt, PBlockChallenge, Ok 1%nat, [(0, 2); (2, 2); (2, 2)])
  /\ seen (env_play [Some (ASSASSINATE, 1); Some (CHALLENGE_PASS, 0);
                     Some (CHALLENGE_PASS, 0); Some (BLOCK_ASSASSINATE, 0);
                     Some (CHALLENGE_PASS, 0); Some (CHALLENGE_CALL, 0)]
             (game3 (table9 (fresh 3 [(ASSASSIN, 2)]) (fresh 2 [(DUKE, 2)])
                            (fresh 2 [(CONTESSA, 2)]))))
     = (Ok tt, PBlockChallengeResolve, Ok 1%nat, [(0, 2); (2, 2); (2, 2)])
  /\ seen (env_play [Some (ASSASSINATE, 1); Some (CHALLENGE_PASS, 0);
                     Some (CHALLENGE_PASS, 0); Some (BLOCK_ASSASSINATE, 0);
                     Some (CHALLENGE_PASS, 0); Some (CHALLENGE_CALL, 0);
                     Some (LOSE_DUKE, 0); Some (LOSE_DUKE, 0)]
             (game3 (table9 (fresh 3 [(ASSASSIN, 2)]) (fresh 2 [(DUKE, 2)])
                            (fresh 2 [(CONTESSA, 2)]))))
     = (Ok tt, PEndTurn, Ok 1%nat, [(0, 2); (2, 0); (2, 2)])
  /\ agents
       (snd (env_play [Some (ASSASSINATE, 1); Some (CHALLENGE_PASS, 0);
                       Some (CHALLENGE_PASS, 0); Some (BLOCK_ASSASSINATE, 0);
                       Some (CHALLENGE_PASS, 0); Some (CHALLENGE_CALL, 0);
                       Some (LOSE_DUKE, 0); Some (LOSE_DUKE, 0); None]
               (game3 (table9 (fresh 3 [(ASSASSIN, 2)]) (fresh 2 [(DUKE, 2)])
                              (fresh 2 [(CONTESSA, 2)])))))
     = [0%nat; 2%nat].
Proof. repeat split; reflexivity. Qed.

Example test_exchange_no_challenge :
  seen (env_play [Some (EXCHANGE, 0); Some (CHALLENGE_PASS, 0);
                  Some (CHALLENGE_PASS, 0)]
          (game3 (table9 (fresh 2 [(AMBASSADOR, 2)]) (fresh 2 [(DUKE, 2)])
                         (fresh 2 [(CONTESSA, 2)]))))
  = (Ok tt, PExchangeResolve, Ok 0%nat, [(2, 4); (2, 2); (2, 2)])
  /\ seen (env_play [Some (EXCHANGE, 0); Some (CHALLENGE_PASS, 0);
                     Some (CHALLENGE_PASS, 0); Some (LOSE_AMBASSADOR, 0);
                     Some (LOSE_AMBASSADOR, 0)]
             (game3 (table9 (fresh 2 [(AMBASSADOR, 2)]) (fresh 2 [(DUKE, 2)])
                            (fresh 2 [(CONTESSA, 2)]))))
     = (Ok tt, PStart, Ok 1%nat, [(2, 2); (2, 2); (2, 2)]).
Proof. split; reflexivity. Qed.

Example test_game_ends_when_one_player_left :
  seen (env_play [Some (LOSE_AMBASSADOR, 0)] duel_env)
  = (Ok tt, PEndTurn, Ok 1%nat, [(0, 1); (2, 0)])
  /\ agents (snd (env_play [Some (LOSE_AMBASSADOR, 0); None] duel_env))
     = [0%nat].
Proof. split; reflexivity. Qed.

(** * Further properties *)

(** ** What every step is made of *)

Section Keeps.

Variable R : World -> World -> Prop.
Hypothesis R_refl : forall w, R w w.
Hypothesis R_trans : forall w1 w2 w3, R w1 w2 -> R w2 w3 -> R w1 w3.

Lemma keeps_ret {A} (a : A) : keeps R (ret a).
Proof. intros w. apply R_refl. Qed.

Lemma keeps_raise {A} (x : exn) : keeps R (raise (A := A) x).
Proof. intros w. apply R_refl. Qed.

Lemma keeps_read {A} (f : World -> A) : keeps R (read f).
Proof. intros w. apply R_refl. Qed.

Lemma keeps_bind {A B} (m : M A) (k : A -> M B) :
  keeps R m -> (forall a, keeps R (k a)) -> keeps R (bind m k).
Proof.
  intros Hm Hk w. unfold bind. specialize (Hm w).
  destruct (m w) as [[a|x] w1]; simpl in *; [|exact Hm].
  apply (R_trans _ _ _ Hm). apply Hk.
Qed.

Lemma keeps_assert_card c : keeps R (assert_card c).
Proof. destruct c; [apply keeps_ret | apply keeps_raise]. Qed.

Lemma keeps_next_alive p : keeps R (Player.next_alive p).
Proof. intros w. apply R_refl. Qed.

Hypothesis R_draw : forall p, keeps R (Player.draw p).
Hypothesis R_putback : forall p card, keeps R (Player.putback p card).
Hypothesis R_lose : forall p card, keeps R (Player.lose p card).
Hypothesis R_flag :
  forall p f,
    (forall pl, cards (f pl) = cards pl /\ coins (f pl) = coins pl) ->
    keeps R (modify (update_player p f)).
Hypothesis R_gain : forall p d, 0 <= d -> keeps R (add_coins p d).
Hypothesis R_steal : forall act, keeps R (resolve_steal act).

(** Every step of a phase other than Start is a sequence of draws,
    putbacks, losses, raised flags, coin gains and steals: a relation that
    each of these keeps is kept by the step. *)
Lemma step_keeps turn action target :
  (forall p, turn <> Start p) -> keeps R (step turn action target).
Proof.
  intros Hturn. destruct turn; cbn [step];
    [exfalso; exact (Hturn _ eq_refl) | ..];
    unfold Challenge.step, ChallengeResolve.step, ForeignAidBlock.step,
      TargetBlock.step, BlockChallenge.step, BlockChallengeResolve.step,
      ActionResolve.step, ExchangeResolve.step, ExchangeTwoResolve.step,
      EndTurn.step, GameOver.step;
    repeat
      first
        [ apply keeps_ret
        | apply keeps_raise
        | apply keeps_read
        | apply keeps_assert_card
        | apply keeps_next_alive
        | apply R_draw
        | apply R_putback
        | apply R_lose
        | apply R_steal
        | apply R_gain; lia
        | apply R_flag; intros pl; split; reflexivity
        | apply keeps_bind; [|intros ?]
        | match goal with
          | |- keeps _ (if ?b then _ else _) => destruct b
          | |- keeps _ (match ?x with _ => _ end) => destruct x
          end ].
Qed.

Lemma end_turn_scan_keeps seats ags w :
  R w (snd (end_turn_scan seats ags w)).
Proof.
  revert w. induction seats as [|p rest IH]; intros w; cbn [end_turn_scan].
  - apply R_refl.
  - assert (H1 : R w (update_player p reset_flags w)).
    { apply (R_flag p reset_flags). intros pl. split; reflexivity. }
    cbv zeta. destruct (_ && _); [exact H1|].
    apply (R_trans _ _ _ H1). apply IH.
Qed.

Lemma end_of_turn_keeps e : R (world e) (world (snd (end_of_turn e))).
Proof.
  unfold end_of_turn. destruct (turn e); try apply R_refl.
  pose proof (end_turn_scan_keeps (seq 0 (length (players (world e))))
                (agents e) (world e)) as Hscan.
  destruct (end_turn_scan _ _ _) as [dead w1]. cbn [snd] in Hscan.
  destruct dead as [p|]; [exact Hscan|].
  destruct (agents e) as [|a [|b l]]; [exact Hscan| |].
  - destruct (decide _); exact Hscan.
  - pose proof (keeps_next_alive (act_actor act) w1) as Hn.
    destruct (Player.next_alive _ _) as [[nxt|x] w2]; cbn [snd] in *;
      exact (R_trans _ _ _ Hscan Hn).
Qed.

(** The driver hands [step] only moves of the mask, on the store it holds,
    and clears flags afterwards. *)
Lemma env_step_keeps action e :
  (forall a tgt target,
      (a, tgt) ∈ action_mask (world e) (turn e) ->
      R (world e) (snd (step (turn e) a target (world e)))) ->
  R (world e) (world (snd (env_step action e))).
Proof.
  intros Hstep. unfold env_step. destruct action as [action|].
  - destruct (turn_player _ _) as [[player|x] w0]; [|apply R_refl].
    destruct (acts e !! action) as [[a tgt]|]; [|apply R_refl].
    case_bool_decide as Hmask; [|apply R_refl].
    cbv zeta. destruct (negb _); [apply R_refl|].
    specialize (Hstep a tgt
                  (Nat.iter (Z.to_nat tgt) (Player.next (world e)) player)
                  Hmask).
    destruct (step _ _ _ _) as [[s|x] w1]; cbn [snd] in Hstep.
    + apply (R_trans _ _ _ Hstep).
      apply (end_of_turn_keeps (mkEnv w1 s (agents e) (n_turn e)
                                      (terminations e))).
    + exact Hstep.
  - destruct (turn e) as [| | | | | | | | | |act chl blk bchl [agent|]|];
      try apply R_refl.
    destruct (list_remove agent (agents e)) as [ags|]; [|apply R_refl].
    cbv zeta. destruct (existsb _ _); [|apply R_refl].
    exact (end_of_turn_keeps
             (mkEnv (world e) _ ags (n_turn e)
                    (dict_del agent (terminations e)))).
Qed.

(** Start pays for Coup and Assassinate, which is more than a gain. *)
Hypothesis R_pay : forall p d, keeps R (add_coins p d).

Lemma start_keeps player action target :
  keeps R (Start.step player action target).
Proof.
  unfold Start.step. cbv zeta.
  repeat
    first
      [ apply keeps_ret
      | apply keeps_raise
      | apply keeps_next_alive
      | apply R_pay
      | apply keeps_bind; [|intros ?]
      | match goal with
        | |- keeps _ (if ?b then _ else _) => destruct b
        | |- keeps _ (match ?x with _ => _ end) => destruct x
        end ].
Qed.

Lemma any_step_keeps turn action target : keeps R (step turn action target).
Proof.
  destruct turn; try (apply step_keeps; discriminate).
  apply start_keeps.
Qed.

End Keeps.

(** ** No step adds a card *)

Lemma hands_count_update_cards w p f role :
  cards (f (player_at w p)) = cards (player_at w p) ->
  hands_count (update_player p f w) role = hands_count w role.
Proof.
  intros Hf. destruct (Nat.lt_ge_cases p (length (players w))) as [H|H].
  - rewrite hands_count_update by exact H. rewrite Hf. lia.
  - rewrite player_at_update_out by exact H. reflexivity.
Qed.

Lemma in_play_update_cards w p f role :
  cards (f (player_at w p)) = cards (player_at w p) ->
  in_play (update_player p f w) role = in_play w role.
Proof.
  intros Hf. unfold in_play. rewrite hands_count_update_cards by exact Hf.
  reflexivity.
Qed.

Lemma unit_at_range k k' : 0 <= unit_at k k' <= 1.
Proof. unfold unit_at. destruct (decide _); lia. Qed.

Lemma no_player_contains w p card :
  (length (players w) <= p)%nat ->
  Counter.contains (cards (player_at w p)) card = false.
Proof.
  intros H. unfold player_at. rewrite lookup_ge_None_2 by exact H.
  reflexivity.
Qed.

Lemma run_op_in_play op w role :
  in_play (snd (run_op op w)) role <= in_play w role.
Proof.
  destruct (Nat.lt_ge_cases (op_seat op) (length (players w))) as [H|H].
  - pose proof (run_op_conserves op w role 0 H) as Hc.
    unfold role_total in Hc. unfold in_play.
    assert (0 <= lost_by op (fst (run_op op w)) role).
    { unfold lost_by. destruct op; try lia.
      destruct (fst _); [apply unit_at_range | lia]. }
    lia.
  - destruct op as [p|p card|p card]; cbn [run_op op_seat] in *.
    + destruct (Nat.lt_ge_cases (length (Counter.elements (deck w))) 2)
        as [Hd|Hd].
      * rewrite player_draw_raise by lia. cbn [snd]. lia.
      * destruct (player_draw_ok w p Hd) as (card & _ & ->). cbn [snd].
        rewrite player_at_update_out by exact H.
        unfold in_play. cbn [deck]. rewrite get_decr_del.
        pose proof (unit_at_range card role).
        change (hands_count (mkWorld _ (players w) _ _) role)
          with (hands_count w role).
        lia.
    + rewrite putback_raise by (apply no_player_contains; exact H).
      cbn [snd]. lia.
    + rewrite lose_raise by (apply no_player_contains; exact H).
      cbn [snd]. lia.
Qed.

Lemma no_new_card_refl w : no_new_card w w.
Proof. split; [reflexivity | intros; lia]. Qed.

Lemma no_new_card_trans w1 w2 w3 :
  no_new_card w1 w2 -> no_new_card w2 w3 -> no_new_card w1 w3.
Proof.
  intros [H1 H1'] [H2 H2']. split; [congruence|].
  intros role. specialize (H1' role). specialize (H2' role). lia.
Qed.

Lemma no_new_card_op op : keeps no_new_card (run_op op).
Proof.
  intros w. split; [apply run_op_length | intros role; apply run_op_in_play].
Qed.

Lemma no_new_card_update p f :
  (forall pl, cards (f pl) = cards pl) ->
  keeps no_new_card (modify (update_player p f)).
Proof.
  intros Hf w. cbn [modify snd]. split.
  - apply length_players_update.
  - intros role. rewrite in_play_update_cards by apply Hf. lia.
Qed.

Lemma no_new_card_steal act : keeps no_new_card (resolve_steal act).
Proof.
  intros w. rewrite resolve_steal_run. cbn [snd].
  eapply no_new_card_trans.
  - apply (no_new_card_update (act_actor act)
             (fun pl => set_coins
                (coins pl + Z.min 2 (coins (player_at w (act_target act))))
                pl)).
    reflexivity.
  - apply (no_new_card_update (act_target act)
             (fun pl => set_coins
                (coins pl - Z.min 2 (coins (player_at w (act_target act))))
                pl)).
    reflexivity.
Qed.

Lemma step_no_new_card turn action target :
  keeps no_new_card (step turn action target).
Proof.
  apply any_step_keeps.
  - exact no_new_card_refl.
  - exact no_new_card_trans.
  - intros p. exact (no_new_card_op (OpDraw p)).
  - intros p card. exact (no_new_card_op (OpPutback p card)).
  - intros p card. exact (no_new_card_op (OpLose p card)).
  - intros p f Hf. apply no_new_card_update. intros pl. apply Hf.
  - intros p d _. apply no_new_card_update. reflexivity.
  - exact no_new_card_steal.
  - intros p d. apply no_new_card_update. reflexivity.
Qed.

(** X1: whatever the phase, the move and the store, a step of the state
    machine and a step of the driver leave the seats in place and, for every
    role, no more copies in the deck and the hands than there were: cards
    only ever leave the game, whether the call returns or raises. *)
Theorem no_step_adds_a_card :
  (forall turn action target w,
      no_new_card w (snd (step turn action target w)))
  /\ (forall action e,
         no_new_card (world e) (world (snd (env_step action e)))).
Proof.
  split.
  - intros turn action target. apply step_no_new_card.
  - intros action e. apply env_step_keeps.
    + exact no_new_card_refl.
    + exact no_new_card_trans.
    + intros p f Hf. apply no_new_card_update. intros pl. apply Hf.
    + intros a tgt target _. apply step_no_new_card.
Qed.

(** ** Well-formed Counters are kept *)

Lemma world_ok_update_cards w p f :
  (forall pl, cards (f pl) = cards pl) ->
  world_ok w -> world_ok (update_player p f w).
Proof.
  intros Hf Hok.
  apply (world_ok_update w p f (deck w) Hok).
  - apply Hok.
  - rewrite Hf. apply player_at_ok. exact Hok.
Qed.

Lemma world_ok_steal act w :
  world_ok w -> world_ok (snd (resolve_steal act w)).
Proof.
  intros Hok. rewrite resolve_steal_run. cbn [snd].
  apply world_ok_update_cards; [reflexivity|].
  apply world_ok_update_cards; [reflexivity|]. exact Hok.
Qed.

Lemma step_keeps_world_ok turn action target :
  keeps (fun w w' => world_ok w -> world_ok w') (step turn action target).
Proof.
  apply any_step_keeps.
  - intros w H. exact H.
  - intros w1 w2 w3 H1 H2 H. exact (H2 (H1 H)).
  - intros p w. exact (run_op_keeps_world_ok (OpDraw p) w).
  - intros p card w. exact (run_op_keeps_world_ok (OpPutback p card) w).
  - intros p card w. exact (run_op_keeps_world_ok (OpLose p card) w).
  - intros p f Hf w. apply world_ok_update_cards. intros pl. apply Hf.
  - intros p d _ w. apply world_ok_update_cards. reflexivity.
  - intros act w. apply world_ok_steal.
  - intros p d w. apply world_ok_update_cards. reflexivity.
Qed.

Lemma world_ok_table_dukes : world_ok table_dukes.
Proof.
  repeat split;
    repeat (constructor; try (simpl; lia);
            try (cbn;
                 repeat (apply not_elem_of_cons; split; [discriminate|]);
                 apply not_elem_of_nil)).
Qed.

(** X2: if the deck and every hand are Counters with distinct keys and no
    stored count below one, they still are after any step of the state
    machine and after any step of the driver, whether the call returns or
    raises: [decr_del] drops an entry when its count reaches zero and
    nothing else lowers a count. *)
Theorem steps_keep_counters_well_formed w :
  world_ok w ->
  (forall turn action target, world_ok (snd (step turn action target w)))
  /\ (forall action e,
         world e = w -> world_ok (world (snd (env_step action e)))).
Proof.
  intros Hok. split.
  - intros turn action target. apply step_keeps_world_ok. exact Hok.
  - intros action e <-. revert Hok.
    apply (env_step_keeps (fun w w' => world_ok w -> world_ok w')).
    + intros w H. exact H.
    + intros w1 w2 w3 H1 H2 H. exact (H2 (H1 H)).
    + intros p f Hf w. apply world_ok_update_cards. intros pl. apply Hf.
    + intros a tgt target _. apply step_keeps_world_ok.
Qed.

Lemma steps_keep_counters_well_formed_witness :
  world_ok table_dukes
  /\ world_ok
       (snd (step (ChallengeResolve 0%nat tax_act
                     (mkChallengeInfo on_action 1%nat 1%nat))
                  LOSE_DUKE 0%nat table_dukes))
  /\ world_ok (world (snd (env_step (Some 14%nat) (game3 table_dukes)))).
Proof.
  split; [exact world_ok_table_dukes|].
  destruct (steps_keep_counters_well_formed table_dukes world_ok_table_dukes)
    as [Hstep Henv].
  split; [apply Hstep | apply Henv; reflexivity].
Defined.

(** ** Start.action_mask below ten coins *)

Lemma self_moves :
  flat_map (fun a => if decide (action_type a = SELF) then [(a, 0)] else [])
           ACTION
  = [(EXCHANGE, 0); (FOREIGN_AID, 0); (INCOME, 0); (TAX, 0)].
Proof. reflexivity. Qed.

Lemma in_self_moves a i :
  In (a, i) [(EXCHANGE, 0); (FOREIGN_AID, 0); (INCOME, 0); (TAX, 0)]
  <-> action_type a = SELF /\ i = 0.
Proof.
  simpl. split.
  - intros [H|[H|[H|[H|[]]]]]; injection H as <- <-; split; reflexivity.
  - intros [Ha ->]. destruct a; try discriminate Ha; tauto.
Qed.

(** X3: the moves offered to a Start player with fewer than ten coins are
    the four SELF actions at offset 0 and, for each living seat [k] places
    further on the ring (1 <= k < n), Coup when the player has seven coins,
    Assassinate when it has three, and Steal when that seat has a coin;
    nothing else is offered. *)
Theorem start_mask_below_ten w p a i :
  (p < length (players w))%nat ->
  coins (player_at w p) < 10 ->
  (a, i) ∈ Start.action_mask w p
  <-> (action_type a = SELF /\ i = 0)
      \/ exists k,
           (1 <= k < length (players w))%nat
           /\ i = Z.of_nat k
           /\ Player.alive w (seat_after w p k) = true
           /\ ((a = COUP /\ 7 <= coins (player_at w p))
               \/ (a = ASSASSINATE /\ 3 <= coins (player_at w p))
               \/ (a = STEAL /\ 0 < coins (player_at w (seat_after w p k)))).
Proof.
  intros Hseat Hc. rewrite list_elem_of_In. unfold Start.action_mask.
  rewrite (bool_decide_eq_false_2 (10 <= _)) by lia.
  rewrite andb_false_r. rewrite self_moves.
  rewrite !in_app_iff, in_self_moves, in_flat_map.
  split.
  - intros [Hin|[Hin|Hin]].
    + destruct (decide (7 <= _)) as [H7|]; [|destruct Hin].
      apply in_map_iff in Hin as ([j q] & Heq & Hin).
      injection Heq as <- <-.
      apply in_enum_living in Hin as (k & Hk & -> & -> & Halive);
        [|exact Hseat].
      right. exists k. tauto.
    + destruct Hin as ([j q] & Hin & Hmove).
      apply in_enum_living in Hin as (k & Hk & -> & -> & Halive);
        [|exact Hseat].
      right. exists k. cbn [fst snd] in Hmove.
      apply in_app_iff in Hmove as [Hm|Hm].
      * destruct (decide (3 <= _)) as [Hd|]; [|destruct Hm].
        destruct Hm as [Hm|[]]. injection Hm as <- <-. tauto.
      * destruct (decide (0 < _)) as [Hd|]; [|destruct Hm].
        destruct Hm as [Hm|[]]. injection Hm as <- <-. tauto.
    + left. exact Hin.
  - intros [Hself|(k & Hk & -> & Halive & Hmove)]; [tauto|].
    assert (Hin : In (Z.of_nat k, seat_after w p k)
                     (Player.enum w true true p)).
    { apply in_enum_living; [exact Hseat|]. exists k. tauto. }
    destruct Hmove as [[-> H7]|[[-> H3]|[-> H0]]].
    + left. destruct (decide (7 <= _)); [|lia].
      apply in_map_iff. exists (Z.of_nat k, seat_after w p k). tauto.
    + right; left. exists (Z.of_nat k, seat_after w p k).
      split; [exact Hin|]. cbn [fst snd]. apply in_app_iff. left.
      destruct (decide (3 <= _)); [|lia]. left. reflexivity.
    + right; left. exists (Z.of_nat k, seat_after w p k).
      split; [exact Hin|]. cbn [fst snd]. apply in_app_iff. right.
      destruct (decide (0 < _)); [|lia]. left. reflexivity.
Qed.

Lemma start_mask_below_ten_witness :
  (0 < length (players table_steal))%nat
  /\ coins (player_at table_steal 0%nat) < 10
  /\ (STEAL, 1) ∈ Start.action_mask table_steal 0%nat
  /\ ~ (COUP, 1) ∈ Start.action_mask table_steal 0%nat.
Proof.
  assert (0 < length (players table_steal))%nat as Hseat by (simpl; lia).
  assert (coins (player_at table_steal 0%nat) < 10) as Hc by (simpl; lia).
  split; [exact Hseat | split; [exact Hc|]].
  split.
  - apply (start_mask_below_ten table_steal 0%nat STEAL 1 Hseat Hc).
    right. exists 1%nat. repeat split; try (simpl; lia).
    right; right. split; [reflexivity | simpl; lia].
  - intros Hin.
    apply (start_mask_below_ten table_steal 0%nat COUP 1 Hseat Hc) in Hin.
    destruct Hin as [[Hty _]|(k & _ & _ & _ & [[_ H7]|[[H _]|[H _]]])];
      try discriminate; simpl in H7; lia.
Defined.

(** ** Balances never go below zero *)

Lemma coins_ok_at w : coins_ok w <-> forall p, 0 <= coins (player_at w p).
Proof.
  unfold coins_ok. rewrite Forall_lookup. split.
  - intros H p. unfold player_at. destruct (players w !! p) eqn:E; simpl.
    + exact (H p _ E).
    + lia.
  - intros H p pl E. specialize (H p). unfold player_at in H.
    rewrite E in H. exact H.
Qed.

Lemma coins_ok_update w p f :
  coins_ok w -> 0 <= coins (f (player_at w p)) ->
  coins_ok (update_player p f w).
Proof.
  intros Hok Hf. apply coins_ok_at. intros q.
  destruct (decide (p = q)) as [<-|Hne].
  - destruct (Nat.lt_ge_cases p (length (players w))) as [H|H].
    + rewrite player_at_update_eq by exact H. exact Hf.
    + rewrite player_at_update_out by exact H.
      apply coins_ok_at. exact Hok.
  - rewrite player_at_update_ne by exact Hne. apply coins_ok_at. exact Hok.
Qed.

Lemma coins_ok_update_field w p f :
  (forall pl, coins (f pl) = coins pl) ->
  coins_ok w -> coins_ok (update_player p f w).
Proof.
  intros Hf Hok. apply coins_ok_update; [exact Hok|].
  rewrite Hf. apply coins_ok_at. exact Hok.
Qed.

Lemma coins_ok_op op w : coins_ok w -> coins_ok (snd (run_op op w)).
Proof.
  intros Hok. destruct op as [p|p card|p card]; cbn [run_op].
  - destruct (Nat.lt_ge_cases (length (Counter.elements (deck w))) 2)
      as [Hd|Hd].
    + rewrite player_draw_raise by lia. exact Hok.
    + destruct (player_draw_ok w p Hd) as (card & _ & ->). cbn [snd].
      apply coins_ok_update_field; [reflexivity | exact Hok].
  - destruct (Counter.contains (cards (player_at w p)) card) eqn:E.
    + rewrite putback_ok by exact E. cbn [snd].
      apply (coins_ok_update_field w p); [reflexivity | exact Hok].
    + rewrite putback_raise by exact E. exact Hok.
  - destruct (Counter.contains (cards (player_at w p)) card) eqn:E.
    + rewrite lose_ok by exact E. cbn [snd].
      apply coins_ok_update_field; [reflexivity | exact Hok].
    + rewrite lose_raise by exact E. exact Hok.
Qed.

Lemma coins_ok_gain p d w :
  0 <= coins (player_at w p) + d ->
  coins_ok w -> coins_ok (snd (add_coins p d w)).
Proof.
  intros Hd Hok. unfold add_coins. cbn [modify snd].
  apply coins_ok_update; [exact Hok | exact Hd].
Qed.

(** A steal takes no more than the target has, also when the actor is its
    own target. *)
Lemma coins_ok_steal act w :
  coins_ok w -> coins_ok (snd (resolve_steal act w)).
Proof.
  intros Hok. rewrite resolve_steal_run. cbn [snd].
  pose proof (proj1 (coins_ok_at w) Hok) as Hat.
  pose proof (Hat (act_target act)) as Ht.
  pose proof (Hat (act_actor act)) as Ha.
  assert (Hamount : 0 <= Z.min 2 (coins (player_at w (act_target act)))
                    <= coins (player_at w (act_target act))) by lia.
  revert Hamount.
  generalize (Z.min 2 (coins (player_at w (act_target act)))).
  intros amount Hamount.
  assert (Hok1 : coins_ok
                   (update_player (act_actor act)
                      (fun pl => set_coins (coins pl + amount) pl) w)).
  { apply coins_ok_update; [exact Hok|]. simpl. lia. }
  apply coins_ok_update; [exact Hok1|]. cbn [coins set_coins].
  destruct (decide (act_actor act = act_target act)) as [Heq|Hne].
  - rewrite <- Heq in *.
    destruct (Nat.lt_ge_cases (act_actor act) (length (players w))) as [H|H].
    + rewrite player_at_update_eq by exact H. simpl. lia.
    + rewrite player_at_update_out by exact H. lia.
  - rewrite player_at_update_ne by exact Hne. lia.
Qed.

Lemma start_mask_price w p a i :
  In (a, i) (Start.action_mask w p) ->
  (a = COUP -> 7 <= coins (player_at w p))
  /\ (a = ASSASSINATE -> 3 <= coins (player_at w p)).
Proof.
  unfold Start.action_mask. intros Hin. split; intros ->.
  - destruct (decide (7 <= _)) as [H7|H7]; [exact H7|]. exfalso.
    rewrite (bool_decide_eq_false_2 (7 <= _)) in Hin by exact H7.
    cbn [andb app] in Hin. rewrite self_moves in Hin.
    apply in_app_iff in Hin as [Hin|Hin].
    + apply in_flat_map in Hin as (io & _ & Hin).
      apply in_app_iff in Hin as [Hin|Hin];
        destruct (decide _); simpl in Hin; intuition discriminate.
    + simpl in Hin. intuition discriminate.
  - destruct (decide (3 <= coins (player_at w p))) as [H3|H3]; [exact H3|].
    exfalso.
    destruct (decide (7 <= _)) as [H7|H7]; [lia|].
    rewrite (bool_decide_eq_false_2 (7 <= _)) in Hin by exact H7.
    cbn [andb app] in Hin. rewrite self_moves in Hin.
    apply in_app_iff in Hin as [Hin|Hin].
    + apply in_flat_map in Hin as (io & _ & Hin).
      cbn [app] in Hin.
      destruct (decide _); simpl in Hin; intuition discriminate.
    + simpl in Hin. intuition discriminate.
Qed.

Lemma start_keeps_coins_ok w p a i target :
  In (a, i) (Start.action_mask w p) ->
  coins_ok w -> coins_ok (snd (Start.step p a target w)).
Proof.
  intros Hin Hok. destruct (start_mask_price w p a i Hin) as [Hcoup Hass].
  pose proof (proj1 (coins_ok_at w) Hok p) as Hp.
  unfold Start.step. cbv zeta.
  destruct (decide (a = INCOME)).
  { unfold bind. cbn [add_coins modify ret snd].
    apply coins_ok_update; [exact Hok | simpl; lia]. }
  destruct (decide (a = FOREIGN_AID)).
  { unfold bind. cbn [Player.next_alive].
    destruct (Player.next_alive_loop _ _ _ _); exact Hok. }
  destruct (decide (a = COUP)) as [Ha|].
  { unfold bind. cbn [add_coins modify ret snd].
    apply coins_ok_update; [exact Hok | simpl; specialize (Hcoup Ha); lia]. }
  set (pay := if decide (a = ASSASSINATE) then add_coins p (-3) else ret tt).
  assert (Hpay : coins_ok (snd (pay w))).
  { subst pay. destruct (decide (a = ASSASSINATE)) as [Ha|]; [|exact Hok].
    apply coins_ok_gain; [specialize (Hass Ha); lia | exact Hok]. }
  unfold bind at 1.
  destruct (pay w) as [[[]|x] w1]; cbn [snd] in Hpay; [|exact Hpay].
  destruct (action_card a); [|exact Hpay].
  unfold bind. cbn [Player.next_alive].
  destruct (Player.next_alive_loop _ _ _ _); exact Hpay.
Qed.

Lemma masked_step_keeps_coins_ok w turn a i target :
  (a, i) ∈ action_mask w turn ->
  coins_ok w -> coins_ok (snd (step turn a target w)).
Proof.
  intros Hin. destruct turn as [p| | | | | | | | | | |].
  { apply (start_keeps_coins_ok w p a i target).
    apply list_elem_of_In. exact Hin. }
  all: revert w Hin;
    match goal with
    | |- forall w, _ -> coins_ok w -> coins_ok (snd (step ?t _ _ w)) =>
        intros w _;
        apply (step_keeps (fun w w' => coins_ok w -> coins_ok w'))
    end;
    try discriminate.
  all: try (intros w0 H; exact H).
  all: try (intros w1 w2 w3 H1 H2 H; exact (H2 (H1 H))).
  all: try (intros q w0; exact (coins_ok_op (OpDraw q) w0)).
  all: try (intros q card w0; exact (coins_ok_op (OpPutback q card) w0)).
  all: try (intros q card w0; exact (coins_ok_op (OpLose q card) w0)).
  all: try (intros q f Hf w0; apply coins_ok_update_field;
            intros pl; apply Hf).
  all: try (intros q d Hd w0 Hok0; apply coins_ok_gain;
            [pose proof (proj1 (coins_ok_at w0) Hok0 q); lia | exact Hok0]).
  all: try (intros act0 w0; apply coins_ok_steal).
Qed.

(** X4: the driver never lets a balance go below zero: from a store in
    which no player has negative coins, every call of [raw_env.step],
    accepted or refused, leaves such a store.  The mask is what protects
    Coup and Assassinate, which [Start.step] charges without a check. *)
Theorem env_step_keeps_coins_non_negative action e :
  coins_ok (world e) -> coins_ok (world (snd (env_step action e))).
Proof.
  apply (env_step_keeps (fun w w' => coins_ok w -> coins_ok w')).
  - intros w H. exact H.
  - intros w1 w2 w3 H1 H2 H. exact (H2 (H1 H)).
  - intros p f Hf w. apply coins_ok_update_field. intros pl. apply Hf.
  - intros a tgt target Hin. apply masked_step_keeps_coins_ok with tgt.
    exact Hin.
Qed.

Lemma env_step_keeps_coins_non_negative_witness :
  coins_ok (world duel_env)
  /\ coins_ok (world (snd (env_step (Some 0%nat) duel_env))).
Proof.
  assert (coins_ok (world duel_env)) as Hok
      by (repeat constructor; simpl; lia).
  split; [exact Hok|].
  apply (env_step_keeps_coins_non_negative (Some 0%nat) duel_env Hok).
Defined.

(** ** next_alive *)

Section NextAliveSpec.

Variables (w : World) (self : pid).
Hypothesis Hseat : (self < length (players w))%nat.

(** With every seat from the [k]-th after [self] on dead, the loop comes
    back to [self] and raises. *)
Lemma next_alive_loop_none d : forall k fuel,
  (1 <= k)%nat -> (k + d = length (players w))%nat -> (d < fuel)%nat ->
  (forall j, (k <= j < length (players w))%nat ->
             Player.alive w (seat_after w self j) = false) ->
  Player.next_alive_loop fuel w self (seat_after w self k)
  = Raise PlayerError.
Proof.
  induction d as [|d IH]; intros k fuel Hk Hkd Hfuel Hdead;
    (destruct fuel as [|fuel]; [lia|]); simpl.
  - replace k with (length (players w)) by lia.
    rewrite seat_after_n by exact Hseat.
    destruct (decide (self = self)); [reflexivity | congruence].
  - destruct (decide (seat_after w self k = self)) as [|_]; [reflexivity|].
    rewrite Hdead by lia. rewrite next_seat_after.
    apply IH; try lia. intros j Hj. apply Hdead. lia.
Qed.

Lemma first_living_or_none m :
  (forall j, (1 <= j <= m)%nat ->
             Player.alive w (seat_after w self j) = false)
  \/ exists k,
       (1 <= k <= m)%nat
       /\ Player.alive w (seat_after w self k) = true
       /\ forall j, (1 <= j < k)%nat ->
                    Player.alive w (seat_after w self j) = false.
Proof.
  induction m as [|m [Hnone|(k & Hk & Halive & Hdead)]].
  - left. intros j Hj. lia.
  - destruct (Player.alive w (seat_after w self (S m))) eqn:E.
    + right. exists (S m). split; [lia|]. split; [exact E|].
      intros j Hj. apply Hnone. lia.
    + left. intros j Hj. destruct (decide (j = S m)) as [->|];
        [exact E | apply Hnone; lia].
  - right. exists k. split; [lia|]. split; assumption.
Qed.

Lemma next_alive_none :
  (forall j, (1 <= j < length (players w))%nat ->
             Player.alive w (seat_after w self j) = false) ->
  Player.next_alive self w = (Raise PlayerError, w).
Proof.
  intros Hdead. unfold Player.next_alive. rewrite next_is_seat_after.
  f_equal. apply (next_alive_loop_none (length (players w) - 1)%nat); try lia.
  intros j Hj. apply Hdead. lia.
Qed.

End NextAliveSpec.

(** X5: [next_alive] of a seated player returns the first living seat met
    going round the ring from the next seat, the player itself excluded,
    and raises PlayerError exactly when no other seat is alive; it never
    changes the store. *)
Theorem next_alive_first_living_or_error w self :
  (self < length (players w))%nat ->
  (forall q,
      Player.next_alive self w = (Ok q, w)
      <-> exists k,
            (1 <= k < length (players w))%nat
            /\ q = seat_after w self k
            /\ Player.alive w q = true
            /\ forall j, (1 <= j < k)%nat ->
                         Player.alive w (seat_after w self j) = false)
  /\ (Player.next_alive self w = (Raise PlayerError, w)
      <-> forall q, living_other w self q -> False)
  /\ (forall r w', Player.next_alive self w = (r, w') ->
                   w' = w /\ (r = Raise PlayerError \/ exists q, r = Ok q)).
Proof.
  intros Hseat.
  destruct (first_living_or_none w self Hseat (length (players w) - 1)%nat)
    as [Hnone|(k & Hk & Halive & Hdead)].
  - assert (Hraise := next_alive_none w self Hseat).
    rewrite Hraise by (intros j Hj; apply Hnone; lia).
    split; [|split].
    + intros q. split; [discriminate|].
      intros (k & Hk & -> & Halive & _).
      rewrite Hnone in Halive by lia. discriminate.
    + split; [|reflexivity]. intros _ q (Hq & Hne & Halive).
      destruct (seat_after_reach w self q Hseat Hq Hne) as (k & Hk & <-).
      rewrite Hnone in Halive by lia. discriminate.
    + intros r w' [= <- <-]. split; [reflexivity|]. left. reflexivity.
  - rewrite (next_alive_first w self k Hseat) by (try lia; assumption).
    split; [|split].
    + intros q. split.
      * intros [= <-]. exists k. repeat split; try lia; assumption.
      * intros (k' & Hk' & -> & Halive' & Hdead').
        destruct (Nat.lt_trichotomy k k') as [Hlt|[->|Hgt]];
          [|reflexivity|].
        -- rewrite Hdead' in Halive by lia. discriminate.
        -- rewrite Hdead in Halive' by lia. discriminate.
    + split; [discriminate|]. intros Hno. exfalso.
      apply (Hno (seat_after w self k)). split; [|split].
      * apply seat_after_lt. lia.
      * apply seat_after_other; [exact Hseat | lia].
      * exact Halive.
    + intros r w' [= <- <-]. split; [reflexivity|]. right. eauto.
Qed.

Lemma next_alive_first_living_or_error_witness :
  (0 < length (players table_rich))%nat
  /\ Player.next_alive 0%nat table_rich = (Ok 2%nat, table_rich).
Proof.
  assert (0 < length (players table_rich))%nat as Hseat by (simpl; lia).
  split; [exact Hseat|].
  destruct (next_alive_first_living_or_error table_rich 0%nat Hseat)
    as [Hok _].
  apply Hok. exists 2%nat. split; [simpl; lia|].
  split; [reflexivity|]. split; [reflexivity|].
  intros j Hj. replace j with 1%nat by lia. reflexivity.
Defined.

(** ** enum over all the seats *)

Lemma enum_all w p :
  (p < length (players w))%nat ->
  Player.enum w false false p
  = map (fun k => (Z.of_nat k, seat_after w p k))
        (seq 0 (length (players w))).
Proof.
  intros Hseat.
  assert (Hsplit : Player.enum w false false p
                   = (0, p) :: Player.enum w false true p) by reflexivity.
  rewrite Hsplit, enum_others by exact Hseat.
  assert (Hseq : seq 0 (length (players w))
                 = 0%nat :: seq 1 (length (players w) - 1)).
  { destruct (length (players w)) as [|n]; [lia|].
    simpl. rewrite Nat.sub_0_r. reflexivity. }
  rewrite Hseq. cbn [map]. rewrite seat_after_0 by exact Hseat.
  f_equal.
Qed.

Lemma enum_all_length w p :
  (p < length (players w))%nat ->
  length (Player.enum w false false p) = length (players w).
Proof.
  intros Hseat. rewrite enum_all by exact Hseat.
  rewrite length_map, length_seq. reflexivity.
Qed.

Lemma ring_seats_nodup w p :
  (p < length (players w))%nat ->
  NoDup (map (seat_after w p) (seq 0 (length (players w)))).
Proof.
  intros Hseat. apply NoDup_fmap_2_strong; [|apply NoDup_seq].
  intros k k' Hk Hk' Heq.
  apply elem_of_seq in Hk, Hk'.
  apply (seat_after_inj w p); first [lia | exact Heq].
Qed.

Lemma ring_seats_elem w p q :
  (p < length (players w))%nat ->
  q ∈ map (seat_after w p) (seq 0 (length (players w)))
  <-> (q < length (players w))%nat.
Proof.
  intros Hseat. rewrite list_elem_of_In, in_map_iff. split.
  - intros (k & <- & _). apply seat_after_lt. lia.
  - intros Hq. destruct (decide (q = p)) as [->|Hne].
    + exists 0%nat. split; [apply seat_after_0, Hseat|].
      apply in_seq. lia.
    + destruct (seat_after_reach w p q Hseat Hq Hne) as (k & Hk & <-).
      exists k. split; [reflexivity | apply in_seq; lia].
Qed.

(** X6: [enum()] with its default arguments, called on a seated player,
    yields every seat of the table exactly once: the player itself at
    offset 0, then the seats in ring order with offsets 1, 2, ..., n - 1,
    living or not. *)
Theorem enum_lists_every_seat_once w p :
  (p < length (players w))%nat ->
  Player.enum w false false p
  = map (fun k => (Z.of_nat k, seat_after w p k))
        (seq 0 (length (players w)))
  /\ NoDup (map snd (Player.enum w false false p))
  /\ forall q, q ∈ map snd (Player.enum w false false p)
               <-> (q < length (players w))%nat.
Proof.
  intros Hseat. split; [apply enum_all, Hseat|].
  rewrite enum_all by exact Hseat. rewrite map_map. cbn [snd].
  split; [apply ring_seats_nodup, Hseat|].
  intros q. apply ring_seats_elem, Hseat.
Qed.

Lemma enum_lists_every_seat_once_witness :
  (1 < length (players table_rich))%nat
  /\ Player.enum table_rich false false 1%nat
     = [(0, 1%nat); (1, 2%nat); (2, 0%nat)].
Proof.
  assert (1 < length (players table_rich))%nat as Hseat by (simpl; lia).
  split; [exact Hseat|].
  destruct (enum_lists_every_seat_once table_rich 1%nat Hseat) as [Henum _].
  exact Henum.
Defined.

(** ** lose_card_mask *)

Lemma all_actions a : In a ACTION.
Proof. destruct a; simpl; tauto. Qed.

Lemma action_nodup : NoDup ACTION.
Proof. apply (bool_decide_unpack (NoDup ACTION)). vm_compute. exact I. Qed.

Lemma lose_action_of c :
  exists a, action_type a = LOSE /\ action_card a = Some c.
Proof.
  destruct c;
    [ exists LOSE_AMBASSADOR | exists LOSE_ASSASSIN | exists LOSE_CAPTAIN
    | exists LOSE_CONTESSA | exists LOSE_DUKE ];
    split; reflexivity.
Qed.

Lemma positive_total_nonneg c : Counter.positive c -> 0 <= Counter.total c.
Proof.
  induction 1 as [|[k v] c Hv _ IH]; simpl in *; lia.
Qed.

Lemma positive_total_some c :
  Counter.positive c ->
  (0 < Counter.total c <-> exists k, Counter.get c k <> 0).
Proof.
  intros Hpos. destruct Hpos as [|[k v] c Hv Hpos]; simpl in *.
  - split; [lia | intros [k Hk]; congruence].
  - pose proof (positive_total_nonneg c Hpos). split; [|lia].
    intros _. exists k. destruct (decide (k = k)); [lia | congruence].
Qed.

Lemma in_lose_card_mask w p a i :
  In (a, i) (lose_card_mask w p)
  <-> i = 0 /\ action_type a = LOSE
      /\ exists c, action_card a = Some c
                   /\ Counter.get (cards (player_at w p)) c <> 0.
Proof.
  unfold lose_card_mask. rewrite in_flat_map. split.
  - intros (a' & _ & Hin).
    destruct (decide (action_type a' = LOSE)) as [Hty|]; [|destruct Hin].
    destruct (action_card a') as [c|] eqn:Hc; [|destruct Hin].
    destruct (decide _) as [Hheld|]; [|destruct Hin].
    destruct Hin as [[= <- <-]|[]]. eauto.
  - intros (-> & Hty & c & Hc & Hheld). exists a.
    split; [apply all_actions|]. rewrite Hc.
    destruct (decide (action_type a = LOSE)); [|contradiction].
    destruct (decide _); [|contradiction]. left. reflexivity.
Qed.

Lemma NoDup_flat_map_filter {A B} (f : A -> B) (keep : A -> bool) l :
  (forall x y, f x = f y -> x = y) ->
  NoDup l -> NoDup (flat_map (fun x => if keep x then [f x] else []) l).
Proof.
  intros Hinj. induction 1 as [|x l Hx _ IH]; simpl; [constructor|].
  destruct (keep x); [|exact IH]. simpl. constructor; [|exact IH].
  intros Hin. apply list_elem_of_In, in_flat_map in Hin as (y & Hy & Hin).
  destruct (keep y); [|destruct Hin]. destruct Hin as [Heq|[]].
  apply Hinj in Heq. subst y. apply Hx, list_elem_of_In, Hy.
Qed.

Lemma lose_card_mask_nodup w p : NoDup (lose_card_mask w p).
Proof.
  unfold lose_card_mask.
  rewrite (flat_map_ext _
             (fun a =>
                if match action_card a with
                   | Some c =>
                       bool_decide (action_type a = LOSE)
                       && bool_decide
                            (Counter.get (cards (player_at w p)) c <> 0)
                   | None => false
                   end
                then [(a, 0)] else [])).
  - apply (NoDup_flat_map_filter (fun a => (a, 0))).
    + intros x y [= ->]. reflexivity.
    + apply action_nodup.
  - intros a. destruct (decide (action_type a = LOSE)) as [Hty|Hty].
    + rewrite (bool_decide_eq_true_2 _ Hty).
      destruct (action_card a) as [c|]; [|reflexivity].
      destruct (decide _) as [Hheld|Hheld].
      * rewrite (bool_decide_eq_true_2 _ Hheld). reflexivity.
      * rewrite (bool_decide_eq_false_2 _ Hheld). reflexivity.
    + rewrite (bool_decide_eq_false_2 _ Hty).
      destruct (action_card a); reflexivity.
Qed.

(** X7: for a hand whose stored counts are all positive, [lose_card_mask]
    offers exactly one move per role held, the LOSE action of that role
    at offset 0; [Player.lose] accepts the card of every move offered; and
    the mask is empty exactly when the player is dead. *)
Theorem lose_card_mask_one_move_per_held_role w p :
  Counter.positive (cards (player_at w p)) ->
  (forall a i,
      (a, i) ∈ lose_card_mask w p
      <-> i = 0 /\ action_type a = LOSE
          /\ exists c, action_card a = Some c
                       /\ Counter.contains (cards (player_at w p)) c = true)
  /\ NoDup (lose_card_mask w p)
  /\ (forall a i c,
         (a, i) ∈ lose_card_mask w p -> action_card a = Some c ->
         fst (Player.lose p c w) = Ok tt)
  /\ (lose_card_mask w p = [] <-> Player.alive w p = false).
Proof.
  intros Hpos.
  assert (Hheld : forall c,
             Counter.get (cards (player_at w p)) c <> 0
             <-> Counter.contains (cards (player_at w p)) c = true).
  { intros c. rewrite (positive_contains_get _ c Hpos). split; [|lia].
    intros Hne.
    destruct (Counter.contains (cards (player_at w p)) c) eqn:E.
    - exact (proj1 (positive_contains_get _ c Hpos) E).
    - apply contains_false_get in E. contradiction. }
  assert (Hmem : forall a i,
             (a, i) ∈ lose_card_mask w p
             <-> i = 0 /\ action_type a = LOSE
                 /\ exists c,
                      action_card a = Some c
                      /\ Counter.contains (cards (player_at w p)) c = true).
  { intros a i. rewrite list_elem_of_In, in_lose_card_mask.
    split; intros (Hi & Hty & c & Hc & Hc'); (split; [exact Hi|]);
      (split; [exact Hty|]); exists c; (split; [exact Hc|]);
      apply Hheld; exact Hc'. }
  split; [exact Hmem|]. split; [apply lose_card_mask_nodup|]. split.
  - intros a i c Hin Hc. apply Hmem in Hin as (_ & _ & c' & Hc' & Hin).
    assert (c' = c) as -> by congruence.
    rewrite lose_ok by exact Hin. reflexivity.
  - unfold Player.alive. split.
    + intros Hnil. apply bool_decide_eq_false_2. intros Htot.
      apply (positive_total_some _ Hpos) in Htot as [c Hc].
      destruct (lose_action_of c) as (a & Hty & Hca).
      assert (Hin : (a, 0) ∈ lose_card_mask w p).
      { apply Hmem. split; [reflexivity|]. split; [exact Hty|].
        exists c. split; [exact Hca | apply Hheld, Hc]. }
      rewrite Hnil in Hin. inversion Hin.
    + intros Hdead. apply bool_decide_eq_false_1 in Hdead.
      destruct (lose_card_mask w p) as [|[a i] l] eqn:E; [reflexivity|].
      exfalso. apply Hdead. apply (positive_total_some _ Hpos).
      assert (Hin : (a, i) ∈ (a, i) :: l) by apply list_elem_of_here.
      apply Hmem in Hin as (_ & _ & c & _ & Hin).
      exists c. apply Hheld. exact Hin.
Qed.

Lemma lose_card_mask_one_move_per_held_role_witness :
  Counter.positive (cards (player_at table_steal 0%nat))
  /\ lose_card_mask table_steal 0%nat = [(LOSE_CAPTAIN, 0); (LOSE_DUKE, 0)]
  /\ fst (Player.lose 0%nat CAPTAIN table_steal) = Ok tt.
Proof.
  assert (Counter.positive (cards (player_at table_steal 0%nat))) as Hpos
      by (repeat constructor; simpl; lia).
  split; [exact Hpos|]. split; [reflexivity|].
  destruct (lose_card_mask_one_move_per_held_role table_steal 0%nat Hpos)
    as (_ & _ & Hlose & _).
  apply (Hlose LOSE_CAPTAIN 0 CAPTAIN); [|reflexivity].
  apply list_elem_of_In. simpl. tauto.
Defined.

(** ** The action space and the mask vector *)

Lemma in_action_space n a t :
  In (a, t) (action_space n)
  <-> (action_type a <> TARGET /\ t = 0)
      \/ (action_type a = TARGET /\ 1 <= t < Z.of_nat n).
Proof.
  unfold action_space. rewrite in_flat_map. split.
  - intros (a' & _ & Hin). destruct (decide (action_type a' <> TARGET)).
    + destruct Hin as [[= <- <-]|[]]. left. tauto.
    + apply in_map_iff in Hin as (k & [= <- <-] & Hk).
      apply in_seq in Hk. right. split; [|lia].
      destruct (decide (action_type a' = TARGET)); tauto.
  - intros H. exists a. split; [apply all_actions|].
    destruct (decide (action_type a <> TARGET)) as [Hty|Hty].
    + destruct H as [[_ ->]|[Hty' _]]; [left; reflexivity | contradiction].
    + destruct H as [[Hty' _]|[_ Ht]]; [contradiction|].
      apply in_map_iff. exists (Z.to_nat t).
      split; [f_equal; lia | apply in_seq; lia].
Qed.

Lemma NoDup_flat_map_disjoint {A B} (f : A -> list B) (l : list A) :
  (forall x, NoDup (f x)) ->
  (forall x y b, In b (f x) -> In b (f y) -> x = y) ->
  NoDup l -> NoDup (flat_map f l).
Proof.
  intros Hf Hsep. induction 1 as [|x l Hx _ IH]; simpl; [constructor|].
  apply list.NoDup_app. split; [apply Hf|]. split; [|exact IH].
  intros b Hb Hin.
  apply list_elem_of_In, in_flat_map in Hin as (y & Hy & Hin).
  apply list_elem_of_In in Hb.
  rewrite (Hsep x y b Hb Hin) in Hx. apply Hx, list_elem_of_In, Hy.
Qed.

Lemma action_space_nodup n : NoDup (action_space n).
Proof.
  unfold action_space. apply NoDup_flat_map_disjoint.
  - intros a. destruct (decide _).
    + apply NoDup_singleton.
    + apply NoDup_fmap_2; [|apply NoDup_seq].
      intros x y [= H]. lia.
  - intros x y b Hx Hy. destruct b as [a t].
    assert (Hfst : forall z,
               In (a, t)
                  (if decide (action_type z <> TARGET) then [(z, 0)]
                   else map (fun k => (z, Z.of_nat k)) (seq 1 (n - 1))) ->
               a = z).
    { intros z Hz. destruct (decide (action_type z <> TARGET)).
      - destruct Hz as [[= <- _]|[]]. reflexivity.
      - apply in_map_iff in Hz as (k & [= <- _] & _). reflexivity. }
    rewrite <- (Hfst x Hx), <- (Hfst y Hy). reflexivity.
  - apply action_nodup.
Qed.

Lemma index_of_sound m l : forall i,
  index_of m l = Some i -> l !! i = Some m.
Proof.
  induction l as [|x l IH]; intros i; simpl; [discriminate|].
  destruct (decide (x = m)) as [->|].
  - intros [= <-]. reflexivity.
  - destruct (index_of m l) as [j|]; [|discriminate].
    intros [= <-]. simpl. apply IH. reflexivity.
Qed.

Lemma index_of_complete m l : forall i,
  NoDup l -> l !! i = Some m -> index_of m l = Some i.
Proof.
  induction l as [|x l IH]; intros i Hnd Hi; [discriminate|].
  apply list.NoDup_cons in Hnd as [Hx Hnd]. simpl.
  destruct (decide (x = m)) as [->|Hne].
  - destruct i as [|i]; [reflexivity|]. simpl in Hi.
    exfalso. apply Hx. eapply list_elem_of_lookup_2. exact Hi.
  - destruct i as [|i]; simpl in Hi; [congruence|].
    rewrite (IH i Hnd Hi). reflexivity.
Qed.

Lemma index_of_in m l : In m l -> exists i, index_of m l = Some i.
Proof.
  induction l as [|x l IH]; simpl; [tauto|].
  intros Hin. destruct (decide (x = m)); [eauto|].
  destruct Hin as [|Hin]; [contradiction|].
  destruct (IH Hin) as [i ->]. simpl. eauto.
Qed.

Lemma block_mask_type act a i :
  In (a, i) (block_mask act) -> action_type a = BLOCK /\ i = 0.
Proof.
  unfold block_mask. rewrite in_flat_map. intros (a' & _ & Hin).
  destruct (existsb _ _) eqn:E; [|destruct Hin].
  destruct Hin as [[= <- <-]|[]]. split; [|reflexivity].
  destruct act, a'; try reflexivity; vm_compute in E; discriminate E.
Qed.

Lemma challenge_mask_type a i :
  In (a, i) challenge_mask -> action_type a = CHALLENGE /\ i = 0.
Proof.
  unfold challenge_mask. rewrite in_flat_map. intros (a' & _ & Hin).
  destruct (decide _) as [Hty|]; [|destruct Hin].
  destruct Hin as [[= <- <-]|[]]. tauto.
Qed.

Lemma start_mask_in_space w p a i :
  (p < length (players w))%nat ->
  In (a, i) (Start.action_mask w p) ->
  In (a, i) (action_space (length (players w))).
Proof.
  intros Hseat Hin. apply in_action_space.
  assert (Henum : forall j q,
             In (j, q) (Player.enum w true true p) ->
             1 <= j < Z.of_nat (length (players w))).
  { intros j q Hj.
    apply in_enum_living in Hj as (k & Hk & -> & _); [lia | exact Hseat]. }
  unfold Start.action_mask in Hin.
  assert (Hcoup : In (a, i)
                     (if decide (7 <= coins (player_at w p))
                      then map (fun io => (COUP, fst io))
                               (Player.enum w true true p)
                      else []) ->
                  action_type a = TARGET
                  /\ 1 <= i < Z.of_nat (length (players w))).
  { intros H. destruct (decide _); [|destruct H].
    apply in_map_iff in H as ([j q] & [= <- <-] & Hj).
    split; [reflexivity | exact (Henum j q Hj)]. }
  destruct (_ && _); [right; apply Hcoup, Hin|].
  rewrite self_moves in Hin.
  apply in_app_iff in Hin as [Hin|Hin]; [right; apply Hcoup, Hin|].
  apply in_app_iff in Hin as [Hin|Hin].
  - right. apply in_flat_map in Hin as ([j q] & Hj & Hin).
    apply Henum in Hj. cbn [fst snd] in Hin.
    apply in_app_iff in Hin as [Hin|Hin];
      destruct (decide _); simpl in Hin; try tauto;
      destruct Hin as [[= <- <-]|[]]; split; (reflexivity || exact Hj).
  - left. apply in_self_moves in Hin as [Hty ->].
    split; [congruence | reflexivity].
Qed.

Lemma mask_in_space w turn a i :
  (forall p, turn = Start p -> (p < length (players w))%nat) ->
  In (a, i) (action_mask w turn) ->
  In (a, i) (action_space (length (players w))).
Proof.
  intros Hseat Hin.
  assert (Hlose : forall p, In (a, i) (lose_card_mask w p) ->
                            In (a, i) (action_space (length (players w)))).
  { intros p H. apply in_lose_card_mask in H as (-> & Hty & _).
    apply in_action_space. left. split; [congruence | reflexivity]. }
  assert (Hblock : forall act, In (a, i) (block_mask act) ->
                               In (a, i) (action_space (length (players w)))).
  { intros act H. apply block_mask_type in H as [Hty ->].
    apply in_action_space. left. split; [congruence | reflexivity]. }
  assert (Hchl : In (a, i) challenge_mask ->
                 In (a, i) (action_space (length (players w)))).
  { intros H. apply challenge_mask_type in H as [Hty ->].
    apply in_action_space. left. split; [congruence | reflexivity]. }
  destruct turn; cbn [action_mask] in Hin;
    try (apply Hchl; exact Hin);
    try (eapply Hlose; exact Hin);
    try (eapply Hblock; exact Hin);
    try (destruct Hin).
  apply (start_mask_in_space w player); [apply Hseat; reflexivity | exact Hin].
Qed.

Lemma mask_fold e ms :
  (forall m, In m ms -> In m (acts e)) ->
  forall v0,
    length v0 = length (acts e) ->
    exists v,
      fold_left (mark_move e) ms (Ok v0) = Ok v
      /\ length v = length (acts e)
      /\ forall i m,
           acts e !! i = Some m ->
           v !! i
           = Some (default false (v0 !! i) || bool_decide (m ∈ ms)).
Proof.
  induction ms as [|m0 ms IH]; intros Hsub v0 Hlen.
  - exists v0. split; [reflexivity|]. split; [exact Hlen|].
    intros i m Hi.
    assert (i < length v0)%nat as Hlt
        by (rewrite Hlen; eapply lookup_lt_Some; exact Hi).
    destruct (lookup_lt_is_Some_2 v0 i Hlt) as [b Hb].
    rewrite Hb. cbn [default id].
    rewrite bool_decide_eq_false_2 by apply not_elem_of_nil.
    rewrite orb_false_r. reflexivity.
  - cbn [fold_left].
    destruct (index_of_in m0 (acts e)) as [idx Hidx];
      [apply Hsub; left; reflexivity|].
    assert (Hmark : mark_move e (Ok v0) m0 = Ok (<[idx := true]> v0))
      by (unfold mark_move, act_to_idx; rewrite Hidx; reflexivity).
    rewrite Hmark.
    destruct (IH (fun m Hm => Hsub m (or_intror Hm)) (<[idx := true]> v0))
      as (v & Hfold & Hlenv & Hv); [rewrite length_insert; exact Hlen|].
    exists v. split; [exact Hfold|]. split; [exact Hlenv|].
    intros i m Hi. rewrite (Hv i m Hi).
    assert (i < length v0)%nat as Hlt
        by (rewrite Hlen; eapply lookup_lt_Some; exact Hi).
    f_equal. destruct (decide (idx = i)) as [->|Hne].
    + rewrite list_lookup_insert_eq by exact Hlt. simpl.
      apply index_of_sound in Hidx.
      assert (m0 = m) as -> by congruence.
      rewrite (bool_decide_eq_true_2 (m ∈ m :: ms))
        by apply list_elem_of_here.
      rewrite orb_true_r. reflexivity.
    + rewrite list_lookup_insert_ne by exact Hne.
      assert (m0 <> m) as Hm.
      { intros ->. apply Hne.
        apply (index_of_complete m (acts e) i (action_space_nodup _)) in Hi.
        congruence. }
      f_equal. apply bool_decide_ext. rewrite elem_of_cons.
      split; [tauto | intros [Heq|H]; [congruence | exact H]].
Qed.

(** X8: [action_space(n)] lists every action of another type than TARGET
    once, with offset 0, and every TARGET action once for each offset from
    1 to n - 1; no pair occurs twice, so that [acts] and [act_to_idx] are
    inverse to each other.  With the Start player seated, every move of
    the turn's mask is a key of [act_to_idx]: [get_action_mask] raises no
    KeyError, and the vector it returns is as long as [acts] and holds
    True exactly at the indices of the moves of the mask. *)
Theorem mask_vector_marks_the_mask e :
  (forall p, turn e = Start p -> (p < length (players (world e)))%nat) ->
  (forall a t,
      (a, t) ∈ acts e
      <-> (action_type a <> TARGET /\ t = 0)
          \/ (action_type a = TARGET
              /\ 1 <= t < Z.of_nat (length (players (world e)))))
  /\ (forall i m, acts e !! i = Some m <-> act_to_idx e m = Some i)
  /\ exists v,
       get_action_mask e = Ok v
       /\ length v = length (acts e)
       /\ forall i m,
            acts e !! i = Some m ->
            v !! i
            = Some (bool_decide (m ∈ action_mask (world e) (turn e))).
Proof.
  intros Hseat. split; [|split].
  - intros a t. rewrite list_elem_of_In. apply in_action_space.
  - intros i m. split.
    + apply index_of_complete, action_space_nodup.
    + apply index_of_sound.
  - destruct (mask_fold e (action_mask (world e) (turn e)))
      with (v0 := replicate (length (acts e)) false)
      as (v & Hfold & Hlen & Hv).
    + intros [a i] Hin. apply (mask_in_space _ _ _ _ Hseat Hin).
    + apply length_replicate.
    + exists v. split; [exact Hfold|]. split; [exact Hlen|].
      intros i m Hi. rewrite (Hv i m Hi). f_equal.
      rewrite lookup_replicate_2
        by (eapply lookup_lt_Some; exact Hi).
      reflexivity.
Qed.

Lemma mask_vector_marks_the_mask_witness :
  (forall p, turn dukes_env = Start p ->
             (p < length (players (world dukes_env)))%nat)
  /\ get_action_mask dukes_env
     = Ok [false; false; false; false; false; false; false; false; false;
           false; false; false; true; true; true; true; false; false; true].
Proof.
  assert (forall p, turn dukes_env = Start p ->
                    (p < length (players (world dukes_env)))%nat) as Hseat.
  { intros p [= <-]. simpl. lia. }
  split; [exact Hseat|].
  destruct (mask_vector_marks_the_mask dukes_env Hseat)
    as (_ & _ & v & Hmask & _).
  rewrite Hmask. vm_compute in Hmask. injection Hmask as <-. reflexivity.
Defined.

(** ** The phases of a turn *)

Section Yields.

Context {A : Type} (P : A -> Prop).

Lemma yields_ret a : P a -> yields P (ret a).
Proof. intros Ha w a' w' [= <- _]. exact Ha. Qed.

Lemma yields_raise x : yields P (raise x).
Proof. intros w a w' H. discriminate H. Qed.

Lemma yields_bind {B} (m : M B) (k : B -> M A) :
  (forall b, yields P (k b)) -> yields P (bind m k).
Proof.
  intros Hk w a w' H. unfold bind in H.
  destruct (m w) as [[b|x] w1]; [|discriminate H].
  exact (Hk b w1 a w' H).
Qed.

End Yields.

Lemma step_hands_on s action target :
  yields (handed_on s action target) (step s action target).
Proof.
  destruct s; cbn [step];
    unfold Start.step, Challenge.step, ChallengeResolve.step,
      ForeignAidBlock.step, TargetBlock.step, BlockChallenge.step,
      BlockChallengeResolve.step, ActionResolve.step,
      ExchangeResolve.step, ExchangeTwoResolve.step, EndTurn.step,
      GameOver.step, BlockChallengeResolve.toEndTurn;
    cbv zeta;
    repeat
      first
        [ apply yields_raise
        | apply yields_bind; intros ?
        | match goal with
          | |- yields _ (if ?b then _ else _) => destruct b
          | |- yields _ (match ?x with _ => _ end) => destruct x
          end
        | apply yields_ret ];
    (split; [simpl; tauto|]); (split; [reflexivity|]);
    (split; [intros ?; simpl; intros H; try discriminate H; exact H|]);
    (split; [intros ?; simpl; intros H; try discriminate H; exact H|]);
    intros ?; simpl; intros H; try discriminate H;
    first
      [ right; split; [first [left; discriminate | right; reflexivity]
                      | exact H]
      | left; split; [reflexivity | split; [discriminate | reflexivity]] ].
Qed.

(** X9: a step that returns leads from a phase to one of the phases its
    class names as successors: Start to Challenge, ForeignAidBlock,
    ActionResolve or EndTurn; ExchangeResolve to ExchangeTwoResolve only;
    the resolve phases ActionResolve and ExchangeTwoResolve to EndTurn
    only; EndTurn to nothing; GameOver to itself; and so on.  No step
    returns to Start: a new turn is opened by the driver alone.  The table
    is exact: each of its twenty-seven edges is taken by some move on some
    store. *)
Theorem step_follows_the_phase_graph :
  (forall s action target w s' w',
      step s action target w = (Ok s', w') ->
      In (phase_of s') (successors (phase_of s)) /\ phase_of s' <> PStart)
  /\ (forall ph ph',
         In ph' (successors ph) ->
         exists s action target w s' w',
           phase_of s = ph
           /\ step s action target w = (Ok s', w')
           /\ phase_of s' = ph').
Proof.
  split.
  - intros s action target w s' w' Hrun.
    destruct (step_hands_on s action target w s' w' Hrun) as [Hin _].
    split; [exact Hin|].
    intros Heq. rewrite Heq in Hin. destruct (phase_of s); simpl in Hin;
      intuition discriminate.
  - intros ph ph' Hin.
    exists (edge_run ph ph').1.1, (edge_run ph ph').1.2, (edge_run ph ph').2,
      table_steal.
    destruct ph; simpl in Hin;
      repeat (destruct Hin as [<-|Hin]); try destruct Hin;
      (eexists; eexists; split; [reflexivity|]);
      (split; [vm_compute; reflexivity | reflexivity]).
Qed.

Lemma step_follows_the_phase_graph_witness :
  step (Challenge 1%nat tax_act) CHALLENGE_CALL 1%nat table_dukes
  = (Ok (ChallengeResolve 1%nat tax_act
           (mkChallengeInfo on_action 1%nat 1%nat)),
     snd (step (Challenge 1%nat tax_act) CHALLENGE_CALL 1%nat table_dukes))
  /\ In PChallengeResolve (successors PChallenge).
Proof.
  assert (step (Challenge 1%nat tax_act) CHALLENGE_CALL 1%nat table_dukes
          = (Ok (ChallengeResolve 1%nat tax_act
                   (mkChallengeInfo on_action 1%nat 1%nat)),
             snd (step (Challenge 1%nat tax_act) CHALLENGE_CALL 1%nat
                       table_dukes))) as Hrun by reflexivity.
  split; [exact Hrun|].
  exact (proj1 (proj1 step_follows_the_phase_graph _ _ _ _ _ _ Hrun)).
Defined.

(** X10: the record of a turn only grows.  A step out of Start records the
    player, the action chosen and the target it was given, and every later
    step that returns hands the same act on; a block and a challenge to a
    block, once recorded, are handed on as well.  The challenge to the
    action is handed on too, with one exception: ChallengeResolve drops it
    when the challenged action goes on to ExchangeResolve or TargetBlock,
    and keeps it only when the turn ends there. *)
Theorem turn_record_is_handed_on s action target w s' w' :
  step s action target w = (Ok s', w') ->
  match s with
  | Start player => turn_act s' = Some (mkActInfo player action target)
  | GameOver => s' = GameOver
  | _ => turn_act s' = turn_act s
  end
  /\ (forall b, turn_block s = Some b -> turn_block s' = Some b)
  /\ (forall c, turn_block_challenge s = Some c ->
                turn_block_challenge s' = Some c)
  /\ (forall c, turn_challenge s = Some c ->
                (phase_of s = PChallengeResolve /\ phase_of s' <> PEndTurn
                 /\ turn_challenge s' = None)
                \/ ((phase_of s <> PChallengeResolve
                     \/ phase_of s' = PEndTurn)
                    /\ turn_challenge s' = Some c)).
Proof.
  intros Hrun.
  destruct (step_hands_on s action target w s' w' Hrun) as [_ H].
  exact H.
Qed.

Lemma turn_record_is_handed_on_witness :
  turn_challenge
    (ChallengeResolve 1%nat (mkActInfo 0%nat EXCHANGE 0%nat)
       (mkChallengeInfo on_action 1%nat 1%nat))
  = Some (mkChallengeInfo on_action 1%nat 1%nat)
  /\ exists s' w',
       step (ChallengeResolve 1%nat (mkActInfo 0%nat EXCHANGE 0%nat)
               (mkChallengeInfo on_action 1%nat 1%nat))
            LOSE_CAPTAIN 1%nat table_dukes
       = (Ok s', w')
       /\ turn_act s' = Some (mkActInfo 0%nat EXCHANGE 0%nat)
       /\ turn_challenge s' = None.
Proof.
  split; [reflexivity|].
  eexists. eexists.
  assert (Hrun :
            step (ChallengeResolve 1%nat (mkActInfo 0%nat EXCHANGE 0%nat)
                    (mkChallengeInfo on_action 1%nat 1%nat))
                 LOSE_CAPTAIN 1%nat table_dukes
            = (Ok (ExchangeResolve 0%nat (mkActInfo 0%nat EXCHANGE 0%nat)
                                   None),
               snd (step (ChallengeResolve 1%nat
                            (mkActInfo 0%nat EXCHANGE 0%nat)
                            (mkChallengeInfo on_action 1%nat 1%nat))
                         LOSE_CAPTAIN 1%nat table_dukes)))
    by reflexivity.
  split; [exact Hrun|].
  destruct (turn_record_is_handed_on _ _ _ _ _ _ Hrun)
    as (Hact & _ & _ & Hchl).
  split; [exact Hact|].
  destruct (Hchl _ eq_refl) as [(_ & _ & Hnone)|[[Hne|Hend] _]].
  - exact Hnone.
  - exfalso. apply Hne. reflexivity.
  - discriminate Hend.
Defined.

(** ** Rounds in which everybody passes *)

Section PassRound.

Variables (actor : pid) (mk : pid -> State) (pass : Action)
          (flag : Player -> Player) (fin : State) (eff : World -> World).

Hypothesis Hflag : forall pl, cards (flag pl) = cards pl.

Hypothesis Hask : forall fuel player w,
  pass_round (S fuel) (mk player) w
  = match step (mk player) pass player w with
    | (Ok turn', w') =>
        let '(asked, r) := pass_round fuel turn' w' in (player :: asked, r)
    | (Raise x, w') => ([player], (Raise x, w'))
    end.

Hypothesis Hfin : forall fuel w, pass_round fuel fin w = ([], (Ok fin, w)).

Hypothesis Hstep : forall w player k,
  (player < length (players w))%nat ->
  (1 <= k < length (players w))%nat ->
  (forall j, (1 <= j < k)%nat ->
             Player.alive w (seat_after w player j) = false) ->
  Player.alive w (seat_after w player k) = true ->
  step (mk player) pass player w
  = if decide (seat_after w player k = actor)
    then (Ok fin, eff (update_player player flag w))
    else (Ok (mk (seat_after w player k)), update_player player flag w).

Lemma pass_round_from m :
  forall j fuel w,
    (actor < length (players w))%nat ->
    (1 <= j)%nat -> (1 <= m)%nat ->
    (j + m = length (players w))%nat ->
    (m <= fuel)%nat ->
    Player.alive w actor = true ->
    pass_round fuel (mk (seat_after w actor j)) w
    = (seat_after w actor j :: living_between w actor (S j) (m - 1),
       (Ok fin,
        eff (raise_flags flag
               (seat_after w actor j :: living_between w actor (S j) (m - 1))
               w))).
Proof.
  induction m as [m IH] using lt_wf_ind.
  intros j fuel w Ha Hj Hm Hjm Hfuel Halive.
  destruct fuel as [|fuel]; [lia|].
  assert (Hend : Player.alive w (seat_after w actor (j + m)) = true).
  { rewrite Hjm, seat_after_n by exact Ha. exact Halive. }
  destruct (first_living w actor m j Hm Hend) as (k & Hk & Hk1 & Hk2).
  rewrite Hask.
  rewrite (Hstep w (seat_after w actor j) k).
  - rewrite seat_after_add.
    assert (Hgap : living_between w actor (S j) (k - 1) = []).
    { apply living_between_dead. intros i Hi.
      replace i with (j + (i - j))%nat by lia. apply Hk2. lia. }
    destruct (decide (seat_after w actor (j + k) = actor)) as [Heq|Hne].
    + assert (k = m) as ->.
      { destruct (decide (k = m)) as [|Hkm]; [assumption|]. exfalso.
        revert Heq. apply seat_after_other; [exact Ha | lia]. }
      rewrite Hfin, Hgap. reflexivity.
    + assert (k < m)%nat as Hlt.
      { destruct (decide (k = m)) as [->|]; [|lia]. exfalso. apply Hne.
        rewrite Hjm. apply seat_after_n, Ha. }
      rewrite <- (seat_after_update w (seat_after w actor j) flag actor
                                    (j + k)).
      rewrite (IH (m - k)%nat); try lia.
      * rewrite seat_after_update.
        rewrite living_between_update by exact Hflag.
        replace (m - 1)%nat with ((k - 1) + (1 + (m - k - 1)))%nat by lia.
        rewrite living_between_app, Hgap.
        rewrite living_between_app.
        replace (S j + (k - 1))%nat with (j + k)%nat by lia.
        rewrite (living_between_alive w actor (j + k) Hk1).
        replace (j + k + 1)%nat with (S (j + k)) by lia.
        reflexivity.
      * rewrite length_players_update. exact Ha.
      * rewrite length_players_update. lia.
      * rewrite alive_update by exact Hflag. exact Halive.
  - apply seat_after_lt. lia.
  - lia.
  - intros i Hi. rewrite seat_after_add. apply Hk2. exact Hi.
  - rewrite seat_after_add. exact Hk1.
Qed.

End PassRound.

Lemma challenge_pass_tax w player act k :
  act_action act = TAX ->
  (player < length (players w))%nat ->
  (1 <= k < length (players w))%nat ->
  (forall j, (1 <= j < k)%nat ->
             Player.alive w (seat_after w player j) = false) ->
  Player.alive w (seat_after w player k) = true ->
  step (Challenge player act) CHALLENGE_PASS player w
  = if decide (seat_after w player k = act_actor act)
    then (Ok (EndTurn act None None None None),
          update_player (act_actor act)
            (fun pl => set_coins (coins pl + 3) pl)
            (update_player player (set_challenge_passed true) w))
    else (Ok (Challenge (seat_after w player k) act),
          update_player player (set_challenge_passed true) w).
Proof.
  intros Htax Hp Hk Hdead Halive.
  cbn [step]. unfold Challenge.step, bind, modify. cbv zeta.
  destruct (decide (CHALLENGE_PASS = CHALLENGE_PASS)); [|congruence].
  rewrite (next_alive_after_flag w player _ k) by (assumption || reflexivity).
  destruct (decide (seat_after w player k = act_actor act)).
  - rewrite Htax. reflexivity.
  - rewrite (next_alive_after_flag w player _ k)
      by (assumption || reflexivity).
    reflexivity.
Qed.

Lemma foreign_aid_pass w player act challenge k :
  (player < length (players w))%nat ->
  (1 <= k < length (players w))%nat ->
  (forall j, (1 <= j < k)%nat ->
             Player.alive w (seat_after w player j) = false) ->
  Player.alive w (seat_after w player k) = true ->
  step (ForeignAidBlock player act challenge) BLOCK_PASS player w
  = if decide (seat_after w player k = act_actor act)
    then (Ok (EndTurn act challenge None None None),
          update_player (act_actor act)
            (fun pl => set_coins (coins pl + 2) pl)
            (update_player player (set_block_passed true) w))
    else (Ok (ForeignAidBlock (seat_after w player k) act challenge),
          update_player player (set_block_passed true) w).
Proof.
  intros Hp Hk Hdead Halive.
  cbn [step]. unfold ForeignAidBlock.step, bind, modify.
  destruct (decide (BLOCK_PASS = BLOCK_PASS)); [|congruence].
  rewrite (next_alive_after_flag w player _ k) by (assumption || reflexivity).
  destruct (decide (seat_after w player k = act_actor act)).
  - reflexivity.
  - rewrite (next_alive_after_flag w player _ k)
      by (assumption || reflexivity).
    reflexivity.
Qed.

(** The living seats after [p], when the first of them is [k] places on. *)
Lemma living_between_first w p k m :
  (1 <= k <= m)%nat ->
  (forall j, (1 <= j < k)%nat ->
             Player.alive w (seat_after w p j) = false) ->
  Player.alive w (seat_after w p k) = true ->
  living_between w p 1 m
  = seat_after w p k :: living_between w p (S k) (m - k).
Proof.
  intros Hk Hdead Halive.
  replace m with ((k - 1) + (1 + (m - k)))%nat at 1 by lia.
  rewrite living_between_app, living_between_dead
    by (intros i Hi; apply Hdead; lia).
  rewrite living_between_app.
  replace (1 + (k - 1))%nat with k by lia.
  rewrite (living_between_alive w p k Halive).
  replace (k + 1)%nat with (S k) by lia. reflexivity.
Qed.

(** X11: a Tax or a Foreign Aid that nobody contests.  With the player
    seated and alive and another seat alive, the round asks every living
    seat other than the player once, in seating order from the seat after
    the player, each Pass raising the flag of the seat that passes
    ([challenge_passed] for Tax, [block_passed] for Foreign Aid); the last
    Pass ends the turn and pays the player three coins for Tax, two for
    Foreign Aid.  Nothing else in the store changes. *)
Theorem uncontested_tax_or_foreign_aid w p action target :
  (p < length (players w))%nat ->
  Player.alive w p = true ->
  (exists q, living_other w p q) ->
  action = TAX \/ action = FOREIGN_AID ->
  uncontested w p action target
  = (living_between w p 1 (length (players w) - 1),
     (Ok (EndTurn (mkActInfo p action target) None None None None),
      update_player p
        (fun pl =>
           set_coins (coins pl + (if decide (action = TAX) then 3 else 2)) pl)
        (raise_flags
           (if decide (action = TAX) then set_challenge_passed true
            else set_block_passed true)
           (living_between w p 1 (length (players w) - 1)) w))).
Proof.
  intros Hseat Halive (q & Hq & Hne & Hqalive) Haction.
  destruct (seat_after_reach w p q Hseat Hq Hne) as (k0 & Hk0 & <-).
  destruct (first_living w p k0 0%nat) as (k & Hk & Hk1 & Hk2);
    [lia | exact Hqalive |].
  cbn [Nat.add] in Hk1, Hk2.
  pose proof (next_alive_first w p k Hseat ltac:(lia) Hk2 Hk1) as Hnext.
  rewrite (living_between_first w p k) by (try lia; assumption).
  replace (length (players w) - 1 - k)%nat
    with (length (players w) - k - 1)%nat by lia.
  unfold uncontested, Start.step. cbv zeta.
  destruct Haction as [-> | ->].
  - destruct (decide (TAX = INCOME)); [discriminate|].
    destruct (decide (TAX = FOREIGN_AID)); [discriminate|].
    destruct (decide (TAX = COUP)); [discriminate|].
    destruct (decide (TAX = ASSASSINATE)); [discriminate|].
    unfold bind, ret. cbn [action_card]. rewrite Hnext.
    destruct (decide (TAX = TAX)); [|congruence].
    apply (pass_round_from p (fun player => Challenge player
                                              (mkActInfo p TAX target))
             CHALLENGE_PASS (set_challenge_passed true)
             (EndTurn (mkActInfo p TAX target) None None None None)
             (update_player p (fun pl => set_coins (coins pl + 3) pl)));
      try lia; try assumption; try reflexivity.
    + intros fuel w0. destruct fuel; reflexivity.
    + intros w0 player k' Hp Hk' Hdead Hal.
      apply (challenge_pass_tax w0 player (mkActInfo p TAX target) k');
        (assumption || reflexivity).
  - destruct (decide (FOREIGN_AID = INCOME)); [discriminate|].
    destruct (decide (FOREIGN_AID = FOREIGN_AID)); [|congruence].
    unfold bind, ret. rewrite Hnext.
    destruct (decide (FOREIGN_AID = TAX)); [discriminate|].
    apply (pass_round_from p
             (fun player => ForeignAidBlock player
                              (mkActInfo p FOREIGN_AID target) None)
             BLOCK_PASS (set_block_passed true)
             (EndTurn (mkActInfo p FOREIGN_AID target) None None None None)
             (update_player p (fun pl => set_coins (coins pl + 2) pl)));
      try lia; try assumption; try reflexivity.
    + intros fuel w0. destruct fuel; reflexivity.
    + intros w0 player k' Hp Hk' Hdead Hal.
      apply (foreign_aid_pass w0 player
               (mkActInfo p FOREIGN_AID target) None k');
        assumption.
Qed.

Lemma uncontested_tax_or_foreign_aid_witness :
  (0 < length (players table_rich))%nat
  /\ Player.alive table_rich 0%nat = true
  /\ living_other table_rich 0%nat 2%nat
  /\ fst (uncontested table_rich 0%nat TAX 0%nat) = [2%nat]
  /\ fst (snd (uncontested table_rich 0%nat TAX 0%nat))
     = Ok (EndTurn tax_act None None None None)
  /\ coins (player_at (snd (snd (uncontested table_rich 0%nat TAX 0%nat)))
                      0%nat)
     = 5.
Proof.
  assert (0 < length (players table_rich))%nat as Hseat by (simpl; lia).
  assert (Player.alive table_rich 0%nat = true) as Halive by reflexivity.
  assert (living_other table_rich 0%nat 2%nat) as Hother.
  { split; [simpl; lia|]. split; [lia | reflexivity]. }
  split; [exact Hseat|]. split; [exact Halive|]. split; [exact Hother|].
  rewrite (uncontested_tax_or_foreign_aid table_rich 0%nat TAX 0%nat Hseat
             Halive (ex_intro _ 2%nat Hother) (or_introl eq_refl)).
  split; [reflexivity|]. split; reflexivity.
Defined.

(** ** The two putbacks of an Exchange *)

Lemma putback_step_run w p card w' :
  Player.putback p card w = (Ok tt, w') ->
  Counter.contains (cards (player_at w p)) card = true
  /\ w' = set_deck (Counter.incr (deck w) card)
            (update_player p
               (fun pl => set_cards (Counter.decr_del (cards pl) card) pl) w).
Proof.
  intros Hrun.
  destruct (Counter.contains (cards (player_at w p)) card) eqn:E.
  - rewrite putback_ok in Hrun by exact E. injection Hrun as <-.
    split; reflexivity.
  - rewrite putback_raise in Hrun by exact E. discriminate Hrun.
Qed.

Lemma putback_effect w p card w' :
  (p < length (players w))%nat ->
  Player.putback p card w = (Ok tt, w') ->
  length (players w') = length (players w)
  /\ (forall role,
         Counter.get (cards (player_at w' p)) role
         = Counter.get (cards (player_at w p)) role - unit_at card role)
  /\ (forall role,
         Counter.get (deck w') role
         = Counter.get (deck w) role + unit_at card role)
  /\ (forall q, q <> p -> player_at w' q = player_at w q)
  /\ coins (player_at w' p) = coins (player_at w p).
Proof.
  intros Hseat Hrun. apply putback_step_run in Hrun as [_ ->].
  split; [apply length_players_update|]. split; [|split; [|split]].
  - intros role. rewrite player_at_set_deck.
    rewrite player_at_update_eq by exact Hseat.
    cbn [cards set_cards]. apply get_decr_del.
  - intros role. cbn [deck set_deck]. apply get_incr.
  - intros q Hq. rewrite player_at_set_deck.
    apply player_at_update_ne. congruence.
  - rewrite player_at_set_deck.
    apply (player_at_update_field coins). reflexivity.
Qed.

(** X12: the second half of an Exchange.  From ExchangeResolve, two moves
    that are accepted one after the other lead through ExchangeTwoResolve
    to EndTurn, and they move exactly the two cards named by the moves from
    the hand of the player to the deck: role by role the hand loses what
    the deck gains, and neither the coins of the player nor any other seat
    changes. *)
Theorem exchange_returns_two_cards
        w p act challenge a1 a2 t1 t2 s2 w2 s3 w3 :
  (p < length (players w))%nat ->
  step (ExchangeResolve p act challenge) a1 t1 w = (Ok s2, w2) ->
  step s2 a2 t2 w2 = (Ok s3, w3) ->
  exists c1 c2,
    action_card a1 = Some c1 /\ action_card a2 = Some c2
    /\ s2 = ExchangeTwoResolve p act challenge
    /\ s3 = EndTurn act challenge None None None
    /\ (forall role,
           Counter.get (cards (player_at w3 p)) role
           = Counter.get (cards (player_at w p)) role
             - unit_at c1 role - unit_at c2 role)
    /\ (forall role,
           Counter.get (deck w3) role
           = Counter.get (deck w) role + unit_at c1 role + unit_at c2 role)
    /\ (forall q, q <> p -> player_at w3 q = player_at w q)
    /\ coins (player_at w3 p) = coins (player_at w p).
Proof.
  intros Hseat Hrun1 Hrun2.
  cbn [step] in Hrun1. unfold ExchangeResolve.step, bind in Hrun1.
  destruct (action_card a1) as [c1|]; cbn [assert_card] in Hrun1;
    [|discriminate Hrun1].
  unfold ret at 1 in Hrun1.
  destruct (Player.putback p c1 w) as [[[]|x] w1] eqn:Hput1;
    [|discriminate Hrun1].
  injection Hrun1 as <- <-.
  cbn [step] in Hrun2. unfold ExchangeTwoResolve.step, bind in Hrun2.
  destruct (action_card a2) as [c2|]; cbn [assert_card] in Hrun2;
    [|discriminate Hrun2].
  unfold ret at 1 in Hrun2.
  destruct (Player.putback p c2 w1) as [[[]|x] w2] eqn:Hput2;
    [|discriminate Hrun2].
  injection Hrun2 as <- <-.
  destruct (putback_effect w p c1 w1 Hseat Hput1)
    as (Hlen1 & Hhand1 & Hdeck1 & Hothers1 & Hcoins1).
  destruct (putback_effect w1 p c2 w2 ltac:(lia) Hput2)
    as (Hlen2 & Hhand2 & Hdeck2 & Hothers2 & Hcoins2).
  exists c1, c2. repeat (split; [reflexivity|]).
  split; [|split; [|split]].
  - intros role. rewrite Hhand2, Hhand1. reflexivity.
  - intros role. rewrite Hdeck2, Hdeck1. reflexivity.
  - intros q Hq. rewrite Hothers2, Hothers1 by exact Hq. reflexivity.
  - congruence.
Qed.

Lemma exchange_returns_two_cards_witness :
  (0 < length (players table_steal))%nat
  /\ exists w2 w3,
       step (ExchangeResolve 0%nat (mkActInfo 0%nat EXCHANGE 0%nat) None)
            LOSE_CAPTAIN 0%nat table_steal
       = (Ok (ExchangeTwoResolve 0%nat (mkActInfo 0%nat EXCHANGE 0%nat)
                                 None), w2)
       /\ step (ExchangeTwoResolve 0%nat (mkActInfo 0%nat EXCHANGE 0%nat)
                                   None)
               LOSE_DUKE 0%nat w2
          = (Ok (EndTurn (mkActInfo 0%nat EXCHANGE 0%nat) None None None
                         None), w3)
       /\ Counter.get (deck w3) CAPTAIN = 1
       /\ Counter.get (cards (player_at w3 0%nat)) DUKE = 0.
Proof.
  assert (0 < length (players table_steal))%nat as Hseat by (simpl; lia).
  split; [exact Hseat|].
  set (act := mkActInfo 0%nat EXCHANGE 0%nat).
  set (w2 := snd (step (ExchangeResolve 0%nat act None) LOSE_CAPTAIN 0%nat
                       table_steal)).
  set (w3 := snd (step (ExchangeTwoResolve 0%nat act None) LOSE_DUKE 0%nat
                       w2)).
  assert (Hrun1 : step (ExchangeResolve 0%nat act None) LOSE_CAPTAIN 0%nat
                       table_steal
                  = (Ok (ExchangeTwoResolve 0%nat act None), w2))
    by reflexivity.
  assert (Hrun2 : step (ExchangeTwoResolve 0%nat act None) LOSE_DUKE 0%nat
                       w2
                  = (Ok (EndTurn act None None None None), w3))
    by reflexivity.
  exists w2, w3. split; [exact Hrun1|]. split; [exact Hrun2|].
  destruct (exchange_returns_two_cards _ _ _ _ _ _ _ _ _ _ _ _
              Hseat Hrun1 Hrun2)
    as (c1 & c2 & Hc1 & Hc2 & _ & _ & Hhand & Hdeck & _).
  injection Hc1 as <-. injection Hc2 as <-.
  split; [rewrite Hdeck | rewrite Hhand]; reflexivity.
Defined.

(** ** A bluff that is called *)

Lemma lose_step_run w p card w' :
  Player.lose p card w = (Ok tt, w') ->
  Counter.contains (cards (player_at w p)) card = true
  /\ w' = update_player p
            (fun pl => set_cards (Counter.decr_del (cards pl) card) pl) w.
Proof.
  intros Hrun.
  destruct (Counter.contains (cards (player_at w p)) card) eqn:E.
  - rewrite lose_ok in Hrun by exact E. injection Hrun as <-.
    split; reflexivity.
  - rewrite lose_raise in Hrun by exact E. discriminate Hrun.
Qed.

(** X13: a bluff that is called costs a card and nothing else.  When the
    actor does not hold the role its action claims, a Call leaves the
    store as it is and makes the actor the loser of the challenge; whatever
    card the actor then gives up, the turn ends there, the action is never
    carried out, and the store differs from the one before the Call by
    that one card only: no coin moves, no card is drawn. *)
Theorem called_bluff_costs_one_card w player act card target :
  action_card (act_action act) = Some card ->
  holds w (act_actor act) card = false ->
  let chl := mkChallengeInfo on_action player (act_actor act) in
  step (Challenge player act) CHALLENGE_CALL target w
  = (Ok (ChallengeResolve (act_actor act) act chl), w)
  /\ forall action target' s' w',
       step (ChallengeResolve (act_actor act) act chl) action target' w
       = (Ok s', w') ->
       s' = EndTurn act (Some chl) None None None
       /\ exists lost,
            action_card action = Some lost
            /\ Counter.contains (cards (player_at w (act_actor act))) lost
               = true
            /\ w' = update_player (act_actor act)
                      (fun pl =>
                         set_cards (Counter.decr_del (cards pl) lost) pl)
                      w.
Proof.
  intros Hcard Hbluff chl. split.
  - cbn [step]. unfold Challenge.step. cbv zeta.
    destruct (decide (CHALLENGE_CALL = CHALLENGE_PASS)); [discriminate|].
    destruct (decide (CHALLENGE_CALL = CHALLENGE_CALL)); [|congruence].
    rewrite Hcard. unfold bind, assert_card, ret, read. rewrite Hbluff.
    reflexivity.
  - intros action target' s' w' Hrun.
    cbn [step] in Hrun. unfold ChallengeResolve.step, bind in Hrun.
    destruct (action_card action) as [lost|]; cbn [assert_card] in Hrun;
      [|discriminate Hrun].
    unfold ret at 1 in Hrun.
    destruct (Player.lose (act_actor act) lost w) as [[[]|x] w1] eqn:Hlose;
      [|discriminate Hrun].
    cbn [chl_loser chl] in Hrun.
    destruct (decide (act_actor act = act_actor act)); [|congruence].
    injection Hrun as <- <-.
    apply lose_step_run in Hlose as [Hheld ->].
    split; [reflexivity|]. exists lost. repeat split. exact Hheld.
Qed.

Lemma called_bluff_costs_one_card_witness :
  action_card (act_action tax_act) = Some DUKE
  /\ holds table_rich 2%nat DUKE = false
  /\ step (Challenge 0%nat (mkActInfo 2%nat TAX 2%nat)) CHALLENGE_CALL 0%nat
          table_rich
     = (Ok (ChallengeResolve 2%nat (mkActInfo 2%nat TAX 2%nat)
              (mkChallengeInfo on_action 0%nat 2%nat)),
        table_rich).
Proof.
  split; [reflexivity|]. split; [reflexivity|].
  exact (proj1 (called_bluff_costs_one_card table_rich 0%nat
                  (mkActInfo 2%nat TAX 2%nat) DUKE 0%nat
                  eq_refl eq_refl)).
Defined.

(** ** A new turn *)

Lemma reset_flags_clear w p q :
  (q = p \/ flags_clear w q) ->
  flags_clear (update_player p reset_flags w) q.
Proof.
  intros H. destruct (decide (p = q)) as [->|Hne].
  - destruct (Nat.lt_ge_cases q (length (players w))) as [Hq|Hq].
    + unfold flags_clear. rewrite player_at_update_eq by exact Hq.
      repeat split.
    + rewrite player_at_update_out by exact Hq.
      unfold flags_clear, player_at.
      rewrite lookup_ge_None_2 by exact Hq. repeat split.
  - destruct H as [->|H]; [congruence|].
    unfold flags_clear. rewrite player_at_update_ne by exact Hne. exact H.
Qed.

Lemma end_turn_scan_none seats ags : forall w w1,
  end_turn_scan seats ags w = (None, w1) ->
  forall q, (In q seats \/ flags_clear w q) -> flags_clear w1 q.
Proof.
  induction seats as [|p rest IH]; intros w w1 Hscan q Hq.
  - injection Hscan as <-. destruct Hq as [[]|Hq]. exact Hq.
  - cbn [end_turn_scan] in Hscan. cbv zeta in Hscan.
    destruct (_ && _); [discriminate Hscan|].
    apply (IH _ _ Hscan).
    destruct Hq as [[<-|Hin]|Hclear].
    + right. apply reset_flags_clear. left. reflexivity.
    + left. exact Hin.
    + right. apply reset_flags_clear. right. exact Hclear.
Qed.

Lemma next_alive_loop_alive fuel w self : forall player q,
  Player.next_alive_loop fuel w self player = Ok q ->
  Player.alive w q = true.
Proof.
  induction fuel as [|fuel IH]; intros player q; simpl; [discriminate|].
  destruct (decide (player = self)); [discriminate|].
  destruct (Player.alive w player) eqn:E.
  - intros [= <-]. exact E.
  - apply IH.
Qed.

Lemma end_of_turn_start e e' p :
  (forall q, turn e <> Start q) ->
  end_of_turn e = (Ok tt, e') ->
  turn e' = Start p ->
  (forall q, flags_clear (world e') q)
  /\ n_turn e' = n_turn e + 1
  /\ Player.alive (world e') p = true
  /\ exists act, turn_act (turn e) = Some act
                 /\ fst (Player.next_alive (act_actor act) (world e'))
                    = Ok p.
Proof.
  intros Hturn Hrun Hstart. unfold end_of_turn in Hrun.
  destruct (turn e) as [q| | | | | | | | | |act chl blk bchl pl|] eqn:Ht;
    try (injection Hrun as <-; rewrite Ht in Hstart; discriminate Hstart);
    try (exfalso; exact (Hturn q eq_refl)).
  destruct (end_turn_scan _ _ _) as [dead w1] eqn:Hscan.
  destruct dead as [d|].
  { injection Hrun as <-. discriminate Hstart. }
  destruct (agents e) as [|a [|b l]].
  - injection Hrun as <-. cbn [turn set_world] in Hstart.
    rewrite Ht in Hstart. discriminate Hstart.
  - destruct (decide _); [|discriminate Hrun].
    injection Hrun as <-. discriminate Hstart.
  - unfold Player.next_alive in Hrun.
    destruct (Player.next_alive_loop _ _ _ _) as [nxt|x] eqn:Hnext;
      [|discriminate Hrun].
    injection Hrun as <-. cbn [turn world n_turn] in *.
    injection Hstart as ->.
    split; [|split; [reflexivity|split]].
    + intros q.
      destruct (Nat.lt_ge_cases q (length (players (world e)))) as [Hq|Hq].
      * apply (end_turn_scan_none _ _ _ _ Hscan). left. apply in_seq. lia.
      * apply (end_turn_scan_none _ _ _ _ Hscan). right.
        unfold flags_clear, player_at.
        rewrite lookup_ge_None_2 by exact Hq. repeat split.
    + apply (next_alive_loop_alive _ _ _ _ _ Hnext).
    + exists act. split; [reflexivity|].
      unfold Player.next_alive. cbn [fst]. exact Hnext.
Qed.

(** X14: how the driver opens a turn.  When [raw_env.step] returns with a
    Start phase, the three pass flags of every seat are down, the turn
    counter has gone up by one, and the player of the new turn is alive: it
    is the seat that [next_alive] gives for the actor of the turn that
    ended. *)
Theorem new_turn_starts_clean action e e' p :
  env_step action e = (Ok tt, e') ->
  turn e' = Start p ->
  (forall q, flags_clear (world e') q)
  /\ n_turn e' = n_turn e + 1
  /\ Player.alive (world e') p = true
  /\ exists actor,
       (turn e = Start actor
        \/ exists act, turn_act (turn e) = Some act /\ act_actor act = actor)
       /\ fst (Player.next_alive actor (world e')) = Ok p.
Proof.
  intros Hrun Hstart. unfold env_step in Hrun.
  destruct action as [action|].
  - destruct (turn_player _ _) as [[player|x] w0]; [|discriminate Hrun].
    destruct (acts e !! action) as [[a tgt]|]; [|discriminate Hrun].
    case_bool_decide; [|discriminate Hrun].
    cbv zeta in Hrun. destruct (negb _); [discriminate Hrun|].
    destruct (step _ _ _ _) as [[s|x] w1] eqn:Hstep; [|discriminate Hrun].
    destruct (step_hands_on _ _ _ _ _ _ Hstep) as (Hin & Hact & _).
    assert (Hnot : forall q, s <> Start q).
    { intros q ->. destruct (phase_of (turn e)); simpl in Hin;
        intuition discriminate. }
    destruct (end_of_turn_start
                (mkEnv w1 s (agents e) (n_turn e) (terminations e)) e' p
                Hnot Hrun Hstart)
      as (Hflags & Hn & Halive & act & Hact' & Hnext).
    cbn [turn n_turn] in *.
    split; [exact Hflags|]. split; [exact Hn|]. split; [exact Halive|].
    exists (act_actor act). split; [|exact Hnext].
    destruct (turn e) as [q| | | | | | | | | | |]; cbn [turn_act] in *.
    + left. assert (Some act = Some (mkActInfo q a
                 (Nat.iter (Z.to_nat tgt) (Player.next (world e)) player)))
        as [= ->] by congruence.
      reflexivity.
    + right. exists act. split; [congruence | reflexivity].
    + right. exists act. split; [congruence | reflexivity].
    + right. exists act. split; [congruence | reflexivity].
    + right. exists act. split; [congruence | reflexivity].
    + right. exists act. split; [congruence | reflexivity].
    + right. exists act. split; [congruence | reflexivity].
    + right. exists act. split; [congruence | reflexivity].
    + right. exists act. split; [congruence | reflexivity].
    + right. exists act. split; [congruence | reflexivity].
    + right. exists act. split; [congruence | reflexivity].
    + subst s. discriminate Hact'.
  - destruct (turn e) as [| | | | | | | | | |act chl blk bchl [agent|]|]
      eqn:Ht; try discriminate Hrun.
    destruct (list_remove agent (agents e)) as [ags|]; [|discriminate Hrun].
    cbv zeta in Hrun. destruct (existsb _ _); [|discriminate Hrun].
    assert (Hnot : forall q, EndTurn act chl blk bchl (Some agent)
                             <> Start q) by discriminate.
    destruct (end_of_turn_start
                (mkEnv (world e) (EndTurn act chl blk bchl (Some agent)) ags
                       (n_turn e) (dict_del agent (terminations e)))
                e' p Hnot Hrun Hstart)
      as (Hflags & Hn & Halive & act' & Hact' & Hnext).
    cbn [turn n_turn turn_act] in *. injection Hact' as <-.
    split; [exact Hflags|]. split; [exact Hn|]. split; [exact Halive|].
    exists (act_actor act). split; [|exact Hnext].
    right. exists act. split; reflexivity.
Qed.

Lemma new_turn_starts_clean_witness :
  env_step (Some 14%nat) (game3 table_dukes)
  = (Ok tt, snd (env_step (Some 14%nat) (game3 table_dukes)))
  /\ turn (snd (env_step (Some 14%nat) (game3 table_dukes))) = Start 1%nat
  /\ n_turn (snd (env_step (Some 14%nat) (game3 table_dukes))) = 2.
Proof.
  assert (Hrun : env_step (Some 14%nat) (game3 table_dukes)
                 = (Ok tt, snd (env_step (Some 14%nat) (game3 table_dukes))))
    by reflexivity.
  assert (Hstart : turn (snd (env_step (Some 14%nat) (game3 table_dukes)))
                   = Start 1%nat) by reflexivity.
  split; [exact Hrun|]. split; [exact Hstart|].
  destruct (new_turn_starts_clean _ _ _ _ Hrun Hstart) as (_ & Hn & _).
  exact Hn.
Defined.

(** ** Observations *)

Lemma observe_act_length w act player :
  (player < length (players w))%nat ->
  length (observe_act w act player)
  = (length START_ACTION + length (players w) + length (players w))%nat.
Proof.
  intros Hseat. unfold observe_act. cbv zeta.
  destruct act; rewrite !length_app, !length_map, enum_all_length
    by exact Hseat; lia.
Qed.

Lemma observe_challenge_length w chl player :
  (player < length (players w))%nat ->
  length (observe_challenge w chl player) = (3 * length (players w))%nat.
Proof.
  intros Hseat. unfold observe_challenge. cbv zeta.
  destruct chl as [[[] ? ?]|]; cbn [chl_type];
    rewrite !length_app, !length_map, enum_all_length by exact Hseat; lia.
Qed.

Lemma observe_block_length w blk player :
  (player < length (players w))%nat ->
  length (observe_block w blk player)
  = (length BLOCK_ACTION + length (players w) + length (players w))%nat.
Proof.
  intros Hseat. unfold observe_block. cbv zeta.
  destruct blk;
    rewrite !length_app, ?length_replicate, !length_map, enum_all_length
      by exact Hseat; lia.
Qed.

(** X15: the observation has the shape declared for it.  For an agent with
    a seat, [observe] returns a list whose length is the sum of the sizes
    of the records of [observation_space] for the number of seats, 12 n +
    22, whatever the phase and the store; for an agent without a seat
    [find_player] raises ValueError. *)
Theorem observation_has_the_declared_shape e agent max_card_count :
  (if decide (agent < length (players (world e)))%nat
   then exists obs,
          observe e agent = Ok obs
          /\ length obs
             = obs_shape (observation_space (length (players (world e)))
                                            max_card_count)
   else observe e agent = Raise ValueError)
  /\ obs_shape (observation_space (length (players (world e)))
                                  max_card_count)
     = (12 * length (players (world e)) + 22)%nat.
Proof.
  assert (Hshape : obs_shape (observation_space (length (players (world e)))
                                                max_card_count)
                   = (12 * length (players (world e)) + 22)%nat).
  { unfold obs_shape, observation_space. simpl. lia. }
  split; [|exact Hshape]. rewrite Hshape.
  unfold observe. cbv zeta.
  destruct (decide (agent < length (players (world e)))%nat) as [Hseat|];
    [|reflexivity].
  eexists. split; [reflexivity|].
  rewrite !length_app, !length_map.
  rewrite observe_act_length, observe_block_length,
    !observe_challenge_length, enum_all_length by exact Hseat.
  change (length CARDS) with 5%nat.
  change (length START_ACTION) with 7%nat.
  change (length BLOCK_ACTION) with 5%nat. lia.
Qed.

Section Unseen.

Variable role : CARD.

Lemma fold_incr_repeat k m : forall u,
  Counter.get (fold_left Counter.incr (repeat k m) u) role
  = Counter.get u role + Z.of_nat m * unit_at k role.
Proof.
  induction m as [|m IH]; intros u.
  - simpl. lia.
  - cbn [repeat fold_left]. rewrite IH, get_incr. lia.
Qed.

Lemma fold_incr_elements c :
  counter_ok c ->
  forall u,
    Counter.get (fold_left Counter.incr (Counter.elements c) u) role
    = Counter.get u role + Counter.get c role.
Proof.
  intros [Hwf Hpos]. induction c as [|[k v] c IH]; intros u.
  - simpl. lia.
  - apply wf_cons in Hwf as [Hfresh Hwf].
    inversion Hpos as [|kv c' Hv Hpos' E]; subst. cbn [snd] in Hv.
    change (Counter.elements ((k, v) :: c))
      with (repeat k (Z.to_nat v) ++ Counter.elements c).
    rewrite fold_left_app, (IH Hwf Hpos'), fold_incr_repeat.
    cbn [Counter.get]. unfold unit_at.
    destruct (decide (role = k)) as [->|Hne].
    + rewrite (contains_false_get _ _ Hfresh).
      destruct (decide (k = k)); [lia | congruence].
    + destruct (decide (k = role)); [congruence | lia].
Qed.

Lemma fold_hands w seats :
  world_ok w ->
  forall u,
    Counter.get
      (fold_left
         (fun u nxt =>
            fold_left Counter.incr
                      (Counter.elements (cards (player_at w nxt))) u)
         seats u)
      role
    = Counter.get u role
      + fold_right
          (fun q acc => Counter.get (cards (player_at w q)) role + acc)
          0 seats.
Proof.
  intros Hok. induction seats as [|q seats IH]; intros u.
  - simpl. lia.
  - cbn [fold_left fold_right]. rewrite IH.
    rewrite fold_incr_elements by (apply player_at_ok; exact Hok). lia.
Qed.

Lemma sum_permutation (g : pid -> Z) l l' :
  l ≡ₚ l' ->
  fold_right (fun q acc => g q + acc) 0 l
  = fold_right (fun q acc => g q + acc) 0 l'.
Proof. induction 1; simpl; lia. Qed.

Lemma list_as_lookups {A} (d : A) (l : list A) :
  l = map (fun i => default d (l !! i)) (seq 0 (length l)).
Proof.
  induction l as [|x l IH]; [reflexivity|].
  cbn [length seq map]. f_equal.
  rewrite <- seq_shift, map_map. exact IH.
Qed.

Lemma hands_count_by_seat w :
  hands_count w role
  = fold_right (fun q acc => Counter.get (cards (player_at w q)) role + acc)
               0 (seq 0 (length (players w))).
Proof.
  unfold hands_count.
  rewrite (list_as_lookups no_player (players w)) at 1.
  generalize (seq 0 (length (players w))). intros l.
  induction l as [|q l IH]; [reflexivity|].
  cbn [map fold_right]. rewrite IH. reflexivity.
Qed.

Lemma enum_others_seats w p :
  (p < length (players w))%nat ->
  map snd (Player.enum w false true p)
  = map (seat_after w p) (seq 1 (length (players w) - 1)).
Proof.
  intros Hseat. rewrite enum_others by exact Hseat.
  generalize (seq 1 (length (players w) - 1)). intros l.
  induction l as [|k l IH]; [reflexivity|].
  cbn [flat_map map]. unfold enum_entry at 1. cbn [negb orb app map snd].
  rewrite IH. reflexivity.
Qed.

(** X16: the unseen card totals of an observation are, role by role, what
    is in play and not in the hand of the observer: the copies in the deck
    plus those in the hands of the other seats.  The cards that players
    have lost are not counted. *)
Theorem unseen_is_in_play_minus_own_hand w p :
  (p < length (players w))%nat ->
  world_ok w ->
  Counter.get (unseen w p) role
  = in_play w role - Counter.get (cards (player_at w p)) role.
Proof.
  intros Hseat Hok. unfold unseen, in_play.
  rewrite fold_hands by exact Hok.
  rewrite enum_others_seats by exact Hseat.
  rewrite hands_count_by_seat.
  rewrite <- (sum_permutation
                (fun q => Counter.get (cards (player_at w q)) role)
                (map (seat_after w p) (seq 0 (length (players w))))
                (seq 0 (length (players w)))).
  - assert (Hseq : seq 0 (length (players w))
                   = 0%nat :: seq 1 (length (players w) - 1)).
    { destruct (length (players w)) as [|n]; [lia|].
      simpl. rewrite Nat.sub_0_r. reflexivity. }
    rewrite Hseq. cbn [map fold_right].
    rewrite seat_after_0 by exact Hseat. lia.
  - apply NoDup_Permutation.
    + apply ring_seats_nodup, Hseat.
    + apply NoDup_seq.
    + intros q. rewrite ring_seats_elem by exact Hseat.
      rewrite elem_of_seq. lia.
Qed.

End Unseen.

Lemma unseen_is_in_play_minus_own_hand_witness :
  (0 < length (players table_dukes))%nat
  /\ world_ok table_dukes
  /\ Counter.get (unseen table_dukes 0%nat) ASSASSIN = 1
  /\ Counter.get (unseen table_dukes 0%nat) DUKE = 0.
Proof.
  assert (0 < length (players table_dukes))%nat as Hseat by (simpl; lia).
  split; [exact Hseat|]. split; [exact world_ok_table_dukes|].
  rewrite !(unseen_is_in_play_minus_own_hand _ table_dukes 0%nat Hseat
              world_ok_table_dukes).
  split; reflexivity.
Defined.
(** ** Moves of the mask are never refused *)

Section Wp.

Context {A : Type} (Post : A -> World -> Prop) (Exc : exn -> Prop).

Lemma wp_ret a w : Post a w -> wp (ret a) Post Exc w.
Proof. intros H. exact H. Qed.

Lemma wp_raise x w : Exc x -> wp (raise x) Post Exc w.
Proof. intros H. exact H. Qed.

Lemma wp_read (f : World -> A) w : Post (f w) w -> wp (read f) Post Exc w.
Proof. intros H. exact H. Qed.

Lemma wp_bind {B} (m : M B) (k : B -> M A) w :
  wp m (fun b w' => wp (k b) Post Exc w') Exc w -> wp (bind m k) Post Exc w.
Proof.
  unfold wp, bind. destruct (m w) as [[b|x] w1]; intros H; exact H.
Qed.

End Wp.

Section WpOps.

Context (Post : unit -> World -> Prop) (Exc : exn -> Prop).







End WpOps.

Lemma wp_next_alive (Post : pid -> World -> Prop) (Exc : exn -> Prop) p w :
  Exc PlayerError -> (forall q, Post q w) ->
  wp (Player.next_alive p) Post Exc w.
Proof.
  intros Hexc Hpost. unfold wp, Player.next_alive.
  destruct (Player.next_alive_loop _ _ _ _) as [q|x] eqn:E.
  - apply Hpost.
  - assert (x = PlayerError) as ->; [|exact Hexc].
    revert E. generalize (Player.next w p).
    induction (length (players w)) as [|fuel IH]; intros player; simpl.
    + congruence.
    + destruct (decide (player = p)); [congruence|].
      destruct (Player.alive w player); [discriminate|]. apply IH.
Qed.






(** ** Cards leave the game one at a time *)

Section CardsAt.

Variables (n : nat) (role : CARD).

Lemma held_is_seated w p card :
  Counter.contains (cards (player_at w p)) card = true ->
  (p < length (players w))%nat.
Proof.
  intros Hheld. destruct (Nat.lt_ge_cases p (length (players w))) as [H|H];
    [exact H|].
  rewrite no_player_contains in Hheld by exact H. discriminate Hheld.
Qed.

Lemma cards_at_update v w p f :
  (forall pl, cards (f pl) = cards pl) ->
  cards_at n role v w -> cards_at n role v (update_player p f w).
Proof.
  intros Hf [Hlen Hv]. split.
  - rewrite length_players_update. exact Hlen.
  - rewrite in_play_update_cards by apply Hf. exact Hv.
Qed.

Context (Post : unit -> World -> Prop).

Lemma wp_update_at v w p f :
  (forall pl, cards (f pl) = cards pl) ->
  cards_at n role v w ->
  (forall w', cards_at n role v w' -> Post tt w') ->
  wp (modify (update_player p f)) Post (fun _ => True) w.
Proof.
  intros Hf Hat Hpost. apply Hpost, cards_at_update; assumption.
Qed.

Lemma wp_add_coins_at v w p d :
  cards_at n role v w ->
  (forall w', cards_at n role v w' -> Post tt w') ->
  wp (add_coins p d) Post (fun _ => True) w.
Proof.
  intros Hat Hpost. apply Hpost, cards_at_update; [reflexivity | exact Hat].
Qed.

Lemma wp_steal_at v w act :
  cards_at n role v w ->
  (forall w', cards_at n role v w' -> Post tt w') ->
  wp (resolve_steal act) Post (fun _ => True) w.
Proof.
  intros Hat Hpost. unfold wp. rewrite resolve_steal_run.
  apply Hpost. apply cards_at_update; [reflexivity|].
  apply cards_at_update; [reflexivity | exact Hat].
Qed.

Lemma wp_draw_at v w p :
  (p < n)%nat ->
  cards_at n role v w ->
  (forall w', cards_at n role v w' -> Post tt w') ->
  wp (Player.draw p) Post (fun _ => True) w.
Proof.
  intros Hp [Hlen Hv] Hpost. unfold wp.
  pose proof (run_op_conserves (OpDraw p) w role 0) as Hc.
  pose proof (run_op_length (OpDraw p) w) as Hl.
  cbn [run_op op_seat lost_by] in Hc, Hl.
  destruct (Player.draw p w) as [[[]|x] w1]; [|exact I].
  apply Hpost. cbn [snd fst] in *. split; [congruence|].
  unfold role_total in Hc. unfold in_play in *.
  specialize (Hc ltac:(lia)). lia.
Qed.

Lemma wp_putback_at v w p card :
  cards_at n role v w ->
  (forall w', (p < n)%nat -> cards_at n role v w' -> Post tt w') ->
  wp (Player.putback p card) Post (fun _ => True) w.
Proof.
  intros [Hlen Hv] Hpost. unfold wp.
  destruct (Counter.contains (cards (player_at w p)) card) eqn:E.
  - pose proof (held_is_seated w p card E) as Hp.
    pose proof (run_op_conserves (OpPutback p card) w role 0 Hp) as Hc.
    pose proof (run_op_length (OpPutback p card) w) as Hl.
    cbn [run_op op_seat lost_by] in Hc, Hl.
    destruct (Player.putback p card w) as [[[]|x] w1]; [|exact I].
    apply Hpost; [lia|]. cbn [snd fst] in *. split; [congruence|].
    unfold role_total in Hc. unfold in_play in *. lia.
  - rewrite putback_raise by exact E. exact I.
Qed.

Lemma wp_lose_at v w p card :
  cards_at n role v w ->
  (forall w', cards_at n role (v - unit_at card role) w' -> Post tt w') ->
  wp (Player.lose p card) Post (fun _ => True) w.
Proof.
  intros [Hlen Hv] Hpost. unfold wp.
  destruct (Counter.contains (cards (player_at w p)) card) eqn:E.
  - pose proof (held_is_seated w p card E) as Hp.
    pose proof (run_op_conserves (OpLose p card) w role 0 Hp) as Hc.
    pose proof (run_op_length (OpLose p card) w) as Hl.
    cbn [run_op op_seat] in Hc, Hl.
    rewrite lose_ok in * by exact E.
    apply Hpost. cbn [snd fst lost_by] in *. split; [congruence|].
    unfold role_total in Hc. unfold in_play in *. lia.
  - rewrite lose_raise by exact E. exact I.
Qed.

End CardsAt.

Lemma step_cards_at s a t w role :
  (forall act, turn_act s = Some act ->
               (act_actor act < length (players w))%nat) ->
  wp (step s a t)
     (fun _ w' =>
        cards_at (length (players w)) role
                 (in_play w role - lost_in s a role) w')
     (fun _ => True) w.
Proof.
  intros Hactor.
  assert (Hat : cards_at (length (players w)) role (in_play w role) w)
    by (split; reflexivity).
  revert Hactor Hat.
  generalize (in_play w role). generalize (length (players w)).
  intros n v Hactor Hat.
  destruct s; cbn [step turn_act lost_in] in *;
    try specialize (Hactor _ eq_refl);
    unfold Start.step, Challenge.step, ChallengeResolve.step,
      ForeignAidBlock.step, TargetBlock.step, BlockChallenge.step,
      BlockChallengeResolve.step, ActionResolve.step,
      ExchangeResolve.step, ExchangeTwoResolve.step, EndTurn.step,
      GameOver.step, BlockChallengeResolve.toEndTurn;
    cbv zeta;
    repeat
      first
        [ progress cbv beta
        | match goal with
          | |- wp (bind _ _) _ _ _ => apply wp_bind
          | |- wp (ret _) _ _ _ => apply wp_ret
          | |- wp (raise _) _ _ _ => exact I
          | |- wp (read _) _ _ _ => apply wp_read
          | |- wp (assert_card ?c) _ _ _ =>
              destruct c eqn:?; cbn [assert_card]
          | |- wp (Player.next_alive _) _ _ _ =>
              apply wp_next_alive; [exact I | intros ?]
          | H : cards_at _ _ _ ?w0 |- wp (modify _) _ _ ?w0 =>
              eapply wp_update_at;
              [intros ?; reflexivity | exact H | intros ? ?]
          | H : cards_at _ _ _ ?w0 |- wp (add_coins _ _) _ _ ?w0 =>
              eapply wp_add_coins_at; [exact H | intros ? ?]
          | H : cards_at _ _ _ ?w0 |- wp (resolve_steal _) _ _ ?w0 =>
              eapply wp_steal_at; [exact H | intros ? ?]
          | H : cards_at _ _ _ ?w0 |- wp (Player.draw _) _ _ ?w0 =>
              refine (wp_draw_at _ _ _ _ _ _ _ H _);
              [assumption | intros ? ?]
          | H : cards_at _ _ _ ?w0 |- wp (Player.putback _ _) _ _ ?w0 =>
              eapply wp_putback_at; [exact H | intros ? ? ?]
          | H : cards_at _ _ _ ?w0 |- wp (Player.lose _ _) _ _ ?w0 =>
              eapply wp_lose_at; [exact H | intros ? ?]
          | |- wp (if ?b then _ else _) _ _ _ => destruct b eqn:?
          | |- wp (match ?x with _ => _ end) _ _ _ => destruct x eqn:?
          end ];
    match goal with
    | H : cards_at _ _ ?v0 ?w0 |- cards_at _ _ _ ?w0 =>
        destruct H as [Hl Hv]; split; [exact Hl | rewrite Hv; lia]
    end.
Qed.

(** X18: cards leave the game one at a time, and only by [lose].  When the
    actor of the turn has a seat, a step that returns leaves, for every
    role, exactly as many copies in the deck and the hands together as
    before, except in ChallengeResolve, BlockChallengeResolve and
    ActionResolve, where the one card named by the move is gone.  The
    draws and putbacks of a challenge or an Exchange only move cards
    between the deck and a hand. *)
Theorem cards_leave_one_at_a_time s a t w s' w' role :
  (forall act, turn_act s = Some act ->
               (act_actor act < length (players w))%nat) ->
  step s a t w = (Ok s', w') ->
  length (players w') = length (players w)
  /\ in_play w' role = in_play w role - lost_in s a role.
Proof.
  intros Hactor Hrun.
  pose proof (step_cards_at s a t w role Hactor) as H.
  unfold wp in H. rewrite Hrun in H. exact H.
Qed.

Lemma cards_leave_one_at_a_time_witness :
  (forall act,
      turn_act (ActionResolve 1%nat coup_act None None None) = Some act ->
      (act_actor act < length (players table_steal))%nat)
  /\ step (ActionResolve 1%nat coup_act None None None) LOSE_DUKE 1%nat
          table_steal
     = (Ok (EndTurn coup_act None None None None),
        snd (step (ActionResolve 1%nat coup_act None None None) LOSE_DUKE
                  1%nat table_steal))
  /\ in_play table_steal DUKE = 2
  /\ in_play (snd (step (ActionResolve 1%nat coup_act None None None)
                        LOSE_DUKE 1%nat table_steal)) DUKE
     = 1.
Proof.
  assert (Hactor : forall act,
             turn_act (ActionResolve 1%nat coup_act None None None)
             = Some act ->
             (act_actor act < length (players table_steal))%nat).
  { intros act [= <-]. simpl. lia. }
  assert (Hrun : step (ActionResolve 1%nat coup_act None None None)
                      LOSE_DUKE 1%nat table_steal
                 = (Ok (EndTurn coup_act None None None None),
                    snd (step (ActionResolve 1%nat coup_act None None None)
                              LOSE_DUKE 1%nat table_steal)))
    by reflexivity.
  split; [exact Hactor|]. split; [exact Hrun|]. split; [reflexivity|].
  rewrite (proj2 (cards_leave_one_at_a_time _ _ _ _ _ _ DUKE Hactor Hrun)).
  reflexivity.
Defined.

(** ** A block that stands *)

Lemma run_op_keeps_coins op w q :
  coins (player_at (snd (run_op op w)) q) = coins (player_at w q).
Proof.
  destruct op as [p|p card|p card]; cbn [run_op].
  - destruct (Nat.lt_ge_cases (length (Counter.elements (deck w))) 2)
      as [Hd|Hd].
    + rewrite player_draw_raise by lia. reflexivity.
    + destruct (player_draw_ok w p Hd) as (card & _ & ->). cbn [snd].
      rewrite (player_at_update_field coins) by reflexivity. reflexivity.
  - destruct (Counter.contains (cards (player_at w p)) card) eqn:E.
    + rewrite putback_ok by exact E. cbn [snd].
      rewrite player_at_set_deck.
      apply (player_at_update_field coins). reflexivity.
    + rewrite putback_raise by exact E. reflexivity.
  - destruct (Counter.contains (cards (player_at w p)) card) eqn:E.
    + rewrite lose_ok by exact E. cbn [snd].
      apply (player_at_update_field coins). reflexivity.
    + rewrite lose_raise by exact E. reflexivity.
Qed.

(** X19: a block that is challenged in vain cancels the action.  When the
    blocker does hold the role of its block, a Call makes the challenger
    the loser; the blocker shows the card and draws another; and once the
    challenger has given up a card the turn ends with the block recorded.
    The blocked action is never carried out: every balance is what it was
    before the Call. *)
Theorem honest_block_cancels_the_action
        w player block act challenge card a' t t' s1 w1 s2 w2 :
  action_card (blk_action block) = Some card ->
  holds w (blk_blocker block) card = true ->
  step (BlockChallenge player block act challenge) CHALLENGE_CALL t w
  = (Ok s1, w1) ->
  step s1 a' t' w1 = (Ok s2, w2) ->
  s1 = BlockChallengeResolve player block
         (mkChallengeInfo on_block player player) act challenge
  /\ failed (mkChallengeInfo on_block player player) = true
  /\ s2 = EndTurn act challenge (Some block)
            (Some (mkChallengeInfo on_block player player)) None
  /\ forall q, coins (player_at w2 q) = coins (player_at w q).
Proof.
  intros Hcard Hholds Hrun1 Hrun2.
  cbn [step] in Hrun1. unfold BlockChallenge.step in Hrun1.
  cbv zeta in Hrun1.
  destruct (decide (CHALLENGE_CALL = CHALLENGE_PASS)); [discriminate|].
  destruct (decide (CHALLENGE_CALL = CHALLENGE_CALL)); [|congruence].
  rewrite Hcard in Hrun1. unfold bind, assert_card, ret, read in Hrun1.
  rewrite Hholds in Hrun1.
  pose proof (run_op_keeps_coins (OpPutback (blk_blocker block) card) w)
    as Hc1.
  cbn [run_op] in Hc1.
  destruct (Player.putback (blk_blocker block) card w) as [[[]|x] wa];
    [|discriminate Hrun1].
  pose proof (run_op_keeps_coins (OpDraw (blk_blocker block)) wa) as Hc2.
  cbn [run_op] in Hc2.
  destruct (Player.draw (blk_blocker block) wa) as [[[]|x] wb];
    [|discriminate Hrun1].
  injection Hrun1 as <- <-. cbn [snd] in Hc1, Hc2.
  split; [reflexivity|]. split; [apply bool_decide_eq_true_2; reflexivity|].
  cbn [step] in Hrun2. unfold BlockChallengeResolve.step, bind in Hrun2.
  destruct (action_card a') as [lost|]; cbn [assert_card] in Hrun2;
    [|discriminate Hrun2].
  unfold ret at 1 in Hrun2.
  pose proof (run_op_keeps_coins (OpLose player lost) wb) as Hc3.
  cbn [run_op] in Hc3.
  destruct (Player.lose player lost wb) as [[[]|x] wc];
    [|discriminate Hrun2].
  cbn [chl_loser chl_challenger snd] in *.
  destruct (decide (player = player)); [|congruence].
  injection Hrun2 as <- <-.
  split; [reflexivity|].
  intros q. rewrite Hc3, Hc2, Hc1. reflexivity.
Qed.

Lemma honest_block_cancels_the_action_witness :
  action_card (blk_action aid_block) = Some DUKE
  /\ holds table_steal (blk_blocker aid_block) DUKE = true
  /\ exists w1 w2,
       step (BlockChallenge 2%nat aid_block aid_act None) CHALLENGE_CALL
            2%nat table_steal
       = (Ok (BlockChallengeResolve 2%nat aid_block
                (mkChallengeInfo on_block 2%nat 2%nat) aid_act None), w1)
       /\ step (BlockChallengeResolve 2%nat aid_block
                  (mkChallengeInfo on_block 2%nat 2%nat) aid_act None)
               LOSE_ASSASSIN 2%nat w1
          = (Ok (EndTurn aid_act None (Some aid_block)
                   (Some (mkChallengeInfo on_block 2%nat 2%nat)) None), w2)
       /\ coins (player_at w2 0%nat) = 2.
Proof.
  split; [reflexivity|]. split; [reflexivity|].
  set (s1 := BlockChallengeResolve 2%nat aid_block
               (mkChallengeInfo on_block 2%nat 2%nat) aid_act None).
  set (w1 := snd (step (BlockChallenge 2%nat aid_block aid_act None)
                       CHALLENGE_CALL 2%nat table_steal)).
  set (w2 := snd (step s1 LOSE_ASSASSIN 2%nat w1)).
  assert (Hrun1 : step (BlockChallenge 2%nat aid_block aid_act None)
                       CHALLENGE_CALL 2%nat table_steal
                  = (Ok s1, w1)) by reflexivity.
  assert (Hrun2 : step s1 LOSE_ASSASSIN 2%nat w1
                  = (Ok (EndTurn aid_act None (Some aid_block)
                           (Some (mkChallengeInfo on_block 2%nat 2%nat))
                           None), w2)) by reflexivity.
  exists w1, w2. split; [exact Hrun1|]. split; [exact Hrun2|].
  destruct (honest_block_cancels_the_action table_steal 2%nat aid_block
              aid_act None DUKE LOSE_ASSASSIN 2%nat 2%nat _ _ _ _
              eq_refl eq_refl Hrun1 Hrun2)
    as (_ & _ & _ & Hcoins).
  rewrite Hcoins. reflexivity.
Defined.

(** ** Agents that leave the game *)

Lemma step_end_turn_player s a t :
  yields (fun s' => forall act chl blk bchl pl,
                      s' = EndTurn act chl blk bchl pl -> pl = None)
         (step s a t).
Proof.
  destruct s; cbn [step];
    unfold Start.step, Challenge.step, ChallengeResolve.step,
      ForeignAidBlock.step, TargetBlock.step, BlockChallenge.step,
      BlockChallengeResolve.step, ActionResolve.step,
      ExchangeResolve.step, ExchangeTwoResolve.step, EndTurn.step,
      GameOver.step, BlockChallengeResolve.toEndTurn;
    cbv zeta;
    repeat
      first
        [ apply yields_raise
        | apply yields_bind; intros ?
        | match goal with
          | |- yields _ (if ?b then _ else _) => destruct b
          | |- yields _ (match ?x with _ => _ end) => destruct x
          end
        | apply yields_ret ];
    intros ? ? ? ? ? H; first [discriminate H | injection H; congruence].
Qed.

Lemma dict_set_in k v d : (k, v) ∈ dict_set k v d.
Proof.
  induction d as [|[k' v'] d IH]; simpl.
  - apply list_elem_of_here.
  - destruct (decide (k = k')); [apply list_elem_of_here|].
    apply list_elem_of_further, IH.
Qed.

Lemma end_turn_scan_some seats ags : forall w p w1,
  end_turn_scan seats ags w = (Some p, w1) ->
  p ∈ ags /\ Player.alive w1 p = false.
Proof.
  induction seats as [|q rest IH]; intros w p w1 Hscan.
  - discriminate Hscan.
  - cbn [end_turn_scan] in Hscan. cbv zeta in Hscan.
    destruct (negb _ && _) eqn:E.
    + injection Hscan as <- <-.
      apply andb_true_iff in E as [Hdead Hin]. split.
      * apply bool_decide_eq_true_1 in Hin. exact Hin.
      * apply negb_true_iff in Hdead. exact Hdead.
    + apply (IH _ _ _ Hscan).
Qed.

Lemma end_of_turn_names e e' act chl blk bchl p :
  end_of_turn e = (Ok tt, e') ->
  turn e' = EndTurn act chl blk bchl (Some p) ->
  agents e' <> [] ->
  p ∈ agents e' /\ (p, true) ∈ terminations e'
  /\ (Player.alive (world e') p = false \/ agents e' = [p]).
Proof.
  intros Hrun Hturn Hags. unfold end_of_turn in Hrun.
  destruct (turn e) as [| | | | | | | | | |a c b bc pl|] eqn:Ht;
    try (injection Hrun as <-; rewrite Ht in Hturn; discriminate Hturn).
  destruct (end_turn_scan _ _ _) as [dead w1] eqn:Hscan.
  destruct dead as [d|].
  { injection Hrun as <-. cbn [turn agents terminations world] in *.
    injection Hturn as _ _ _ _ <-.
    apply end_turn_scan_some in Hscan as [Hin Hdead].
    split; [exact Hin|]. split; [apply dict_set_in|]. left. exact Hdead. }
  destruct (agents e) as [|x [|y l]] eqn:Hagents.
  - injection Hrun as <-. cbn [agents set_world] in Hags. congruence.
  - destruct (decide _); [|discriminate Hrun].
    injection Hrun as <-. cbn [turn agents terminations world] in *.
    injection Hturn as _ _ _ _ <-.
    split; [apply list_elem_of_here|]. split; [apply dict_set_in|].
    right. reflexivity.
  - destruct (Player.next_alive _ _) as [[nxt|x'] w2]; [|discriminate Hrun].
    injection Hrun as <-. discriminate Hturn.
Qed.

(** X20: how the driver names the agent that leaves.  When [raw_env.step]
    returns in an EndTurn phase that names a player, with agents left, the
    player named is one of the agents and [terminations] holds True for
    it; it is a player without cards, or else the only agent left, the
    winner.  The steps of the state machine never name a player
    themselves. *)
Theorem end_turn_names_a_terminated_agent :
  (forall action e e' act chl blk bchl p,
      env_step action e = (Ok tt, e') ->
      turn e' = EndTurn act chl blk bchl (Some p) ->
      agents e' <> [] ->
      p ∈ agents e' /\ (p, true) ∈ terminations e'
      /\ (Player.alive (world e') p = false \/ agents e' = [p]))
  /\ (forall s a t w s' w' act chl blk bchl pl,
         step s a t w = (Ok s', w') ->
         s' = EndTurn act chl blk bchl pl -> pl = None).
Proof.
  split.
  - intros action e e' act chl blk bchl p Hrun Hturn Hags.
    unfold env_step in Hrun. destruct action as [action|].
    + destruct (turn_player _ _) as [[player|x] w0]; [|discriminate Hrun].
      destruct (acts e !! action) as [[a tgt]|]; [|discriminate Hrun].
      case_bool_decide; [|discriminate Hrun].
      cbv zeta in Hrun. destruct (negb _); [discriminate Hrun|].
      destruct (step _ _ _ _) as [[s|x] w1] eqn:Hstep;
        [|discriminate Hrun].
      exact (end_of_turn_names _ _ _ _ _ _ _ Hrun Hturn Hags).
    + destruct (turn e) as [| | | | | | | | | |a c b bc pl|] eqn:Ht;
        try discriminate Hrun.
      destruct pl as [agent|]; [|discriminate Hrun].
      destruct (list_remove agent (agents e)) as [ags|];
        [|discriminate Hrun].
      cbv zeta in Hrun. destruct (existsb _ _); [|discriminate Hrun].
      exact (end_of_turn_names _ _ _ _ _ _ _ Hrun Hturn Hags).
  - intros s a t w s' w' act chl blk bchl pl Hrun Heq.
    exact (step_end_turn_player s a t w s' w' Hrun act chl blk bchl pl Heq).
Qed.

Lemma end_turn_names_a_terminated_agent_witness :
  env_step (Some 0%nat) duel_env
  = (Ok tt, snd (env_step (Some 0%nat) duel_env))
  /\ turn (snd (env_step (Some 0%nat) duel_env))
     = EndTurn coup_act None None None (Some 1%nat)
  /\ agents (snd (env_step (Some 0%nat) duel_env)) <> []
  /\ (1%nat, true) ∈ terminations (snd (env_step (Some 0%nat) duel_env)).
Proof.
  assert (Hrun : env_step (Some 0%nat) duel_env
                 = (Ok tt, snd (env_step (Some 0%nat) duel_env)))
    by reflexivity.
  assert (Hturn : turn (snd (env_step (Some 0%nat) duel_env))
                  = EndTurn coup_act None None None (Some 1%nat))
    by reflexivity.
  assert (Hags : agents (snd (env_step (Some 0%nat) duel_env)) <> [])
    by discriminate.
  split; [exact Hrun|]. split; [exact Hturn|]. split; [exact Hags|].
  destruct (proj1 end_turn_names_a_terminated_agent _ _ _ _ _ _ _ _
              Hrun Hturn Hags) as (_ & Hterm & _).
  exact Hterm.
Defined.
